(** * Asset stores of dagster.core.storage.asset_store

    A shallow embedding of [asset_store.py]: the [AssetStoreContext] value,
    its two construction paths, and the four built-in backends
    ([InMemoryAssetStore], [PickledObjectFilesystemAssetStore],
    [CustomPathPickledObjectFilesystemAssetStore] and
    [VersionedPickledObjectFilesystemAssetStore]).

    Python exceptions are results of an error type; the dictionary of the
    in-memory store and the file system touched by the pickling stores are
    explicit states threaded through a state-and-exception monad (a raised
    exception keeps the effects performed before it). *)

From stdpp Require Import base option list strings gmap fin_maps.
From Stdlib Require Import Ascii String.
From Stdlib.Strings Require Import Byte.

Local Open Scope string_scope.

(** ** Exceptions *)

(** The error numbers of the [OSError]s that have no exception class of their
    own. *)
Inductive errno : Type :=
  | ENAMETOOLONG.

#[global] Instance errno_eq_dec : EqDecision errno.
Proof. solve_decision. Defined.

(** The exceptions the module can raise.  [CheckError] is what the
    [dagster.check] parameter checks raise (the argument is the parameter
    description passed to the check); the others are Python built-ins, a
    plain [OSError] with its error number. *)
Inductive error : Type :=
  | CheckError (param : string)
  | TypeError
  | ValueError
  | KeyError
  | OSError (code : errno)
  | FileNotFoundError
  | FileExistsError
  | IsADirectoryError
  | NotADirectoryError
  | PicklingError
  | UnpicklingError.

#[global] Instance error_eq_dec : EqDecision error.
Proof. solve_decision. Defined.


(** ** State and exception monad *)

Definition M (St A : Type) : Type := St → St * (error + A).

Definition ret {St A} (a : A) : M St A := λ s, (s, inr a).
Definition raise {St A} (e : error) : M St A := λ s, (s, inl e).
Definition bind {St A B} (m : M St A) (f : A → M St B) : M St B :=
  λ s, match m s with
       | (s', inl e) => (s', inl e)
       | (s', inr a) => f a s'
       end.
(** A pure computation that may raise, run inside the monad. *)
Definition lift {St A} (r : error + A) : M St A := λ s, (s, r).
Definition get_state {St} : M St St := λ s, (s, inr s).

Declare Scope py_scope.
Delimit Scope py_scope with py.
Notation "x ←ᵖ m ;; k" := (bind m (λ x, k))
  (at level 100, m at next level, right associativity) : py_scope.
Notation "m ;;ᵖ k" := (bind m (λ _, k))
  (at level 100, right associativity) : py_scope.
Local Open Scope py_scope.

(** ** Python values used as metadata *)

(** The values of the [asset_metadata] dictionary are arbitrary Python
    objects; the stores only ask whether one is a [str]. *)
Inductive pyval : Type :=
  | PyNone
  | PyStr (s : string)
  | PyInt (z : Z)
  | PyBool (b : bool).

#[global] Instance pyval_eq_dec : EqDecision pyval.
Proof. solve_decision. Defined.

Definition py_of_opt_str (o : option string) : pyval :=
  match o with
  | Some s => PyStr s
  | None => PyNone
  end.

(** [dict.get(key)]: the value, or [None] when the key is absent. *)
Definition dict_get (d : gmap string pyval) (key : string) : pyval :=
  default PyNone (d !! key).

(** Modelled from the spec: [dagster.check], which is not part of the sources
    under study.  A parameter check returns its argument when it has the
    required type and raises otherwise ("fail fast ... rather than being
    silently coerced"); [opt_dict_param] turns [None] into an empty dict. *)
Module check.
Definition str_param (obj : pyval) (param_name : string) : error + string :=
    match obj with
    | PyStr s => inr s
    | _ => inl (CheckError param_name)
    end.

Definition opt_dict_param (obj : option (gmap string pyval)) : gmap string pyval :=
    default ∅ obj.
End check.

(** ** Strings as paths: [os.path] on POSIX *)

Definition sep : ascii := "/"%char.

Definition is_sep (c : ascii) : bool := bool_decide (c = sep).

Definition startswith_sep (s : string) : bool :=
  match s with
  | String c _ => is_sep c
  | EmptyString => false
  end.

Fixpoint endswith_sep (s : string) : bool :=
  match s with
  | EmptyString => false
  | String c EmptyString => is_sep c
  | String _ s' => endswith_sep s'
  end.

Fixpoint has_sep (s : string) : bool :=
  match s with
  | EmptyString => false
  | String c s' => is_sep c || has_sep s'
  end.

Fixpoint all_sep (s : string) : bool :=
  match s with
  | EmptyString => true
  | String c s' => is_sep c && all_sep s'
  end.

(** A string stands for the bytes it is encoded to. *)
Definition nul : ascii := "000"%char.

Fixpoint has_nul (s : string) : bool :=
  match s with
  | EmptyString => false
  | String c s' => bool_decide (c = nul) || has_nul s'
  end.

(** [posixpath.join(a, *p)] on strings: a component that starts with the
    separator restarts the path; otherwise it is appended, with a separator
    unless the path so far is empty or already ends with one. *)
Definition join_step (path b : string) : string :=
  if startswith_sep b then b
  else if bool_decide (path = "") || endswith_sep path then path +:+ b
  else path +:+ "/" +:+ b.

(** [os.fspath] raises [TypeError] on [None]; the arguments are converted in
    order, the first one before the loop. *)
Fixpoint join_loop (path : string) (p : list (option string)) : error + string :=
  match p with
  | [] => inr path
  | None :: _ => inl TypeError
  | Some b :: p' => join_loop (join_step path b) p'
  end.

Definition os_path_join (a : option string) (p : list (option string)) : error + string :=
  match a with
  | None => inl TypeError
  | Some a => join_loop a p
  end.

(** [p[:p.rfind("/") + 1]]: the prefix up to and including the last
    separator. *)
Fixpoint upto_last_sep (p : string) : string :=
  match p with
  | EmptyString => ""
  | String c p' =>
      if has_sep p' then String c (upto_last_sep p')
      else if is_sep c then "/" else ""
  end.

(** [s.rstrip("/")] *)
Fixpoint rstrip_sep (s : string) : string :=
  match s with
  | EmptyString => ""
  | String c s' =>
      match rstrip_sep s' with
      | EmptyString => if is_sep c then "" else String c ""
      | r => String c r
      end
  end.

(** [posixpath.dirname] *)
Definition os_path_dirname (p : string) : string :=
  let head := upto_last_sep p in
  if bool_decide (head ≠ "") && negb (all_sep head) then rstrip_sep head else head.

(** [s.split("/")]: never empty; the empty string splits into [[""]]. *)
Fixpoint split_sep (s : string) : list string :=
  match s with
  | EmptyString => [""]
  | String c s' =>
      if is_sep c then "" :: split_sep s'
      else match split_sep s' with
           | [] => [String c ""]
           | w :: ws => String c w :: ws
           end
  end.

(** ["/".join(comps)] *)
Fixpoint join_sep (comps : list string) : string :=
  match comps with
  | [] => ""
  | [c] => c
  | c :: cs => c +:+ "/" +:+ join_sep cs
  end.

(** [posixpath.normpath]: a purely lexical normalisation.  [new_comps] is kept
    with the most recently appended component first. *)
Definition norm_step (initial_slashes : bool) (new_comps : list string) (comp : string)
    : list string :=
  if bool_decide (comp = "" ∨ comp = ".") then new_comps
  else if bool_decide (comp ≠ "..")
          || (negb initial_slashes && bool_decide (new_comps = []))
          || bool_decide (head new_comps = Some "..")
  then comp :: new_comps
  else tail new_comps.

(** POSIX allows one or two initial slashes, and treats three or more as one. *)
Definition initial_slashes (path : string) : nat :=
  match path with
  | String c1 (String c2 (String c3 _)) =>
      if is_sep c1 then (if is_sep c2 && negb (is_sep c3) then 2 else 1) else 0
  | String c1 (String c2 EmptyString) =>
      if is_sep c1 then (if is_sep c2 then 2 else 1) else 0
  | String c1 EmptyString => if is_sep c1 then 1 else 0
  | EmptyString => 0
  end.

Fixpoint repeat_sep (n : nat) : string :=
  match n with
  | O => ""
  | S n' => String sep (repeat_sep n')
  end.

Definition os_path_normpath (path : string) : string :=
  if bool_decide (path = "") then "."
  else
    let n := initial_slashes path in
    let comps := foldl (norm_step (bool_decide (n ≠ 0))) [] (split_sep path) in
    let path' := repeat_sep n +:+ join_sep (reverse comps) in
    if bool_decide (path' = "") then "." else path'.

(** ** The file system *)

(** A location is the list of names leading to it from the root, innermost
    name first; the root is [[]].  There are no symbolic links: none of the
    stores creates one.  A file operation fails for what its path and the
    tree are: a missing or misplaced node, a NUL byte, a name or a path that
    is too long; permissions, quotas and other failures of the medium are
    outside the model. *)
Abbreviation loc := (list string).
Abbreviation bytes := (list Byte.byte).

Inductive node : Type :=
  | File (data : bytes)
  | Dir.

Record filesystem : Type := Filesystem {
  nodes : gmap loc node;   (* what exists below the root *)
  cwd : loc                (* the working directory of the process *)
}.

(** The root always exists and is a directory. *)
Definition node_at (fs : filesystem) (p : loc) : option node :=
  match p with
  | [] => Some Dir
  | _ => nodes fs !! p
  end.

Definition is_dir (fs : filesystem) (p : loc) : bool :=
  match node_at fs p with
  | Some Dir => true
  | _ => false
  end.

Definition put_node (p : loc) (n : node) (fs : filesystem) : filesystem :=
  {| nodes := <[p := n]> (nodes fs); cwd := cwd fs |}.

(** One step of path resolution: empty components (doubled, leading or
    trailing separators) and ["."] stay, [".."] goes to the parent (the
    root is its own parent), a name goes down. *)
Definition enter (cur : loc) (c : string) : loc :=
  if bool_decide (c = "" ∨ c = ".") then cur
  else if bool_decide (c = "..") then tail cur
  else c :: cur.

(** The limits of the platform (Linux): a file name has at most [NAME_MAX]
    bytes, and a path handed to a system call fewer than [PATH_MAX]. *)
Definition NAME_MAX : nat := 255.
Definition PATH_MAX : nat := 4096.

Definition too_long (c : string) : bool := bool_decide (NAME_MAX < String.length c)%nat.

(** Path resolution: every location a step is taken from has to be an
    existing directory, in which a name longer than [NAME_MAX] is refused
    ([ENAMETOOLONG]); the location reached last need not exist. *)
Fixpoint walk (fs : filesystem) (cur : loc) (comps : list string) : error + loc :=
  match comps with
  | [] => inr cur
  | c :: rest =>
      match node_at fs cur with
      | None => inl FileNotFoundError
      | Some (File _) => inl NotADirectoryError
      | Some Dir =>
          if too_long c then inl (OSError ENAMETOOLONG)
          else walk fs (enter cur c) rest
      end
  end.

(** Where resolution of a path string starts. *)
Definition start (fs : filesystem) (path : string) : loc :=
  if startswith_sep path then [] else cwd fs.

(** A path string handed to a system call that resolves it ([open],
    [stat]): Python refuses a string with a NUL byte ([ValueError]) before
    making the call; the system refuses the empty path ([ENOENT]) and a path
    of [PATH_MAX] bytes or more ([ENAMETOOLONG]) before resolving it. *)
Definition resolve (fs : filesystem) (path : string) : error + loc :=
  if has_nul path then inl ValueError
  else if bool_decide (path = "") then inl FileNotFoundError
  else if bool_decide (PATH_MAX ≤ String.length path)%nat then inl (OSError ENAMETOOLONG)
  else walk fs (start fs path) (split_sep path).

(** The purely lexical counterpart of [walk]. *)
Definition lexical (cur : loc) (comps : list string) : loc := foldl enter cur comps.

(** [os.getcwd()] *)
Definition os_getcwd (fs : filesystem) : string :=
  "/" +:+ join_sep (reverse (cwd fs)).

(** [posixpath.abspath] *)
Definition os_path_abspath (fs : filesystem) (path : string) : string :=
  if startswith_sep path then os_path_normpath path
  else os_path_normpath (join_step (os_getcwd fs) path).

(** [os.path.exists] and [os.path.isdir]: [os.stat] succeeded (and found a
    directory); any [OSError] means [False], and so does, from Python 3.8
    on, the [ValueError] of a path with a NUL byte. *)
Definition os_path_exists (fs : filesystem) (path : string) : bool :=
  match resolve fs path with
  | inr p => bool_decide (is_Some (node_at fs p))
  | inl _ => false
  end.

Definition os_path_isdir (fs : filesystem) (path : string) : bool :=
  match resolve fs path with
  | inr p => is_dir fs p
  | inl _ => false
  end.

(** The length of the string [os.makedirs] hands to [mkdir] for the
    component [c] that starts at offset [pos] of the path: the path up to the
    end of the component, and the whole path, trailing separators included,
    when nothing but separators follows. *)
Definition mkdir_arg_length (pos : nat) (c : string) (rest : list string) : nat :=
  (pos + String.length c
   + if forallb (λ r, bool_decide (r = "")) rest then List.length rest else 0)%nat.

(** [os.makedirs] followed by the [EEXIST]-and-is-a-directory test: walk the
    components, creating each missing directory on the way; the location
    reached last has to be a directory in the end.  [os.path.exists] is
    [False] for a prefix that has a NUL byte or is too long, so that [mkdir]
    is then called for it and raises: [ValueError] for the NUL byte, before
    the system call, [ENAMETOOLONG] for a path of [PATH_MAX] bytes or more,
    before it is resolved, and for a name longer than [NAME_MAX], once its
    directory has been found. *)
Fixpoint makedirs_walk (cur : loc) (comps : list string) (pos : nat) (fs : filesystem)
    : filesystem * (error + unit) :=
  match comps with
  | [] =>
      match node_at fs cur with
      | Some Dir => (fs, inr ())
      | Some (File _) => (fs, inl FileExistsError)
      | None => (fs, inl FileNotFoundError)
      end
  | c :: rest =>
      if has_nul c then (fs, inl ValueError)
      else if bool_decide (PATH_MAX ≤ mkdir_arg_length pos c rest)%nat
      then (fs, inl (OSError ENAMETOOLONG))
      else
        match node_at fs cur with
        | None => (fs, inl FileNotFoundError)
        | Some (File _) => (fs, inl NotADirectoryError)
        | Some Dir =>
            if too_long c then (fs, inl (OSError ENAMETOOLONG))
            else
              let next := enter cur c in
              let pos' := (pos + String.length c + 1)%nat in
              match node_at fs next with
              | None => makedirs_walk next rest pos' (put_node next Dir fs)
              | Some _ => makedirs_walk next rest pos' fs
              end
        end
  end.

(** Modelled from the spec: [dagster.utils.mkdir_p], which is not part of the
    sources under study: "ensure all parent directories exist (idempotent,
    concurrent-safe create)".  [os.makedirs("")] raises [FileNotFoundError];
    the errors of [mkdir] other than [EEXIST] are passed on. *)
Definition mkdir_p (path : string) : M filesystem unit :=
  λ fs,
    if bool_decide (path = "") then (fs, inl FileNotFoundError)
    else makedirs_walk (start fs path) (split_sep path) 0 fs.

(** The two modes the stores open files with. *)
Inductive mode : Type := wb | rb.

(** [open(filepath, mode)]; the handle is the location of the opened file.
    ["wb"] creates the file in an existing directory or truncates it; ["rb"]
    needs an existing regular file. *)
Definition open_ (filepath : string) (m : mode) : M filesystem loc :=
  λ fs,
    match resolve fs filepath with
    | inl e => (fs, inl e)
    | inr p =>
        match node_at fs p, m with
        | Some Dir, _ => (fs, inl IsADirectoryError)
        | Some (File _), wb => (put_node p (File []) fs, inr p)
        | Some (File _), rb => (fs, inr p)
        | None, wb =>
            if is_dir fs (tail p)
            then (put_node p (File []) fs, inr p)
            else (fs, inl FileNotFoundError)
        | None, rb => (fs, inl FileNotFoundError)
        end
    end.

(** ** The serializer *)

(** [pickle] as an injected strategy over the type of stored objects:
    [dumps] is [None] for an object that cannot be pickled, in which case
    [pickle.dump] raises after having written [flushed obj] to the file;
    [loads] is [None] for bytes that do not unpickle. *)
Record Pickler (value : Type) : Type := {
  dumps : value → option bytes;
  flushed : value → bytes;
  loads : bytes → option value
}.
Arguments dumps {value} _ _.
Arguments flushed {value} _ _.
Arguments loads {value} _ _.

Definition round_trips {value} (P : Pickler value) : Prop :=
  ∀ v b, dumps P v = Some b → loads P b = Some v.

Section pickle.
Context {value : Type} (P : Pickler value).

  (** [pickle.dump(obj, f, PICKLE_PROTOCOL)] *)
Definition pickle_dump (obj : value) (f : loc) : M filesystem unit :=
    λ fs,
      match dumps P obj with
      | Some b => (put_node f (File b) fs, inr ())
      | None => (put_node f (File (flushed P obj)) fs, inl PicklingError)
      end.

  (** [pickle.load(f)] *)
Definition pickle_load (f : loc) : M filesystem value :=
    λ fs,
      match node_at fs f with
      | Some (File b) =>
          match loads P b with
          | Some v => (fs, inr v)
          | None => (fs, inl UnpicklingError)
          end
      | _ => (fs, inl FileNotFoundError)
      end.
End pickle.

(** ** Contexts *)

(** Modelled from the spec: [SolidDefinition] is declared elsewhere in the
    repository; it is an "opaque handle ... not interpreted by the core", so
    only its identity is kept. *)
Record SolidDefinition : Type := { solid_name : string }.

#[global] Instance SolidDefinition_eq_dec : EqDecision SolidDefinition.
Proof. solve_decision. Defined.

(** The namedtuple [_AssetStoreContext].  The field types are what the
    checks of [__new__] let through. *)
Record AssetStoreContext : Type := {
  step_key : string;
  output_name : string;
  asset_metadata : gmap string pyval;
  pipeline_name : string;
  solid_def : SolidDefinition;
  source_run_id : option string;
  version : option string
}.

(** [AssetStoreContext.__new__]: on arguments of the documented types the
    string and instance checks pass, and [opt_dict_param] replaces a missing
    [asset_metadata] by the empty dict. *)
Definition AssetStoreContext_new (step_key output_name : string)
    (asset_metadata : option (gmap string pyval)) (pipeline_name : string)
    (solid_def : SolidDefinition) (source_run_id version : option string)
    : AssetStoreContext :=
  {| step_key := step_key;
     output_name := output_name;
     asset_metadata := check.opt_dict_param asset_metadata;
     pipeline_name := pipeline_name;
     solid_def := solid_def;
     source_run_id := source_run_id;
     version := version |}.

Definition get_run_scoped_output_identifier (self : AssetStoreContext) : list (option string) :=
  [source_run_id self; Some (step_key self); Some (output_name self)].

(** The engine's contexts, reduced to the attributes the module reads. *)
Module OutputContext.
Record t : Type := {
    step_key : string;
    name : string;
    metadata : option (gmap string pyval);
    pipeline_name : string;
    solid_def : SolidDefinition;
    run_id : option string;
    version : option string
  }.
End OutputContext.

Module InputContext.
Record t : Type := {
    upstream_output : OutputContext.t;
    solid_def : SolidDefinition
  }.
End InputContext.

Definition from_output_context (output_context : OutputContext.t) : AssetStoreContext :=
  AssetStoreContext_new
    (OutputContext.step_key output_context)
    (OutputContext.name output_context)
    (OutputContext.metadata output_context)
    (OutputContext.pipeline_name output_context)
    (OutputContext.solid_def output_context)
    (OutputContext.run_id output_context)
    (OutputContext.version output_context).

Definition from_load_context (load_context : InputContext.t) : AssetStoreContext :=
  let output_context := InputContext.upstream_output load_context in
  AssetStoreContext_new
    (OutputContext.step_key output_context)
    (OutputContext.name output_context)
    (OutputContext.metadata output_context)
    (OutputContext.pipeline_name output_context)
    (InputContext.solid_def load_context)
    (OutputContext.run_id output_context)
    (OutputContext.version output_context).

(** ** Materialization events *)

Inductive AssetKey : Type := mkAssetKey (path : list string).

Inductive EventMetadataEntry : Type := fspath (path : string).

Record AssetMaterialization : Type := {
  asset_key : AssetKey;
  metadata_entries : list EventMetadataEntry
}.

(** ** The store interface *)

(** [AssetStore]: the two abstract methods, for a store object of type
    [Self] acting on a state of type [St].  [set_asset] returns what the
    Python method returns: [None] or a materialization. *)
Class AssetStore (Self St value : Type) : Type := {
  set_asset : Self → AssetStoreContext → value → M St (option AssetMaterialization);
  get_asset : Self → AssetStoreContext → M St value
}.

Class VersionedAssetStore (Self St value : Type) : Type := {
  versioned_store :: AssetStore Self St value;
  has_asset : Self → AssetStoreContext → M St bool
}.

Definition handle_output {Self St V} `{!AssetStore Self St V}
    (self : Self) (context : OutputContext.t) (obj : V)
    : M St (option AssetMaterialization) :=
  set_asset self (from_output_context context) obj.

Definition load_input {Self St V} `{!AssetStore Self St V}
    (self : Self) (context : InputContext.t) : M St V :=
  get_asset self (from_load_context context).

(** ** The in-memory store *)

Module InMemoryAssetStore.
Section store.
Context {value : Type}.

    (** The object's only attribute, [self.values], is the state. *)
Record t : Type := { values : gmap (list (option string)) value }.

Definition init : t := {| values := ∅ |}.

Definition set_asset (context : AssetStoreContext) (obj : value)
        : M t (option AssetMaterialization) :=
      let keys := get_run_scoped_output_identifier context in
      λ self, ({| values := <[keys := obj]> (values self) |}, inr None).

Definition get_asset (context : AssetStoreContext) : M t value :=
      let keys := get_run_scoped_output_identifier context in
      λ self,
        match values self !! keys with
        | Some obj => (self, inr obj)
        | None => (self, inl KeyError)
        end.
End store.
Arguments t : clear implicits.
End InMemoryAssetStore.

(** ** The run-scoped filesystem store *)

Module PickledObjectFilesystemAssetStore.
Record t : Type := { base_dir : option string }.

Section store.
Context {value : Type} (P : Pickler value).

Definition _get_path (self : t) (context : AssetStoreContext) : error + string :=
      let keys := get_run_scoped_output_identifier context in
      os_path_join (base_dir self) keys.

Definition set_asset (self : t) (context : AssetStoreContext) (obj : value)
        : M filesystem (option AssetMaterialization) :=
      filepath ←ᵖ lift (_get_path self context);;
      mkdir_p (os_path_dirname filepath);;ᵖ
      write_obj ←ᵖ open_ filepath wb;;
      pickle_dump P obj write_obj;;ᵖ
      ret None.

Definition get_asset (self : t) (context : AssetStoreContext) : M filesystem value :=
      filepath ←ᵖ lift (_get_path self context);;
      read_obj ←ᵖ open_ filepath rb;;
      pickle_load P read_obj.
End store.
End PickledObjectFilesystemAssetStore.

(** ** The explicit-path filesystem store *)

Module CustomPathPickledObjectFilesystemAssetStore.
Record t : Type := { base_dir : option string }.

Section store.
Context {value : Type} (P : Pickler value).

Definition _get_path (self : t) (path : string) : error + string :=
      os_path_join (base_dir self) [Some path].

Definition set_asset (self : t) (context : AssetStoreContext) (obj : value)
        : M filesystem (option AssetMaterialization) :=
      let asset_metadata := asset_metadata context in
      path ←ᵖ lift (check.str_param (dict_get asset_metadata "path") "asset_metadata.path");;
      filepath ←ᵖ lift (_get_path self path);;
      mkdir_p (os_path_dirname filepath);;ᵖ
      write_obj ←ᵖ open_ filepath wb;;
      pickle_dump P obj write_obj;;ᵖ
      fs ←ᵖ get_state;;
      ret (Some {|
        asset_key :=
          mkAssetKey [pipeline_name context; step_key context; output_name context];
        metadata_entries := [fspath (os_path_abspath fs filepath)]
      |}).

Definition get_asset (self : t) (context : AssetStoreContext) : M filesystem value :=
      let asset_metadata := asset_metadata context in
      path ←ᵖ lift (check.str_param (dict_get asset_metadata "path") "asset_metadata.path");;
      filepath ←ᵖ lift (_get_path self path);;
      read_obj ←ᵖ open_ filepath rb;;
      pickle_load P read_obj.
End store.
End CustomPathPickledObjectFilesystemAssetStore.

(** ** The version-scoped filesystem store *)

Module VersionedPickledObjectFilesystemAssetStore.
Record t : Type := { base_dir : option string }.

Section store.
Context {value : Type} (P : Pickler value).

Definition _get_path (self : t) (context : AssetStoreContext) : error + string :=
      match check.str_param (PyStr (step_key context)) "context.step_key" with
      | inl e => inl e
      | inr step_key =>
          match check.str_param (PyStr (output_name context)) "context.output_name" with
          | inl e => inl e
          | inr output_name =>
              match check.str_param (py_of_opt_str (version context)) "context.version" with
              | inl e => inl e
              | inr version =>
                  os_path_join (base_dir self) [Some step_key; Some output_name; Some version]
              end
          end
      end.

Definition set_asset (self : t) (context : AssetStoreContext) (obj : value)
        : M filesystem (option AssetMaterialization) :=
      filepath ←ᵖ lift (_get_path self context);;
      mkdir_p (os_path_dirname filepath);;ᵖ
      write_obj ←ᵖ open_ filepath wb;;
      pickle_dump P obj write_obj;;ᵖ
      ret None.

Definition get_asset (self : t) (context : AssetStoreContext) : M filesystem value :=
      filepath ←ᵖ lift (_get_path self context);;
      read_obj ←ᵖ open_ filepath rb;;
      pickle_load P read_obj.

Definition has_asset (self : t) (context : AssetStoreContext) : M filesystem bool :=
      filepath ←ᵖ lift (_get_path self context);;
      fs ←ᵖ get_state;;
      ret (os_path_exists fs filepath && negb (os_path_isdir fs filepath)).
End store.
End VersionedPickledObjectFilesystemAssetStore.

(** ** The stores as implementations of the interface *)

#[global] Instance InMemoryAssetStore_store {V}
    : AssetStore unit (InMemoryAssetStore.t V) V :=
  {| set_asset := λ _, InMemoryAssetStore.set_asset;
     get_asset := λ _, InMemoryAssetStore.get_asset |}.

#[global] Instance PickledObjectFilesystemAssetStore_store {V} (P : Pickler V)
    : AssetStore PickledObjectFilesystemAssetStore.t filesystem V :=
  {| set_asset := PickledObjectFilesystemAssetStore.set_asset P;
     get_asset := PickledObjectFilesystemAssetStore.get_asset P |}.

#[global] Instance CustomPathPickledObjectFilesystemAssetStore_store {V} (P : Pickler V)
    : AssetStore CustomPathPickledObjectFilesystemAssetStore.t filesystem V :=
  {| set_asset := CustomPathPickledObjectFilesystemAssetStore.set_asset P;
     get_asset := CustomPathPickledObjectFilesystemAssetStore.get_asset P |}.

#[global] Instance VersionedPickledObjectFilesystemAssetStore_store {V} (P : Pickler V)
    : VersionedAssetStore VersionedPickledObjectFilesystemAssetStore.t filesystem V :=
  {| versioned_store :=
       {| set_asset := VersionedPickledObjectFilesystemAssetStore.set_asset P;
          get_asset := VersionedPickledObjectFilesystemAssetStore.get_asset P |};
     has_asset := VersionedPickledObjectFilesystemAssetStore.has_asset |}.


(** ** A concrete serializer and a concrete machine, for examples *)

(** A toy strategy over [pyval], standing for [pickle]: a tag byte followed
    by the payload (integers in unary, with a sign byte). *)
Module toy.
Definition dumps (v : pyval) : option bytes :=
    match v with
    | PyNone => Some ["N"%byte]
    | PyBool true => Some ["T"%byte]
    | PyBool false => Some ["F"%byte]
    | PyStr s => Some ("S"%byte :: list_byte_of_string s)
    | PyInt z =>
        Some ("I"%byte :: (if bool_decide (z < 0)%Z then "-"%byte else "+"%byte)
                       :: replicate (Z.abs_nat z) "1"%byte)
    end.

Definition loads (b : bytes) : option pyval :=
    match b with
    | ["N"%byte] => Some PyNone
    | ["T"%byte] => Some (PyBool true)
    | ["F"%byte] => Some (PyBool false)
    | "S"%byte :: s => Some (PyStr (string_of_list_byte s))
    | "I"%byte :: "+"%byte :: u => Some (PyInt (Z.of_nat (List.length u)))
    | "I"%byte :: "-"%byte :: u => Some (PyInt (- Z.of_nat (List.length u)))
    | _ => None
    end.

End toy.

Definition toy_pickle : Pickler pyval :=
  {| dumps := toy.dumps; flushed := λ _, []; loads := toy.loads |}.

(** An empty machine: nothing but the root, which is the working directory. *)
Definition empty_fs : filesystem := {| nodes := ∅; cwd := [] |}.


(** * Facts about the model *)

(** ** The monad *)

Lemma bind_inr {St A B} (m : M St A) (f : A → M St B) s s' b :
  bind m f s = (s', inr b) ↔ ∃ s1 a, m s = (s1, inr a) ∧ f a s1 = (s', inr b).
Proof.
  unfold bind. destruct (m s) as [s1 [e|a]]; split.
  - intros; simplify_eq.
  - intros (? & ? & ? & ?); simplify_eq.
  - eauto.
  - intros (? & ? & ? & ?); by simplify_eq.
Qed.

Lemma bind_inl {St A B} (m : M St A) (f : A → M St B) s s' e :
  bind m f s = (s', inl e) ↔
  m s = (s', inl e) ∨ ∃ s1 a, m s = (s1, inr a) ∧ f a s1 = (s', inl e).
Proof.
  unfold bind. destruct (m s) as [s1 [e1|a]]; split.
  - intros; simplify_eq; eauto.
  - intros [?|(? & ? & ? & ?)]; by simplify_eq.
  - eauto.
  - intros [?|(? & ? & ? & ?)]; by simplify_eq.
Qed.

(** ** Nodes *)

Definition is_file (fs : filesystem) (p : loc) : bool :=
  match node_at fs p with
  | Some (File _) => true
  | _ => false
  end.

Lemma node_at_put_ne p q n fs : p ≠ q → node_at (put_node p n fs) q = node_at fs q.
Proof.
  intros Hne. destruct q as [|c q]; [done|]. simpl. by rewrite lookup_insert_ne.
Qed.

Lemma node_at_put_eq p n fs : p ≠ [] → node_at (put_node p n fs) p = Some n.
Proof.
  intros Hne. destruct p as [|c p]; [done|]. simpl. by rewrite lookup_insert_eq.
Qed.

Lemma cwd_put p n fs : cwd (put_node p n fs) = cwd fs.
Proof. done. Qed.

Lemma node_at_not_root fs p : node_at fs p ≠ Some Dir → p ≠ [].
Proof. by destruct p. Qed.

(** ** Growth of the file system *)

(** [extends fs fs']: the working directory is the same, directories stay
    directories and files stay files (their contents may change). *)
Record extends (fs fs' : filesystem) : Prop := {
  extends_cwd : cwd fs' = cwd fs;
  extends_dir : ∀ p, is_dir fs p = true → is_dir fs' p = true;
  extends_file : ∀ p, is_file fs p = true → is_file fs' p = true
}.

Lemma extends_refl fs : extends fs fs.
Proof. by split. Qed.

Lemma extends_trans fs1 fs2 fs3 : extends fs1 fs2 → extends fs2 fs3 → extends fs1 fs3.
Proof.
  intros [] []. split; [congruence|eauto..].
Qed.

Lemma is_dir_Some fs p : is_dir fs p = true ↔ node_at fs p = Some Dir.
Proof. unfold is_dir. by repeat case_match. Qed.

Lemma is_file_Some fs p : is_file fs p = true ↔ ∃ d, node_at fs p = Some (File d).
Proof.
  unfold is_file. destruct (node_at fs p) as [[d|]|]; split; eauto; try done;
    by intros [? [=]].
Qed.

(** Creating a node where there was none. *)
Lemma extends_put_fresh p n fs : node_at fs p = None → extends fs (put_node p n fs).
Proof.
  intros Hp. split; [done|..]; intros q; unfold is_dir, is_file;
    (destruct (decide (p = q)) as [->|]; [by rewrite Hp|by rewrite node_at_put_ne]).
Qed.

(** Replacing the contents of a file. *)
Lemma extends_put_file p d fs : is_file fs p = true → extends fs (put_node p (File d) fs).
Proof.
  intros Hp. assert (p ≠ []) by (by destruct p).
  split; [done|..]; intros q; unfold is_dir, is_file in *;
    (destruct (decide (p = q)) as [->|];
     [rewrite node_at_put_eq by done; by repeat case_match
     |by rewrite node_at_put_ne]).
Qed.

(** ** Path resolution *)

Lemma walk_lexical fs cur comps p : walk fs cur comps = inr p → p = lexical cur comps.
Proof.
  revert cur. induction comps as [|c rest IH]; intros cur; simpl.
  - by intros [= ->].
  - repeat case_match; try done. apply IH.
Qed.

Lemma walk_extends fs fs' cur comps p :
  extends fs fs' → walk fs cur comps = inr p → walk fs' cur comps = inr p.
Proof.
  intros Hext. revert cur. induction comps as [|c rest IH]; intros cur; simpl; [done|].
  destruct (node_at fs cur) as [[]|] eqn:Hcur; try done.
  apply is_dir_Some, (extends_dir _ _ Hext), is_dir_Some in Hcur as ->.
  destruct (too_long c); [done|]. apply IH.
Qed.

Lemma walk_app fs cur l1 l2 :
  walk fs cur (l1 ++ l2) =
  match walk fs cur l1 with
  | inl e => inl e
  | inr p => walk fs p l2
  end.
Proof.
  revert cur. induction l1 as [|c l1 IH]; intros cur; simpl; [done|].
  destruct (node_at fs cur) as [[]|]; [done| |done].
  destruct (too_long c); [done|apply IH].
Qed.

Lemma start_extends fs fs' path : extends fs fs' → start fs' path = start fs path.
Proof. intros []. unfold start. by case_match. Qed.

Lemma resolve_lexical fs path p :
  resolve fs path = inr p → p = lexical (start fs path) (split_sep path).
Proof. unfold resolve. repeat case_match; try done. apply walk_lexical. Qed.

Lemma resolve_extends fs fs' path p :
  extends fs fs' → resolve fs path = inr p → resolve fs' path = inr p.
Proof.
  intros Hext. unfold resolve. repeat case_match; try done.
  rewrite (start_extends _ _ _ Hext). by apply walk_extends.
Qed.

(** ** Effects of the file operations *)

(** [dirs_added fs fs']: [fs'] is [fs] with some directories created. *)
Record dirs_added (fs fs' : filesystem) : Prop := {
  dirs_added_cwd : cwd fs' = cwd fs;
  dirs_added_node : ∀ q,
    node_at fs' q = node_at fs q ∨ (node_at fs q = None ∧ node_at fs' q = Some Dir)
}.

Lemma dirs_added_refl fs : dirs_added fs fs.
Proof. split; auto. Qed.

Lemma dirs_added_trans fs1 fs2 fs3 :
  dirs_added fs1 fs2 → dirs_added fs2 fs3 → dirs_added fs1 fs3.
Proof.
  intros [Hc1 Hn1] [Hc2 Hn2]. split; [congruence|].
  intros q. destruct (Hn1 q) as [H1|[H1 H1']], (Hn2 q) as [H2|[H2 H2']].
  - left. congruence.
  - right. split; congruence.
  - right. split; congruence.
  - congruence.
Qed.

Lemma dirs_added_put fs p : node_at fs p = None → dirs_added fs (put_node p Dir fs).
Proof.
  intros Hp. split; [done|]. intros q. destruct (decide (p = q)) as [<-|].
  - right. split; [done|]. apply node_at_put_eq. by destruct p.
  - left. by apply node_at_put_ne.
Qed.

Lemma dirs_added_extends fs fs' : dirs_added fs fs' → extends fs fs'.
Proof.
  intros [Hc Hn]. split; [done|..]; intros q; unfold is_dir, is_file;
    destruct (Hn q) as [->|[-> ?]]; done.
Qed.

Lemma dirs_added_file fs fs' q d :
  dirs_added fs fs' → node_at fs' q = Some (File d) ↔ node_at fs q = Some (File d).
Proof.
  intros [_ Hn]. destruct (Hn q) as [->|[-> ->]]; [done|]. split; done.
Qed.

Lemma makedirs_walk_dirs_added cur comps pos fs fs' r :
  makedirs_walk cur comps pos fs = (fs', r) → dirs_added fs fs'.
Proof.
  revert cur pos fs. induction comps as [|c rest IH]; intros cur pos fs; simpl.
  - destruct (node_at fs cur) as [[]|]; intros [= <- <-]; apply dirs_added_refl.
  - destruct (has_nul c); [intros [= <- <-]; apply dirs_added_refl|].
    case_bool_decide; [intros [= <- <-]; apply dirs_added_refl|].
    destruct (node_at fs cur) as [[]|]; try (intros [= <- <-]; apply dirs_added_refl).
    destruct (too_long c); [intros [= <- <-]; apply dirs_added_refl|].
    destruct (node_at fs (enter cur c)) eqn:Hnext; intros Hw.
    + by eapply IH.
    + eapply dirs_added_trans; [by apply dirs_added_put|by eapply IH].
Qed.

Lemma mkdir_p_dirs_added path fs fs' r : mkdir_p path fs = (fs', r) → dirs_added fs fs'.
Proof.
  unfold mkdir_p. case_bool_decide.
  - intros [= <- <-]. apply dirs_added_refl.
  - apply makedirs_walk_dirs_added.
Qed.

Lemma put_put p n1 n2 fs : put_node p n2 (put_node p n1 fs) = put_node p n2 fs.
Proof. unfold put_node. simpl. by rewrite insert_insert_eq. Qed.

(** Opening for writing either fails and changes nothing, or leaves an empty
    file at the location the path resolves to. *)
Lemma open_wb_spec filepath fs fs' r :
  open_ filepath wb fs = (fs', r) →
  (fs' = fs ∧ ∃ e, r = inl e) ∨
  (∃ p, r = inr p ∧ resolve fs filepath = inr p ∧ is_dir fs p = false ∧
        fs' = put_node p (File []) fs).
Proof.
  unfold open_, is_dir. destruct (resolve fs filepath) as [e|p]; [naive_solver|].
  destruct (node_at fs p) as [[d|]|] eqn:Hp.
  - intros [= <- <-]. right. exists p. by rewrite Hp.
  - naive_solver.
  - case_match; intros [= <- <-]; [|naive_solver]. right. exists p. by rewrite Hp.
Qed.

(** Opening for reading changes nothing; it succeeds exactly on a path that
    resolves to a regular file. *)
Lemma open_rb_spec filepath fs :
  open_ filepath rb fs =
  (fs, match resolve fs filepath with
       | inl e => inl e
       | inr p => match node_at fs p with
                  | Some (File _) => inr p
                  | Some Dir => inl IsADirectoryError
                  | None => inl FileNotFoundError
                  end
       end).
Proof.
  unfold open_. destruct (resolve fs filepath); [done|]. by repeat case_match.
Qed.

(** The steps shared by the three pickling [set_asset] methods once the path
    is known, and those shared by the three [get_asset] methods. *)
Definition store_pickle {value} (P : Pickler value) (filepath : string) (obj : value)
    : M filesystem unit :=
  mkdir_p (os_path_dirname filepath);;ᵖ
  write_obj ←ᵖ open_ filepath wb;;
  pickle_dump P obj write_obj.

Definition load_pickle {value} (P : Pickler value) (filepath : string)
    : M filesystem value :=
  read_obj ←ᵖ open_ filepath rb;;
  pickle_load P read_obj.

Section pickling.
Context {value : Type} (P : Pickler value).

  (** What [store_pickle] can do: create directories, and then, unless
      creating them or opening the file raised, put a file at the location
      of the path: the pickled object or, if pickling raised, what had been
      flushed. *)
Lemma store_pickle_spec filepath obj fs fs' r :
    store_pickle P filepath obj fs = (fs', r) →
    ∃ fs1, dirs_added fs fs1 ∧
      ((fs' = fs1 ∧ ∃ e, r = inl e) ∨
       (∃ p d, resolve fs1 filepath = inr p ∧ is_dir fs1 p = false ∧
               fs' = put_node p (File d) fs1 ∧
               ((r = inr () ∧ dumps P obj = Some d) ∨
                (r = inl PicklingError ∧ dumps P obj = None)))).
  Proof.
    unfold store_pickle, bind.
    destruct (mkdir_p _ fs) as [fs1 [e|[]]] eqn:Hmk;
      pose proof (mkdir_p_dirs_added _ _ _ _ Hmk) as Hadd.
    { intros [= <- <-]. exists fs1. eauto. }
    destruct (open_ filepath wb fs1) as [fs2 [e|p]] eqn:Hopen;
      apply open_wb_spec in Hopen as [[-> [e' ?]]|(p' & ? & Hres & Hnd & ->)];
      simplify_eq.
    { intros [= <- <-]. exists fs1. eauto. }
    unfold pickle_dump.
    destruct (dumps P obj) as [b|] eqn:Hd; intros [= <- <-]; rewrite put_put;
      exists fs1; (split; [done|right]).
    - exists p', b. split_and!; auto.
    - exists p', (flushed P obj). split_and!; auto.
  Qed.

  (** The location a path string denotes, whatever exists. *)
Definition site (fs : filesystem) (filepath : string) : loc :=
    lexical (start fs filepath) (split_sep filepath).

Lemma resolve_site fs filepath p : resolve fs filepath = inr p → p = site fs filepath.
  Proof. apply resolve_lexical. Qed.

Lemma site_dirs_added fs fs' filepath :
    dirs_added fs fs' → site fs' filepath = site fs filepath.
  Proof. intros [Hc _]. unfold site, start. by rewrite Hc. Qed.

Lemma site_extends fs fs' filepath :
    extends fs fs' → site fs' filepath = site fs filepath.
  Proof. intros [Hc _ _]. unfold site, start. by rewrite Hc. Qed.

Lemma extends_put_nondir p d fs : is_dir fs p = false → extends fs (put_node p (File d) fs).
  Proof.
    intros Hp. destruct (is_file fs p) eqn:Hf; [by apply extends_put_file|].
    apply extends_put_fresh. unfold is_dir, is_file in *.
    by destruct (node_at fs p) as [[]|].
  Qed.

Lemma store_pickle_extends filepath obj fs fs' r :
    store_pickle P filepath obj fs = (fs', r) → extends fs fs'.
  Proof.
    intros (fs1 & Hadd & [[-> _]|(p & d & _ & Hnd & -> & _)])%store_pickle_spec.
    - by apply dirs_added_extends.
    - eapply extends_trans; [by apply dirs_added_extends|by apply extends_put_nondir].
  Qed.

  (** After a successful [store_pickle] the path resolves to a file holding
      the pickled object. *)
Lemma store_pickle_written filepath obj fs fs' :
    store_pickle P filepath obj fs = (fs', inr ()) →
    ∃ p d, dumps P obj = Some d ∧ resolve fs' filepath = inr p ∧
           node_at fs' p = Some (File d).
  Proof.
    intros (fs1 & Hadd & [[_ [e ?]]|(p & d & Hres & Hnd & -> & [[_ Hd]|[? _]])])%store_pickle_spec;
      try done.
    exists p, d. split_and!; [done|..].
    - eapply resolve_extends; [by apply extends_put_nondir|done].
    - apply node_at_put_eq. by destruct p.
  Qed.

  (** Files elsewhere are left alone, whether [store_pickle] raises or not. *)
Lemma store_pickle_frame filepath obj fs fs' r q d :
    store_pickle P filepath obj fs = (fs', r) →
    q ≠ site fs filepath →
    node_at fs' q = Some (File d) ↔ node_at fs q = Some (File d).
  Proof.
    intros (fs1 & Hadd & [[-> _]|(p & d' & Hres & Hnd & -> & _)])%store_pickle_spec Hq.
    - by apply dirs_added_file.
    - apply resolve_site in Hres. rewrite (site_dirs_added _ _ _ Hadd) in Hres.
      rewrite node_at_put_ne by congruence. by apply dirs_added_file.
  Qed.

  (** The files there are after [store_pickle] were there before, except
      possibly the one at the location of the path. *)
Lemma store_pickle_files filepath obj fs fs' r q :
    store_pickle P filepath obj fs = (fs', r) →
    is_file fs' q = true → is_file fs q = true ∨ q = site fs filepath.
  Proof.
    intros Hst [d Hq]%is_file_Some.
    destruct (decide (q = site fs filepath)) as [|Hne]; [by right|left].
    apply is_file_Some. exists d. by apply (store_pickle_frame _ _ _ _ _ _ _ Hst Hne).
  Qed.

Lemma load_pickle_spec filepath fs :
    load_pickle P filepath fs =
    (fs, match resolve fs filepath with
         | inl e => inl e
         | inr p => match node_at fs p with
                    | Some (File b) => match loads P b with
                                       | Some v => inr v
                                       | None => inl UnpicklingError
                                       end
                    | Some Dir => inl IsADirectoryError
                    | None => inl FileNotFoundError
                    end
         end).
  Proof.
    unfold load_pickle, bind. rewrite open_rb_spec.
    destruct (resolve fs filepath) as [e|p]; [done|].
    unfold pickle_load. destruct (node_at fs p) as [[b|]|] eqn:Hp; [|done..].
    rewrite Hp. by destruct (loads P b).
  Qed.

  (** Reading back what [store_pickle] wrote. *)
Lemma load_store_pickle filepath obj fs fs' :
    round_trips P →
    store_pickle P filepath obj fs = (fs', inr ()) →
    load_pickle P filepath fs' = (fs', inr obj).
  Proof.
    intros Hrt (p & d & Hd & Hres & Hp)%store_pickle_written.
    rewrite load_pickle_spec, Hres, Hp. by rewrite (Hrt _ _ Hd).
  Qed.
End pickling.

(** The test of [has_asset]: the path resolves to a regular file. *)
Lemma exists_not_isdir fs path :
  os_path_exists fs path && negb (os_path_isdir fs path) = true ↔
  ∃ p, resolve fs path = inr p ∧ is_file fs p = true.
Proof.
  unfold os_path_exists, os_path_isdir, is_dir, is_file.
  destruct (resolve fs path) as [e|p].
  - split; [done|]. by intros (? & ? & _).
  - destruct (node_at fs p) as [[]|] eqn:Hp.
    + split; [|by intros _; rewrite bool_decide_true by eauto].
      intros _. exists p. by rewrite Hp.
    + rewrite andb_false_r. split; [done|]. intros (? & [= <-] & Hf). by rewrite Hp in Hf.
    + rewrite bool_decide_false by (by intros [? ?]). split; [done|].
      intros (? & [= <-] & Hf). by rewrite Hp in Hf.
Qed.

(** ** The pickling stores in terms of [store_pickle] and [load_pickle] *)

Section unfold.
Context {value : Type} (P : Pickler value).

  (** How a [set_asset] ends once [store_pickle] has run. *)
Definition finish {A} (res : filesystem * (error + unit)) (k : filesystem → A)
      : filesystem * (error + A) :=
    match res with
    | (fs', inl e) => (fs', inl e)
    | (fs', inr _) => (fs', inr (k fs'))
    end.

Lemma run_scoped_set_asset self ctx obj fs :
    PickledObjectFilesystemAssetStore.set_asset P self ctx obj fs =
    match PickledObjectFilesystemAssetStore._get_path self ctx with
    | inl e => (fs, inl e)
    | inr filepath => finish (store_pickle P filepath obj fs) (λ _, None)
    end.
  Proof.
    unfold PickledObjectFilesystemAssetStore.set_asset, store_pickle, finish, bind, lift, ret.
    destruct (PickledObjectFilesystemAssetStore._get_path self ctx) as [e|filepath]; [done|].
    destruct (mkdir_p _ fs) as [fs1 [|[]]]; [done|].
    destruct (open_ _ _ fs1) as [fs2 [|f]]; [done|].
    by destruct (pickle_dump P obj f fs2) as [fs3 [|[]]].
  Qed.

Lemma run_scoped_get_asset self ctx fs :
    PickledObjectFilesystemAssetStore.get_asset P self ctx fs =
    match PickledObjectFilesystemAssetStore._get_path self ctx with
    | inl e => (fs, inl e)
    | inr filepath => load_pickle P filepath fs
    end.
  Proof.
    unfold PickledObjectFilesystemAssetStore.get_asset, bind, lift.
    by destruct (PickledObjectFilesystemAssetStore._get_path self ctx).
  Qed.

Lemma versioned_set_asset self ctx obj fs :
    VersionedPickledObjectFilesystemAssetStore.set_asset P self ctx obj fs =
    match VersionedPickledObjectFilesystemAssetStore._get_path self ctx with
    | inl e => (fs, inl e)
    | inr filepath => finish (store_pickle P filepath obj fs) (λ _, None)
    end.
  Proof.
    unfold VersionedPickledObjectFilesystemAssetStore.set_asset, store_pickle, finish,
      bind, lift, ret.
    destruct (VersionedPickledObjectFilesystemAssetStore._get_path self ctx)
      as [e|filepath]; [done|].
    destruct (mkdir_p _ fs) as [fs1 [|[]]]; [done|].
    destruct (open_ _ _ fs1) as [fs2 [|f]]; [done|].
    by destruct (pickle_dump P obj f fs2) as [fs3 [|[]]].
  Qed.

Lemma versioned_get_asset self ctx fs :
    VersionedPickledObjectFilesystemAssetStore.get_asset P self ctx fs =
    match VersionedPickledObjectFilesystemAssetStore._get_path self ctx with
    | inl e => (fs, inl e)
    | inr filepath => load_pickle P filepath fs
    end.
  Proof.
    unfold VersionedPickledObjectFilesystemAssetStore.get_asset, bind, lift.
    by destruct (VersionedPickledObjectFilesystemAssetStore._get_path self ctx).
  Qed.

Lemma versioned_has_asset self ctx fs :
    VersionedPickledObjectFilesystemAssetStore.has_asset self ctx fs =
    match VersionedPickledObjectFilesystemAssetStore._get_path self ctx with
    | inl e => (fs, inl e)
    | inr filepath =>
        (fs, inr (os_path_exists fs filepath && negb (os_path_isdir fs filepath)))
    end.
  Proof.
    unfold VersionedPickledObjectFilesystemAssetStore.has_asset, bind, lift.
    by destruct (VersionedPickledObjectFilesystemAssetStore._get_path self ctx).
  Qed.

  (** The path of the explicit-path store: the metadata check, then the join. *)
Definition custom_filepath (self : CustomPathPickledObjectFilesystemAssetStore.t)
      (ctx : AssetStoreContext) : error + string :=
    match check.str_param (dict_get (asset_metadata ctx) "path") "asset_metadata.path" with
    | inl e => inl e
    | inr path => CustomPathPickledObjectFilesystemAssetStore._get_path self path
    end.

Definition custom_materialization (ctx : AssetStoreContext) (filepath : string)
      (fs : filesystem) : option AssetMaterialization :=
    Some {| asset_key := mkAssetKey [pipeline_name ctx; step_key ctx; output_name ctx];
            metadata_entries := [fspath (os_path_abspath fs filepath)] |}.

Lemma custom_set_asset self ctx obj fs :
    CustomPathPickledObjectFilesystemAssetStore.set_asset P self ctx obj fs =
    match custom_filepath self ctx with
    | inl e => (fs, inl e)
    | inr filepath =>
        finish (store_pickle P filepath obj fs) (custom_materialization ctx filepath)
    end.
  Proof.
    unfold CustomPathPickledObjectFilesystemAssetStore.set_asset, custom_filepath,
      store_pickle, finish, bind, lift, ret, get_state.
    destruct (check.str_param _ _) as [e|path]; [done|].
    destruct (CustomPathPickledObjectFilesystemAssetStore._get_path self path)
      as [e|filepath]; [done|].
    destruct (mkdir_p _ fs) as [fs1 [|[]]]; [done|].
    destruct (open_ _ _ fs1) as [fs2 [|f]]; [done|].
    by destruct (pickle_dump P obj f fs2) as [fs3 [|[]]].
  Qed.

Lemma custom_get_asset self ctx fs :
    CustomPathPickledObjectFilesystemAssetStore.get_asset P self ctx fs =
    match custom_filepath self ctx with
    | inl e => (fs, inl e)
    | inr filepath => load_pickle P filepath fs
    end.
  Proof.
    unfold CustomPathPickledObjectFilesystemAssetStore.get_asset, custom_filepath,
      bind, lift.
    destruct (check.str_param _ _) as [e|path]; [done|].
    by destruct (CustomPathPickledObjectFilesystemAssetStore._get_path self path).
  Qed.

Lemma finish_inr {A} res (k : filesystem → A) fs' a :
    finish res k = (fs', inr a) ↔ res = (fs', inr ()) ∧ a = k fs'.
  Proof.
    unfold finish. destruct res as [fs1 [e|[]]]; split; try done.
    - by intros [[=] _].
    - by intros [= <- <-].
    - by intros [[= <-] ->].
  Qed.

Lemma finish_fst {A} (res : filesystem * (error + unit)) (k : filesystem → A) :
    (finish res k).1 = res.1.
  Proof. by destruct res as [fs [|[]]]. Qed.
End unfold.

(** ** The toy serializer round-trips *)

Lemma toy_round_trips : round_trips toy_pickle.
Proof.
  intros v b. destruct v as [|s|z|[]]; simpl; intros [= <-]; try done.
  - simpl. by rewrite string_of_list_byte_of_string.
  - case_bool_decide; simpl; rewrite length_replicate; f_equal; f_equal; lia.
Qed.

(** * The properties *)

(** ** Round trip *)

(** A store obeys the round-trip law when a value written by a [set_asset]
    that returned is what [get_asset] returns for the same context. *)
Definition round_trip_law {Self St V} (store : AssetStore Self St V) : Prop :=
  ∀ self ctx v s s' r,
    set_asset self ctx v s = (s', inr r) → get_asset self ctx s' = (s', inr v).

Lemma in_memory_round_trip {V} : round_trip_law (@InMemoryAssetStore_store V).
Proof.
  intros [] ctx v s s' r. simpl.
  unfold InMemoryAssetStore.set_asset, InMemoryAssetStore.get_asset.
  intros [= <- _]. simpl. by rewrite lookup_insert_eq.
Qed.

Section round_trip.
Context {V : Type} (P : Pickler V) (Hrt : round_trips P).

Lemma run_scoped_round_trip : round_trip_law (PickledObjectFilesystemAssetStore_store P).
  Proof.
    intros self ctx v fs fs' r. simpl.
    rewrite run_scoped_set_asset, run_scoped_get_asset.
    destruct (PickledObjectFilesystemAssetStore._get_path self ctx); [done|].
    intros [Hst _]%finish_inr. by eapply load_store_pickle.
  Qed.

Lemma custom_round_trip :
    round_trip_law (CustomPathPickledObjectFilesystemAssetStore_store P).
  Proof.
    intros self ctx v fs fs' r. simpl.
    rewrite custom_set_asset, custom_get_asset.
    destruct (custom_filepath self ctx); [done|].
    intros [Hst _]%finish_inr. by eapply load_store_pickle.
  Qed.

Lemma versioned_round_trip :
    round_trip_law (VersionedPickledObjectFilesystemAssetStore_store P).(versioned_store).
  Proof.
    intros self ctx v fs fs' r. simpl.
    rewrite versioned_set_asset, versioned_get_asset.
    destruct (VersionedPickledObjectFilesystemAssetStore._get_path self ctx); [done|].
    intros [Hst _]%finish_inr. by eapply load_store_pickle.
  Qed.
End round_trip.

Definition ctx_r1 : AssetStoreContext :=
  AssetStoreContext_new "a" "result" None "pipe" {| solid_name := "a" |} (Some "r1") None.

Definition store_tmp_x : PickledObjectFilesystemAssetStore.t :=
  {| PickledObjectFilesystemAssetStore.base_dir := Some "/tmp/x" |}.

(** ** Addressing *)

Lemma versioned_get_path_Some self ctx v :
  version ctx = Some v →
  VersionedPickledObjectFilesystemAssetStore._get_path self ctx =
  os_path_join (VersionedPickledObjectFilesystemAssetStore.base_dir self)
    [Some (step_key ctx); Some (output_name ctx); Some v].
Proof.
  intros Hv. unfold VersionedPickledObjectFilesystemAssetStore._get_path. by rewrite Hv.
Qed.

Lemma versioned_get_path_None self ctx :
  version ctx = None →
  VersionedPickledObjectFilesystemAssetStore._get_path self ctx =
  inl (CheckError "context.version").
Proof.
  intros Hv. unfold VersionedPickledObjectFilesystemAssetStore._get_path. by rewrite Hv.
Qed.

(** C5. The version-scoped store computes its path as
    [join(base_dir, step_key, output_name, version)], and two contexts with
    the same step key, output name and version get the same path, whatever
    their run ids and pipeline names are. *)
Theorem C5_versioned_path_ignores_run
    (self : VersionedPickledObjectFilesystemAssetStore.t) (c1 c2 : AssetStoreContext) :
  step_key c1 = step_key c2 →
  output_name c1 = output_name c2 →
  version c1 = version c2 →
  VersionedPickledObjectFilesystemAssetStore._get_path self c1 =
  VersionedPickledObjectFilesystemAssetStore._get_path self c2 ∧
  ∀ v, version c1 = Some v →
    VersionedPickledObjectFilesystemAssetStore._get_path self c2 =
    os_path_join (VersionedPickledObjectFilesystemAssetStore.base_dir self)
      [Some (step_key c1); Some (output_name c1); Some v].
Proof.
  intros Hs Ho Hv. split.
  - unfold VersionedPickledObjectFilesystemAssetStore._get_path. by rewrite Hs, Ho, Hv.
  - intros v Hv1. rewrite Hs, Ho. apply versioned_get_path_Some. congruence.
Qed.

Definition ctx_v7 (run : option string) (pipeline : string) : AssetStoreContext :=
  AssetStoreContext_new "s" "out" None pipeline {| solid_name := "s" |} run (Some "v7").

Definition versioned_store_cache : VersionedPickledObjectFilesystemAssetStore.t :=
  {| VersionedPickledObjectFilesystemAssetStore.base_dir := Some "/cache" |}.

Lemma C5_versioned_path_witness :
  VersionedPickledObjectFilesystemAssetStore._get_path versioned_store_cache
    (ctx_v7 (Some "run-1") "pipe_a") = inr "/cache/s/out/v7" ∧
  VersionedPickledObjectFilesystemAssetStore._get_path versioned_store_cache
    (ctx_v7 None "pipe_b") = inr "/cache/s/out/v7".
Proof.
  destruct (C5_versioned_path_ignores_run versioned_store_cache
              (ctx_v7 (Some "run-1") "pipe_a") (ctx_v7 None "pipe_b")
              eq_refl eq_refl eq_refl) as [Heq Hjoin].
  split; [rewrite Heq|]; apply (Hjoin "v7" eq_refl).
Defined.

(** ** Missing metadata *)

Lemma custom_filepath_absent self ctx :
  asset_metadata ctx !! "path" = None →
  custom_filepath self ctx = inl (CheckError "asset_metadata.path").
Proof. intros Hp. unfold custom_filepath, dict_get. by rewrite Hp. Qed.

(** C6. Without ["path"] in [asset_metadata] the explicit-path store's
    [set_asset] and [get_asset] raise the check error of
    [check.str_param(..., "asset_metadata.path")]; without a version, every
    operation of the version-scoped store raises the check error of
    [check.str_param(context.version, "context.version")].  Nothing is
    written in either case. *)
Theorem C6_missing_metadata_raises {V} (P : Pickler V) (ctx : AssetStoreContext) :
  (asset_metadata ctx !! "path" = None →
   ∀ self obj fs,
     CustomPathPickledObjectFilesystemAssetStore.set_asset P self ctx obj fs
       = (fs, inl (CheckError "asset_metadata.path")) ∧
     CustomPathPickledObjectFilesystemAssetStore.get_asset P self ctx fs
       = (fs, inl (CheckError "asset_metadata.path"))) ∧
  (version ctx = None →
   ∀ self obj fs,
     VersionedPickledObjectFilesystemAssetStore.set_asset P self ctx obj fs
       = (fs, inl (CheckError "context.version")) ∧
     VersionedPickledObjectFilesystemAssetStore.get_asset P self ctx fs
       = (fs, inl (CheckError "context.version")) ∧
     VersionedPickledObjectFilesystemAssetStore.has_asset self ctx fs
       = (fs, inl (CheckError "context.version"))).
Proof.
  split.
  - intros Hp self obj fs.
    by rewrite custom_set_asset, custom_get_asset, custom_filepath_absent.
  - intros Hv self obj fs.
    by rewrite versioned_set_asset, versioned_get_asset, versioned_has_asset,
      versioned_get_path_None.
Qed.

Definition custom_store_data : CustomPathPickledObjectFilesystemAssetStore.t :=
  {| CustomPathPickledObjectFilesystemAssetStore.base_dir := Some "/data" |}.

Lemma C6_missing_metadata_witness :
  (asset_metadata ctx_r1 !! "path" = None ∧
   CustomPathPickledObjectFilesystemAssetStore.set_asset toy_pickle
     custom_store_data ctx_r1 (PyInt 1) empty_fs
   = (empty_fs, inl (CheckError "asset_metadata.path"))) ∧
  (version ctx_r1 = None ∧
   VersionedPickledObjectFilesystemAssetStore.has_asset
     versioned_store_cache ctx_r1 empty_fs
   = (empty_fs, inl (CheckError "context.version"))).
Proof.
  destruct (C6_missing_metadata_raises toy_pickle ctx_r1) as [Hpath Hversion].
  split; (split; [reflexivity|]).
  - apply (Hpath eq_refl custom_store_data (PyInt 1) empty_fs).
  - apply (Hversion eq_refl versioned_store_cache (PyInt 1) empty_fs).
Defined.

(** ** The two construction paths *)

(** The storage keys of the four backends, as functions of the context. *)
Definition in_memory_key (ctx : AssetStoreContext) : list (option string) :=
  get_run_scoped_output_identifier ctx.

Definition oc_producer : OutputContext.t :=
  {| OutputContext.step_key := "return_one.compute";
     OutputContext.name := "result";
     OutputContext.metadata := None;
     OutputContext.pipeline_name := "basic_external_plan_execution";
     OutputContext.solid_def := {| solid_name := "return_one" |};
     OutputContext.run_id := Some "r1";
     OutputContext.version := None |}.

Definition lc_consumer : InputContext.t :=
  {| InputContext.upstream_output := oc_producer;
     InputContext.solid_def := {| solid_name := "add_one" |} |}.

(** C8, as stated, fails: for the output of [return_one] loaded by [add_one],
    the context built on the load path carries the solid definition of
    [add_one], the one built on the output path that of [return_one]. *)
Lemma C8_contexts_differ_counterexample :
  InputContext.upstream_output lc_consumer = oc_producer ∧
  from_load_context lc_consumer ≠ from_output_context oc_producer.
Proof. split; [reflexivity|]. intros [=]. Qed.

(** C8, amended.  For a load context and its upstream output, the two
    construction paths agree on every field except [solid_def], which is the
    producing solid's on the output path and the consuming solid's on the
    load path; the key of every backend (the run-scoped identifier, the
    run-scoped path, the explicit path taken from the metadata, the
    version-scoped path) is therefore the same on both sides, and the two
    contexts are equal exactly when the two solid definitions are. *)
Theorem C8_construction_paths_agree_on_keys (load_context : InputContext.t) :
  let output_context := InputContext.upstream_output load_context in
  let w := from_output_context output_context in
  let r := from_load_context load_context in
  (step_key r = step_key w ∧ output_name r = output_name w ∧
   asset_metadata r = asset_metadata w ∧ pipeline_name r = pipeline_name w ∧
   source_run_id r = source_run_id w ∧ version r = version w) ∧
  (solid_def w = OutputContext.solid_def output_context ∧
   solid_def r = InputContext.solid_def load_context) ∧
  (get_run_scoped_output_identifier r = get_run_scoped_output_identifier w ∧
   (∀ self, PickledObjectFilesystemAssetStore._get_path self r =
            PickledObjectFilesystemAssetStore._get_path self w) ∧
   (∀ self, custom_filepath self r = custom_filepath self w) ∧
   (∀ self, VersionedPickledObjectFilesystemAssetStore._get_path self r =
            VersionedPickledObjectFilesystemAssetStore._get_path self w)) ∧
  (r = w ↔ InputContext.solid_def load_context = OutputContext.solid_def output_context).
Proof.
  destruct load_context as [[sk n md pn sd rid ver] sd']. simpl.
  split_and!; try done.
  unfold from_load_context, from_output_context, AssetStoreContext_new. simpl.
  split; [by intros [=]|by intros ->].
Qed.

(** ** What [set_asset] returns *)

(** C9. When [set_asset] returns, the explicit-path store returns an
    [AssetMaterialization] whose only metadata entry is
    [fspath(os.path.abspath(filepath))] for
    [filepath = join(base_dir, asset_metadata["path"])]; the in-memory, the
    run-scoped and the version-scoped store return [None]. *)
Theorem C9_only_custom_path_materializes {V} (P : Pickler V)
    (ctx : AssetStoreContext) (obj : V) :
  (∀ self fs fs' r,
     CustomPathPickledObjectFilesystemAssetStore.set_asset P self ctx obj fs = (fs', inr r) →
     ∃ path filepath,
       dict_get (asset_metadata ctx) "path" = PyStr path ∧
       os_path_join (CustomPathPickledObjectFilesystemAssetStore.base_dir self) [Some path]
         = inr filepath ∧
       r = Some {| asset_key :=
                     mkAssetKey [pipeline_name ctx; step_key ctx; output_name ctx];
                   metadata_entries := [fspath (os_path_abspath fs' filepath)] |}) ∧
  (∀ (st st' : InMemoryAssetStore.t V) r,
     InMemoryAssetStore.set_asset ctx obj st = (st', inr r) → r = None) ∧
  (∀ self fs fs' r,
     PickledObjectFilesystemAssetStore.set_asset P self ctx obj fs = (fs', inr r) →
     r = None) ∧
  (∀ self fs fs' r,
     VersionedPickledObjectFilesystemAssetStore.set_asset P self ctx obj fs = (fs', inr r) →
     r = None).
Proof.
  split_and!.
  - intros self fs fs' r. rewrite custom_set_asset. unfold custom_filepath.
    destruct (dict_get (asset_metadata ctx) "path") as [|path| |] eqn:Hpath; try done.
    simpl. unfold CustomPathPickledObjectFilesystemAssetStore._get_path.
    destruct (os_path_join _ _) as [e|filepath] eqn:Hjoin; [done|].
    intros [_ ->]%finish_inr. by exists path, filepath.
  - intros st st' r. unfold InMemoryAssetStore.set_asset. by intros [= _ <-].
  - intros self fs fs' r. rewrite run_scoped_set_asset.
    destruct (PickledObjectFilesystemAssetStore._get_path self ctx); [done|].
    by intros [_ ->]%finish_inr.
  - intros self fs fs' r. rewrite versioned_set_asset.
    destruct (VersionedPickledObjectFilesystemAssetStore._get_path self ctx); [done|].
    by intros [_ ->]%finish_inr.
Qed.

Definition ctx_report : AssetStoreContext :=
  AssetStoreContext_new "s.compute" "result" (Some {[ "path" := PyStr "reports/out.bin" ]})
    "pipe" {| solid_name := "s" |} (Some "r1") None.

(** A machine whose working directory is [/home/u]. *)
Definition home_fs : filesystem :=
  {| nodes := {[ ["home"] := Dir; ["u"; "home"] := Dir ]}; cwd := ["u"; "home"] |}.

Definition custom_store_dot : CustomPathPickledObjectFilesystemAssetStore.t :=
  {| CustomPathPickledObjectFilesystemAssetStore.base_dir := Some "." |}.

Lemma C9_only_custom_path_materializes_witness :
  (CustomPathPickledObjectFilesystemAssetStore.set_asset toy_pickle
     custom_store_data ctx_report (PyInt 1) home_fs).2
  = inr (Some {| asset_key := mkAssetKey ["pipe"; "s.compute"; "result"];
                 metadata_entries := [fspath "/data/reports/out.bin"] |}) ∧
  (CustomPathPickledObjectFilesystemAssetStore.set_asset toy_pickle
     custom_store_dot ctx_report (PyInt 1) home_fs).2
  = inr (Some {| asset_key := mkAssetKey ["pipe"; "s.compute"; "result"];
                 metadata_entries := [fspath "/home/u/reports/out.bin"] |}) ∧
  (PickledObjectFilesystemAssetStore.set_asset toy_pickle
     store_tmp_x ctx_report (PyInt 1) home_fs).2 = inr None.
Proof.
  destruct (C9_only_custom_path_materializes toy_pickle ctx_report (PyInt 1))
    as (Hcustom & _ & Hrun & _).
  split_and!.
  - destruct (CustomPathPickledObjectFilesystemAssetStore.set_asset toy_pickle
                custom_store_data ctx_report (PyInt 1) home_fs) as [fs' [e|r]] eqn:Hset;
      [by vm_compute in Hset|].
    destruct (Hcustom _ _ _ _ Hset) as (path & filepath & Hpath & Hjoin & ->).
    vm_compute in Hpath. injection Hpath as <-.
    vm_compute in Hjoin. injection Hjoin as <-.
    apply (f_equal fst) in Hset. simpl in Hset. subst fs'.
    vm_compute. reflexivity.
  - destruct (CustomPathPickledObjectFilesystemAssetStore.set_asset toy_pickle
                custom_store_dot ctx_report (PyInt 1) home_fs) as [fs' [e|r]] eqn:Hset;
      [by vm_compute in Hset|].
    destruct (Hcustom _ _ _ _ Hset) as (path & filepath & Hpath & Hjoin & ->).
    vm_compute in Hpath. injection Hpath as <-.
    vm_compute in Hjoin. injection Hjoin as <-.
    apply (f_equal fst) in Hset. simpl in Hset. subst fs'.
    vm_compute. reflexivity.
  - destruct (PickledObjectFilesystemAssetStore.set_asset toy_pickle
                store_tmp_x ctx_report (PyInt 1) home_fs) as [fs' [e|r]] eqn:Hset;
      [by vm_compute in Hset|].
    simpl. f_equal. by eapply Hrun.
Defined.

(** ** Keys of the in-memory and the run-scoped store *)

Lemma identifier_eq (c1 c2 : AssetStoreContext) :
  source_run_id c1 = source_run_id c2 →
  step_key c1 = step_key c2 →
  output_name c1 = output_name c2 →
  get_run_scoped_output_identifier c1 = get_run_scoped_output_identifier c2.
Proof. unfold get_run_scoped_output_identifier. by intros -> -> ->. Qed.

Lemma run_scoped_get_path_eq self (c1 c2 : AssetStoreContext) :
  get_run_scoped_output_identifier c1 = get_run_scoped_output_identifier c2 →
  PickledObjectFilesystemAssetStore._get_path self c1 =
  PickledObjectFilesystemAssetStore._get_path self c2.
Proof. unfold PickledObjectFilesystemAssetStore._get_path. by intros ->. Qed.

Definition ctx_r1_other : AssetStoreContext :=
  AssetStoreContext_new "a" "result" (Some {[ "path" := PyStr "elsewhere" ]}) "other_pipe"
    {| solid_name := "b" |} (Some "r1") (Some "v7").

(** ** Path strings made of plain segments *)

(** A plain path segment: a name that resolution goes down into; not empty,
    not ["."] or [".."], and free of separators. *)
Definition is_segment (s : string) : bool :=
  negb (has_sep s) && negb (bool_decide (s = "" ∨ s = "." ∨ s = "..")).

Lemma is_segment_spec s :
  is_segment s = true ↔ has_sep s = false ∧ s ≠ "" ∧ s ≠ "." ∧ s ≠ "..".
Proof.
  unfold is_segment. rewrite andb_true_iff, !negb_true_iff, bool_decide_eq_false.
  tauto.
Qed.

Lemma enter_segment cur s : is_segment s = true → enter cur s = s :: cur.
Proof.
  intros (_ & ? & ? & ?)%is_segment_spec. unfold enter.
  rewrite bool_decide_false by (by intros [?|?]). by rewrite bool_decide_false.
Qed.

Lemma segment_not_startswith_sep s : has_sep s = false → startswith_sep s = false.
Proof. destruct s as [|c s]; [done|]. simpl. by intros [? _]%orb_false_iff. Qed.

Lemma string_app_nil_l (b : string) : "" +:+ b = b.
Proof. done. Qed.

Lemma string_app_cons c (a b : string) : String c a +:+ b = String c (a +:+ b).
Proof. done. Qed.

Lemma split_sep_nonempty s : split_sep s ≠ [].
Proof.
  destruct s as [|c s]; [done|]. simpl. destruct (is_sep c); [done|].
  by destruct (split_sep s).
Qed.

Lemma split_sep_no_sep s : has_sep s = false → split_sep s = [s].
Proof.
  induction s as [|c s IH]; [done|]. simpl. intros [-> Hs]%orb_false_iff.
  by rewrite (IH Hs).
Qed.

Lemma split_sep_app_sep a b :
  split_sep (a +:+ "/" +:+ b) = (split_sep a ++ split_sep b)%list.
Proof.
  induction a as [|c a IH]; [done|]. rewrite string_app_cons. simpl.
  destruct (is_sep c); rewrite IH; [done|].
  pose proof (split_sep_nonempty a). by destruct (split_sep a).
Qed.

Lemma split_sep_trailing a : split_sep (a +:+ "/") = (split_sep a ++ [""])%list.
Proof. apply (split_sep_app_sep a ""). Qed.

Lemma endswith_sep_inv s : endswith_sep s = true → ∃ s', s = s' +:+ "/".
Proof.
  induction s as [|c s IH]; [done|]. simpl. destruct s as [|c' s].
  - intros Hc. exists "". unfold is_sep in Hc. apply bool_decide_eq_true in Hc.
    by rewrite Hc.
  - intros [s' Hs']%IH. exists (String c s'). by rewrite Hs'.
Qed.

Lemma endswith_sep_app a b : b ≠ "" → endswith_sep (a +:+ b) = endswith_sep b.
Proof.
  intros Hb. induction a as [|c a IH]; [done|]. rewrite string_app_cons. simpl.
  destruct (a +:+ b) eqn:Hab; [|done]. destruct a, b; done.
Qed.

Lemma endswith_sep_no_sep s : has_sep s = false → endswith_sep s = false.
Proof.
  induction s as [|c s IH]; [done|]. simpl. intros [Hc Hs]%orb_false_iff.
  destruct s; [done|]. by apply IH.
Qed.

Lemma startswith_sep_app a b : a ≠ "" → startswith_sep (a +:+ b) = startswith_sep a.
Proof. by destruct a. Qed.

Lemma string_app_assoc (a b c : string) : (a +:+ b) +:+ c = a +:+ (b +:+ c).
Proof. induction a as [|x a IH]; [done|]. rewrite !string_app_cons. by f_equal. Qed.

Lemma lexical_app cur l1 l2 :
  lexical cur (l1 ++ l2)%list = lexical (lexical cur l1) l2.
Proof. apply foldl_app. Qed.

(** What [join] does with a plain segment, as a string ... *)
Lemma join_step_segment path b :
  is_segment b = true →
  join_step path b =
  if bool_decide (path = "") || endswith_sep path then path +:+ b
  else path +:+ "/" +:+ b.
Proof.
  intros (Hb & _)%is_segment_spec. unfold join_step.
  by rewrite segment_not_startswith_sep.
Qed.

Lemma join_step_segment_shape path b :
  is_segment b = true →
  join_step path b ≠ "" ∧ endswith_sep (join_step path b) = false.
Proof.
  intros Hseg. rewrite (join_step_segment _ _ Hseg).
  apply is_segment_spec in Hseg as (Hb & Hne & _).
  destruct (_ || _); split.
  - destruct path, b; done.
  - rewrite endswith_sep_app by done. by apply endswith_sep_no_sep.
  - by destruct path.
  - rewrite endswith_sep_app by done. simpl. destruct b; [done|].
    by apply (endswith_sep_no_sep (String _ _)).
Qed.

(** ... and as a location: one step down from where the path led. *)
Lemma site_join_segment fs path b :
  is_segment b = true → site fs (join_step path b) = b :: site fs path.
Proof.
  intros Hseg. rewrite (join_step_segment _ _ Hseg).
  pose proof Hseg as (Hb & Hne & _)%is_segment_spec. unfold site, start.
  case_bool_decide as Hpath; simpl.
  - subst path. simpl. rewrite segment_not_startswith_sep, split_sep_no_sep by done.
    simpl. by rewrite enter_segment.
  - destruct (endswith_sep path) eqn:Hend.
    + apply endswith_sep_inv in Hend as [p' ->].
      rewrite string_app_assoc.
      assert (startswith_sep (p' +:+ "/" +:+ b) = startswith_sep (p' +:+ "/")) as ->
        by (by destruct p').
      rewrite split_sep_app_sep, split_sep_trailing, (split_sep_no_sep b) by done.
      rewrite !lexical_app. simpl. rewrite enter_segment by done. done.
    + rewrite startswith_sep_app by done. simpl.
      rewrite split_sep_app_sep, (split_sep_no_sep b), lexical_app by done.
      simpl. by rewrite enter_segment.
Qed.

(** [join(base, a, b, c)] with three plain segments. *)
Lemma join_three base a b c :
  os_path_join (Some base) [Some a; Some b; Some c] =
  inr (join_step (join_step (join_step base a) b) c).
Proof. done. Qed.

Lemma site_join_three fs base a b c :
  is_segment a = true → is_segment b = true → is_segment c = true →
  site fs (join_step (join_step (join_step base a) b) c) = c :: b :: a :: site fs base.
Proof. intros Ha Hb Hc. by rewrite !site_join_segment. Qed.

Lemma join_three_string base a b c :
  base ≠ "" → endswith_sep base = false →
  is_segment a = true → is_segment b = true → is_segment c = true →
  join_step (join_step (join_step base a) b) c
  = base +:+ "/" +:+ a +:+ "/" +:+ b +:+ "/" +:+ c.
Proof.
  intros Hne Hend Ha Hb Hc.
  destruct (join_step_segment_shape base a Ha) as [Hne1 Hend1].
  destruct (join_step_segment_shape (join_step base a) b Hb) as [Hne2 Hend2].
  rewrite (join_step_segment _ c Hc), Hend2, bool_decide_false by done. simpl.
  rewrite (join_step_segment _ b Hb), Hend1, bool_decide_false by done. simpl.
  rewrite (join_step_segment _ a Ha), Hend, bool_decide_false by done. simpl.
  by rewrite !string_app_assoc.
Qed.

(** ** The path of the run-scoped store *)

Lemma run_scoped_get_path self ctx base run :
  PickledObjectFilesystemAssetStore.base_dir self = Some base →
  source_run_id ctx = Some run →
  PickledObjectFilesystemAssetStore._get_path self ctx =
  inr (join_step (join_step (join_step base run) (step_key ctx)) (output_name ctx)).
Proof.
  intros Hb Hr.
  unfold PickledObjectFilesystemAssetStore._get_path, get_run_scoped_output_identifier.
  by rewrite Hb, Hr.
Qed.

(** ** Key isolation *)

(** The identifier fields of a context are plain path segments. *)
Definition run_scoped_plain (ctx : AssetStoreContext) : bool :=
  match source_run_id ctx with
  | Some run => is_segment run
  | None => false
  end && is_segment (step_key ctx) && is_segment (output_name ctx).




Section isolation.
Context {V : Type} (P : Pickler V) (Hrt : round_trips P).


End isolation.






Definition ctx_r1_b : AssetStoreContext :=
  AssetStoreContext_new "b" "result" None "pipe" {| solid_name := "b" |} (Some "r1") None.


(** ** More on path strings: [dirname] of a joined path *)

Lemma has_sep_app_sep a b : has_sep (a +:+ "/" +:+ b) = true.
Proof.
  induction a as [|x a IH]; [done|]. rewrite (string_app_cons x a). simpl. rewrite IH.
  by destruct (is_sep x).
Qed.

Lemma upto_last_sep_app a b :
  has_sep b = false → upto_last_sep (a +:+ "/" +:+ b) = a +:+ "/".
Proof.
  intros Hb. induction a as [|x a IH].
  - change ("" +:+ "/" +:+ b) with (String sep b). simpl. by rewrite Hb.
  - rewrite !(string_app_cons x a). simpl. by rewrite has_sep_app_sep, IH.
Qed.

Lemma rstrip_sep_trailing a : rstrip_sep (a +:+ "/") = rstrip_sep a.
Proof.
  induction a as [|x a IH]; [done|]. rewrite (string_app_cons x a). simpl. by rewrite IH.
Qed.

Lemma rstrip_sep_id a : endswith_sep a = false → rstrip_sep a = a.
Proof.
  induction a as [|x a IH]; [done|]. simpl. destruct a as [|y a].
  - simpl. by intros ->.
  - intros Hend. rewrite (IH Hend). done.
Qed.

Lemma all_sep_endswith a : all_sep a = true → a ≠ "" → endswith_sep a = true.
Proof.
  induction a as [|x a IH]; [done|]. simpl. intros [Hx Ha]%andb_true_iff _.
  destruct a; [done|]. by apply IH.
Qed.

Lemma all_sep_app a b : all_sep (a +:+ b) = all_sep a && all_sep b.
Proof.
  induction a as [|x a IH]; [done|]. rewrite (string_app_cons x a). simpl.
  by rewrite IH, andb_assoc.
Qed.

(** [dirname(a + "/" + b)] is [a], for [a] not empty and not ending with a
    separator and [b] free of separators. *)
Lemma dirname_app_sep a b :
  a ≠ "" → endswith_sep a = false → has_sep b = false →
  os_path_dirname (a +:+ "/" +:+ b) = a.
Proof.
  intros Hne Hend Hb. unfold os_path_dirname. rewrite upto_last_sep_app by done.
  rewrite all_sep_app.
  destruct (all_sep a) eqn:Hall.
  { by rewrite (all_sep_endswith a Hall Hne) in Hend. }
  rewrite bool_decide_true by (by destruct a). simpl.
  by rewrite rstrip_sep_trailing, rstrip_sep_id.
Qed.

Lemma join_step_app_sep path b :
  path ≠ "" → endswith_sep path = false → is_segment b = true →
  join_step path b = path +:+ "/" +:+ b.
Proof.
  intros Hne Hend Hb. rewrite join_step_segment by done.
  by rewrite Hend, bool_decide_false.
Qed.

(** ** Locations visited by resolution *)

(** The locations the resolution of a path string passes through, from where
    it starts to where it ends. *)
Definition visits (fs : filesystem) (path : string) (q : loc) : Prop :=
  ∃ l1 l2, split_sep path = (l1 ++ l2)%list ∧ q = lexical (start fs path) l1.

Lemma visits_site fs path : visits fs path (site fs path).
Proof. exists (split_sep path), []. by rewrite app_nil_r. Qed.

Lemma prefix_snoc {A} (l1 l2 l : list A) (x : A) :
  (l ++ [x] = l1 ++ l2)%list →
  (l2 = [] ∧ l1 = (l ++ [x])%list) ∨ ∃ l2', l = (l1 ++ l2')%list.
Proof.
  intros H. destruct l2 as [|y l2 _] using rev_ind;
    [left; by rewrite app_nil_r in H|right].
  rewrite List.app_assoc in H. apply app_inj_tail in H as [-> _]. eauto.
Qed.

Lemma visits_join_segment fs path b q :
  is_segment b = true →
  visits fs (join_step path b) q → visits fs path q ∨ q = b :: site fs path.
Proof.
  intros Hseg. pose proof (site_join_segment fs path b Hseg) as Hsite.
  pose proof Hseg as (Hb & Hne & _)%is_segment_spec.
  intros (l1 & l2 & Hsplit & ->). revert Hsite Hsplit.
  rewrite (join_step_segment _ _ Hseg). unfold site, start.
  case_bool_decide as Hpath; simpl.
  - subst path. rewrite string_app_nil_l, segment_not_startswith_sep by done.
    rewrite (split_sep_no_sep b) by done. simpl. intros Hsite Hsplit.
    destruct l1 as [|x l1].
    + left. by exists [], [""].
    + right. destruct l1; [|by destruct l1]. by simplify_eq/=.
  - destruct (endswith_sep path) eqn:Hend.
    + apply endswith_sep_inv in Hend as [p' ->].
      rewrite string_app_assoc.
      assert (startswith_sep (p' +:+ "/" +:+ b) = startswith_sep (p' +:+ "/")) as ->
        by (by destruct p').
      rewrite split_sep_app_sep, split_sep_trailing, (split_sep_no_sep b) by done.
      intros Hsite [[-> ->]|[l2' Hl]]%prefix_snoc.
      * by right.
      * left. exists l1, (l2' ++ [""])%list.
        by rewrite split_sep_trailing, Hl, List.app_assoc.
    + rewrite startswith_sep_app by done.
      rewrite split_sep_app_sep, (split_sep_no_sep b) by done.
      intros Hsite [[-> ->]|[l2' Hl]]%prefix_snoc.
      * by right.
      * left. by exists l1, l2'.
Qed.

(** A path without [".."] only goes down. *)
Definition no_dotdot (path : string) : bool :=
  forallb (λ c, negb (bool_decide (c = ".."))) (split_sep path).

Lemma enter_length (cur : loc) c :
  c ≠ ".." → (List.length cur ≤ List.length (enter cur c))%nat.
Proof.
  intros Hc. unfold enter. repeat case_bool_decide; simpl; try done; lia.
Qed.

Lemma lexical_length cur comps :
  forallb (λ c, negb (bool_decide (c = ".."))) comps = true →
  (List.length cur ≤ List.length (lexical cur comps))%nat.
Proof.
  revert cur. induction comps as [|c comps IH]; intros cur; simpl; [done|].
  intros [Hc Hcomps]%andb_true_iff.
  apply negb_true_iff, bool_decide_eq_false in Hc.
  etrans; [by apply enter_length|]. by apply IH.
Qed.

Lemma visits_no_dotdot fs path q :
  no_dotdot path = true → visits fs path q →
  (List.length q ≤ List.length (site fs path))%nat.
Proof.
  unfold no_dotdot, site. intros Hnd (l1 & l2 & Hsplit & ->).
  rewrite Hsplit in *. rewrite lexical_app.
  apply lexical_length. rewrite forallb_app in Hnd. by apply andb_true_iff in Hnd as [_ ?].
Qed.

(** ** Where directories and files can appear *)

Lemma is_dir_put_dir p fs q :
  is_dir (put_node p Dir fs) q = true → is_dir fs q = true ∨ q = p.
Proof.
  destruct (decide (p = q)) as [->|Hne]; [by right|left].
  unfold is_dir in *. by rewrite node_at_put_ne in * by done.
Qed.

Lemma is_dir_put_file p d fs q :
  is_dir (put_node p (File d) fs) q = true → is_dir fs q = true.
Proof.
  unfold is_dir. destruct (decide (p = q)) as [->|Hne].
  - destruct q as [|c q]; [done|]. by rewrite node_at_put_eq.
  - by rewrite node_at_put_ne.
Qed.

(** [makedirs_walk] creates directories only at locations it passes. *)
Lemma makedirs_walk_dirs cur comps pos fs fs' r q :
  makedirs_walk cur comps pos fs = (fs', r) →
  is_dir fs' q = true →
  is_dir fs q = true ∨ ∃ l1 l2, comps = (l1 ++ l2)%list ∧ q = lexical cur l1.
Proof.
  revert cur pos fs. induction comps as [|c rest IH]; intros cur pos fs; simpl.
  - destruct (node_at fs cur) as [[]|]; intros [= <- <-]; auto.
  - destruct (has_nul c); [intros [= <- <-]; auto|].
    case_bool_decide; [intros [= <- <-]; auto|].
    destruct (node_at fs cur) as [[]|]; try (intros [= <- <-]; auto).
    destruct (too_long c); [intros [= <- <-]; auto|].
    destruct (node_at fs (enter cur c)) eqn:Hnext; intros Hw Hq.
    + destruct (IH _ _ _ Hw Hq) as [?|(l1 & l2 & Hrest & Hl)]; [by left|right].
      subst. by exists (c :: l1), l2.
    + destruct (IH _ _ _ Hw Hq) as [Hd|(l1 & l2 & Hrest & Hl)].
      * apply is_dir_put_dir in Hd as [?| ->]; [by left|right].
        by exists [c], rest.
      * right. subst. by exists (c :: l1), l2.
Qed.

Lemma mkdir_p_dirs path fs fs' r q :
  mkdir_p path fs = (fs', r) →
  is_dir fs' q = true → is_dir fs q = true ∨ visits fs path q.
Proof.
  unfold mkdir_p, visits. case_bool_decide.
  - intros [= <- <-]. auto.
  - intros Hw Hq. destruct (makedirs_walk_dirs _ _ _ _ _ _ _ Hw Hq); eauto.
Qed.

Section places.
Context {V : Type} (P : Pickler V).

(** [store_pickle] creates directories only on the way to the directory
    of the path. *)
Lemma store_pickle_dirs filepath obj fs fs' r q :
  store_pickle P filepath obj fs = (fs', r) →
  is_dir fs' q = true →
  is_dir fs q = true ∨ visits fs (os_path_dirname filepath) q.
Proof.
  unfold store_pickle, bind.
  destruct (mkdir_p _ fs) as [fs1 [e|[]]] eqn:Hmk.
  { intros [= <- <-]. by eapply mkdir_p_dirs. }
  destruct (open_ filepath wb fs1) as [fs2 [e|p]] eqn:Hopen;
    apply open_wb_spec in Hopen as [[-> [e' ?]]|(p' & ? & Hres & Hnd & ->)];
    simplify_eq.
  { intros [= <- <-]. by eapply mkdir_p_dirs. }
  unfold pickle_dump.
  destruct (dumps P obj); intros [= <- <-]; rewrite put_put;
    intros Hq%is_dir_put_file; by eapply mkdir_p_dirs.
Qed.
End places.

(** ** Stores that put their files three plain segments below the base *)

Abbreviation key3 := (string * string * string)%type.

Definition join3 (base : string) (k : key3) : string :=
  join_step (join_step (join_step base k.1.1) k.1.2) k.2.

Definition loc3 (B : loc) (k : key3) : loc := k.2 :: k.1.2 :: k.1.1 :: B.

Definition plain3 (k : key3) : bool :=
  is_segment k.1.1 && is_segment k.1.2 && is_segment k.2.

Definition below3 (B q : loc) : Prop := ∃ k, q = loc3 B k.

Lemma plain3_spec k :
  plain3 k = true ↔
  is_segment k.1.1 = true ∧ is_segment k.1.2 = true ∧ is_segment k.2 = true.
Proof. unfold plain3. rewrite !andb_true_iff. tauto. Qed.


Lemma site_join3 fs base k : plain3 k = true → site fs (join3 base k) = loc3 (site fs base) k.
Proof. intros (? & ? & ?)%plain3_spec. by apply site_join_three. Qed.

Lemma join3_unfold base k :
  plain3 k = true →
  let dir := join_step (join_step base k.1.1) k.1.2 in
  dir ≠ "" ∧ endswith_sep dir = false ∧
  join3 base k = dir +:+ "/" +:+ k.2 ∧ os_path_dirname (join3 base k) = dir.
Proof.
  intros (Ha & Hb & Hc)%plain3_spec dir.
  destruct (join_step_segment_shape (join_step base k.1.1) k.1.2 Hb) as [Hne Hend].
  fold dir in Hne, Hend. unfold join3. fold dir.
  rewrite (join_step_app_sep dir k.2 Hne Hend Hc). split_and!; [done..|].
  apply dirname_app_sep; [done..|]. by apply is_segment_spec in Hc as [? _].
Qed.

(** Resolving the directory of such a path passes only locations at most
    two levels below the base, when the base has no [".."]. *)
Lemma visits_dir3 fs base k q :
  plain3 k = true → no_dotdot base = true →
  visits fs (join_step (join_step base k.1.1) k.1.2) q →
  (List.length q ≤ 2 + List.length (site fs base))%nat.
Proof.
  intros (Ha & Hb & Hc)%plain3_spec Hnd
    [[Hq%visits_no_dotdot| ->]%visits_join_segment| ->]%visits_join_segment; try done.
  - lia.
  - simpl. lia.
  - rewrite site_join_segment by done. simpl. lia.
Qed.

Lemma below3_length B q : below3 B q → List.length q = (3 + List.length B)%nat.
Proof. by intros [k ->]. Qed.

(** ** Paths the operating system accepts *)

(** A path without a NUL byte, of fewer than [PATH_MAX] bytes, whose
    components have at most [NAME_MAX] bytes. *)
Definition accepted (path : string) : bool :=
  negb (has_nul path) && bool_decide (String.length path < PATH_MAX)%nat
  && forallb (λ c, negb (too_long c)) (split_sep path).

Lemma forallb_Forall {A} (f : A → bool) l : forallb f l = true ↔ Forall (λ x, f x = true) l.
Proof.
  induction l as [|x l IH]; simpl; [by split; [constructor|]|].
  rewrite andb_true_iff, Forall_cons. tauto.
Qed.

Lemma existsb_Forall_false {A} (f : A → bool) l :
  Forall (λ x, f x = false) l → existsb f l = false.
Proof. induction 1 as [|x l Hx _ IH]; [done|]. simpl. by rewrite Hx. Qed.

Lemma accepted_spec path :
  accepted path = true ↔
  has_nul path = false ∧ (String.length path < PATH_MAX)%nat ∧
  Forall (λ c, too_long c = false) (split_sep path).
Proof.
  unfold accepted.
  rewrite !andb_true_iff, negb_true_iff, bool_decide_eq_true, forallb_Forall.
  assert (Forall (λ c, negb (too_long c) = true) (split_sep path)
          ↔ Forall (λ c, too_long c = false) (split_sep path)) as ->; [|tauto].
  apply Forall_proper; [|done]. intros c. apply negb_true_iff.
Qed.

Lemma string_length_app a b :
  String.length (a +:+ b) = (String.length a + String.length b)%nat.
Proof. induction a as [|x a IH]; [done|]. rewrite string_app_cons. simpl. by rewrite IH. Qed.

Lemma has_nul_app a b : has_nul (a +:+ b) = has_nul a || has_nul b.
Proof.
  induction a as [|x a IH]; [done|]. rewrite string_app_cons. simpl.
  by rewrite IH, orb_assoc.
Qed.

Lemma join_sep_cons c rest : rest ≠ [] → join_sep (c :: rest) = c +:+ "/" +:+ join_sep rest.
Proof. by destruct rest. Qed.

Lemma is_sep_eq c : is_sep c = true → c = sep.
Proof. unfold is_sep. by intros ?%bool_decide_eq_true. Qed.

Lemma join_split_sep s : join_sep (split_sep s) = s.
Proof.
  induction s as [|x s IH]; [done|]. simpl. destruct (is_sep x) eqn:Hx.
  - rewrite join_sep_cons by apply split_sep_nonempty. rewrite IH.
    by rewrite (is_sep_eq x Hx).
  - pose proof (split_sep_nonempty s). destruct (split_sep s) as [|w ws]; [done|].
    rewrite <-IH. destruct ws as [|w' ws]; [done|].
    by rewrite !join_sep_cons, string_app_cons by done.
Qed.

Lemma has_nul_join_sep l : has_nul (join_sep l) = existsb has_nul l.
Proof.
  induction l as [|c l IH]; [done|]. destruct l as [|c' l].
  - simpl. by rewrite orb_false_r.
  - rewrite join_sep_cons, !has_nul_app, IH by done. done.
Qed.

Lemma has_nul_split_sep s :
  has_nul s = false → Forall (λ c, has_nul c = false) (split_sep s).
Proof.
  rewrite <-(join_split_sep s) at 1. rewrite has_nul_join_sep.
  induction (split_sep s) as [|c l IH]; simpl; [by constructor|].
  intros [? ?]%orb_false_iff. constructor; auto.
Qed.

(** The directory part of an accepted path is accepted. *)
Lemma accepted_app_sep a b : accepted (a +:+ "/" +:+ b) = true → accepted a = true.
Proof.
  rewrite !accepted_spec, !has_nul_app, !string_length_app, split_sep_app_sep.
  intros ([Ha _]%orb_false_iff & Hlen & [Hcomps _]%Forall_app). split_and!; [done| |done].
  lia.
Qed.

(** On an accepted path, resolution is the walk along its components. *)
Lemma resolve_accepted fs path :
  accepted path = true → path ≠ "" →
  resolve fs path = walk fs (start fs path) (split_sep path).
Proof.
  intros (Hnul & Hlen & _)%accepted_spec Hne. unfold resolve.
  rewrite Hnul, bool_decide_false, bool_decide_false by (done || lia). done.
Qed.


Section three_segments.
Context {V : Type} (P : Pickler V) (base : string).

(** Every file is the file of one of the keys [K] ... *)
Definition files_at (B : loc) (K : list key3) (fs : filesystem) : Prop :=
  ∀ q, is_file fs q = true → ∃ k, k ∈ K ∧ q = loc3 B k.

(** ... and no directory sits where the file of a key would be. *)
Definition no_dirs_at (B : loc) (fs : filesystem) : Prop :=
  ∀ q, below3 B q → is_dir fs q = false.

Lemma store3_site k v fs fs' r :
  store_pickle P (join3 base k) v fs = (fs', r) → site fs' base = site fs base.
Proof. intros Hst. apply site_extends. by eapply store_pickle_extends. Qed.

Lemma store3_files_at K k v fs fs' r :
  plain3 k = true →
  files_at (site fs base) K fs →
  store_pickle P (join3 base k) v fs = (fs', r) →
  files_at (site fs base) (k :: K) fs'.
Proof.
  intros Hk Hfiles Hst q Hq.
  destruct (store_pickle_files _ _ _ _ _ _ _ Hst Hq) as [Hold| ->].
  - destruct (Hfiles q Hold) as (k' & ? & ->). exists k'. split; [by right|done].
  - exists k. split; [by left|]. by apply site_join3.
Qed.

Lemma store3_no_dirs_at k v fs fs' r :
  plain3 k = true → no_dotdot base = true →
  no_dirs_at (site fs base) fs →
  store_pickle P (join3 base k) v fs = (fs', r) →
  no_dirs_at (site fs base) fs'.
Proof.
  intros Hk Hnd Hdirs Hst q Hq. destruct (is_dir fs' q) eqn:Hdir; [|done].
  destruct (store_pickle_dirs _ _ _ _ _ _ _ Hst Hdir) as [Hold|Hvis].
  - by rewrite (Hdirs q Hq) in Hold.
  - destruct (join3_unfold base k Hk) as (_ & _ & _ & Hdirname).
    rewrite Hdirname in Hvis. apply visits_dir3 in Hvis; [|done..].
    apply below3_length in Hq. lia.
Qed.




(** The test of [has_asset] on a path that was written. *)
Lemma has_after_store filepath v fs fs' fs'' :
  store_pickle P filepath v fs = (fs', inr ()) →
  extends fs' fs'' →
  os_path_exists fs'' filepath && negb (os_path_isdir fs'' filepath) = true.
Proof.
  intros (p & d & _ & Hres & Hp)%store_pickle_written Hext.
  apply exists_not_isdir. exists p. split; [by eapply resolve_extends|].
  apply (extends_file _ _ Hext). unfold is_file. by rewrite Hp.
Qed.
End three_segments.

(** ** Histories of writes *)

(** The state after a sequence of [set_asset] calls, whether they returned or
    raised. *)
Definition run_calls {St R V : Type} (set : AssetStoreContext → V → M St R)
    (calls : list (AssetStoreContext * V)) (s : St) : St :=
  foldl (λ s cv, (set cv.1 cv.2 s).1) s calls.

(** The keys of the run-scoped and of the version-scoped store; a missing run
    id or version shows as the empty string, which is not a plain segment. *)
Definition run_scoped_key (ctx : AssetStoreContext) : key3 :=
  (default "" (source_run_id ctx), step_key ctx, output_name ctx).

Definition versioned_key (ctx : AssetStoreContext) : key3 :=
  (step_key ctx, output_name ctx, default "" (version ctx)).

(** The triple the version-scoped store is keyed by. *)
Definition version_triple (ctx : AssetStoreContext) : string * string * option string :=
  (step_key ctx, output_name ctx, version ctx).

Lemma is_segment_default o : is_segment (default "" o) = true → ∃ s, o = Some s.
Proof. destruct o; [eauto|done]. Qed.

Lemma run_scoped_plain_key ctx : run_scoped_plain ctx = plain3 (run_scoped_key ctx).
Proof. unfold run_scoped_plain, plain3, run_scoped_key. simpl. by destruct (source_run_id ctx). Qed.

Lemma run_scoped_path_plain self base ctx :
  PickledObjectFilesystemAssetStore.base_dir self = Some base →
  plain3 (run_scoped_key ctx) = true →
  PickledObjectFilesystemAssetStore._get_path self ctx
  = inr (join3 base (run_scoped_key ctx)).
Proof.
  intros Hb ([run Hrun]%is_segment_default & _)%plain3_spec.
  rewrite (run_scoped_get_path self ctx base run Hb Hrun).
  unfold join3, run_scoped_key. by rewrite Hrun.
Qed.

Lemma versioned_path_plain self base ctx :
  VersionedPickledObjectFilesystemAssetStore.base_dir self = Some base →
  plain3 (versioned_key ctx) = true →
  VersionedPickledObjectFilesystemAssetStore._get_path self ctx
  = inr (join3 base (versioned_key ctx)).
Proof.
  intros Hb (_ & _ & [v Hv]%is_segment_default)%plain3_spec.
  rewrite (versioned_get_path_Some self ctx v Hv), Hb.
  unfold join3, versioned_key. by rewrite Hv.
Qed.



Lemma files_at_mono B K K' fs : K ⊆ K' → files_at B K fs → files_at B K' fs.
Proof. intros HK Hfiles q Hq. destruct (Hfiles q Hq) as (k & ? & ?). eauto. Qed.

(** A history of calls whose keys are plain, for a store that puts the file
    of a context at [join3 base (key ctx)]. *)
Section history.
Context {V R : Type} (P : Pickler V) (base : string).
Context (set : AssetStoreContext → V → M filesystem R) (key : AssetStoreContext → key3).
Hypothesis set_plain : ∀ ctx v fs,
  plain3 (key ctx) = true →
  (set ctx v fs).1 = (store_pickle P (join3 base (key ctx)) v fs).1.

Definition plain_calls (calls : list (AssetStoreContext * V)) : Prop :=
  ∀ cv, cv ∈ calls → plain3 (key cv.1) = true.

Lemma run_calls_extends calls fs :
  plain_calls calls → extends fs (run_calls set calls fs).
Proof.
  revert fs. induction calls as [|[c v] calls IH]; intros fs Hplain; simpl.
  { apply extends_refl. }
  eapply extends_trans; [|apply IH; intros cv ?; apply Hplain; by right].
  rewrite set_plain by (apply (Hplain (c, v)); by left).
  destruct (store_pickle P _ v fs) as [fs1 r] eqn:Hst. by eapply store_pickle_extends.
Qed.

Lemma run_calls_files_at calls K fs :
  plain_calls calls →
  files_at (site fs base) K fs →
  files_at (site fs base) ((key ∘ fst <$> calls) ++ K) (run_calls set calls fs).
Proof.
  revert fs K. induction calls as [|[c v] calls IH]; intros fs K Hplain Hfiles; [done|].
  assert (plain3 (key c) = true) as Hc by (apply (Hplain (c, v)); by left).
  simpl. rewrite set_plain by done.
  destruct (store_pickle P _ v fs) as [fs1 r] eqn:Hst. simpl.
  rewrite <-(store3_site P base _ _ _ _ _ Hst).
  apply (files_at_mono _ ((key ∘ fst <$> calls) ++ key c :: K)); [|apply IH].
  - intros k [Hk|[->|Hk]%elem_of_cons]%elem_of_app; rewrite ?fmap_cons; simpl.
    + by apply list_elem_of_further, elem_of_app; left.
    + by apply list_elem_of_here.
    + by apply list_elem_of_further, elem_of_app; right.
  - intros cv ?. apply Hplain. by right.
  - rewrite (store3_site P base _ _ _ _ _ Hst). by eapply store3_files_at.
Qed.

Lemma run_calls_no_dirs_at calls fs :
  no_dotdot base = true →
  plain_calls calls →
  no_dirs_at (site fs base) fs →
  no_dirs_at (site fs base) (run_calls set calls fs).
Proof.
  intros Hnd. revert fs. induction calls as [|[c v] calls IH]; intros fs Hplain Hdirs; [done|].
  assert (plain3 (key c) = true) as Hc by (apply (Hplain (c, v)); by left).
  simpl. rewrite set_plain by done.
  destruct (store_pickle P _ v fs) as [fs1 r] eqn:Hst. simpl.
  rewrite <-(store3_site P base _ _ _ _ _ Hst). apply IH.
  - intros cv ?. apply Hplain. by right.
  - rewrite (store3_site P base _ _ _ _ _ Hst). by eapply store3_no_dirs_at.
Qed.

Lemma run_calls_site calls fs :
  plain_calls calls → site (run_calls set calls fs) base = site fs base.
Proof. intros Hplain. by apply site_extends, run_calls_extends. Qed.


End history.

(** ** The pickling stores along a history *)

Lemma run_calls_extends_any {R V : Type} (set : AssetStoreContext → V → M filesystem R)
    calls fs :
  (∀ c v fs, extends fs (set c v fs).1) → extends fs (run_calls set calls fs).
Proof.
  intros Hset. revert fs. induction calls as [|[c v] calls IH]; intros fs; simpl.
  - apply extends_refl.
  - eapply extends_trans; [apply Hset|apply IH].
Qed.

Lemma versioned_get_path_triple self c1 c2 :
  version_triple c1 = version_triple c2 →
  VersionedPickledObjectFilesystemAssetStore._get_path self c1 =
  VersionedPickledObjectFilesystemAssetStore._get_path self c2.
Proof.
  intros [= Hs Ho Hv]. unfold VersionedPickledObjectFilesystemAssetStore._get_path.
  by rewrite Hs, Ho, Hv.
Qed.

Section stores_history.
Context {V : Type} (P : Pickler V).

Lemma versioned_set_extends self c v fs :
  extends fs (VersionedPickledObjectFilesystemAssetStore.set_asset P self c v fs).1.
Proof.
  rewrite versioned_set_asset.
  destruct (VersionedPickledObjectFilesystemAssetStore._get_path self c) as [|filepath];
    [apply extends_refl|].
  rewrite finish_fst. destruct (store_pickle P filepath v fs) eqn:Hst.
  by eapply store_pickle_extends.
Qed.


Lemma run_scoped_set_plain self base c v fs :
  PickledObjectFilesystemAssetStore.base_dir self = Some base →
  plain3 (run_scoped_key c) = true →
  (PickledObjectFilesystemAssetStore.set_asset P self c v fs).1
  = (store_pickle P (join3 base (run_scoped_key c)) v fs).1.
Proof.
  intros Hb Hc. by rewrite run_scoped_set_asset, (run_scoped_path_plain self base c Hb Hc), finish_fst.
Qed.

(** [has_asset] answers [True] only for a path that resolves to a regular
    file. *)
Lemma versioned_has_asset_true self ctx fs :
  VersionedPickledObjectFilesystemAssetStore.has_asset self ctx fs = (fs, inr true) →
  ∃ filepath p,
    VersionedPickledObjectFilesystemAssetStore._get_path self ctx = inr filepath ∧
    resolve fs filepath = inr p ∧ is_file fs p = true.
Proof.
  rewrite versioned_has_asset.
  destruct (VersionedPickledObjectFilesystemAssetStore._get_path self ctx) as [|filepath];
    [done|].
  intros [= (p & ? & ?)%exists_not_isdir]. by exists filepath, p.
Qed.

(** The cache-hit law: once a [set_asset] for the triple has returned,
    [has_asset] is [True], and stays so through later calls. *)
Lemma versioned_hit self ctx c v fs fs1 r later :
  VersionedPickledObjectFilesystemAssetStore.set_asset P self c v fs = (fs1, inr r) →
  version_triple c = version_triple ctx →
  let fs2 := run_calls (VersionedPickledObjectFilesystemAssetStore.set_asset P self)
               later fs1 in
  VersionedPickledObjectFilesystemAssetStore.has_asset self ctx fs2 = (fs2, inr true).
Proof.
  intros Hset Htriple fs2.
  rewrite versioned_has_asset, <-(versioned_get_path_triple self c ctx Htriple).
  rewrite versioned_set_asset in Hset.
  destruct (VersionedPickledObjectFilesystemAssetStore._get_path self c) as [|filepath];
    [done|].
  apply finish_inr in Hset as [Hst _].
  erewrite has_after_store; [done..|].
  apply run_calls_extends_any. intros. apply versioned_set_extends.
Qed.

End stores_history.

(** * Further properties of the stores *)

(** ** Reads do not write *)

Section reads.
Context {V : Type} (P : Pickler V).

Lemma load_pickle_fst filepath fs : (load_pickle P filepath fs).1 = fs.
Proof. by rewrite load_pickle_spec. Qed.

(** X2. [get_asset] of every store and [has_asset] leave the state (the
    dictionary, the file system) exactly as it was, whether they return or
    raise. *)
Theorem X2_reads_leave_state_unchanged (ctx : AssetStoreContext) :
  (∀ st : InMemoryAssetStore.t V, (InMemoryAssetStore.get_asset ctx st).1 = st) ∧
  (∀ self fs, (PickledObjectFilesystemAssetStore.get_asset P self ctx fs).1 = fs) ∧
  (∀ self fs, (CustomPathPickledObjectFilesystemAssetStore.get_asset P self ctx fs).1 = fs) ∧
  (∀ self fs, (VersionedPickledObjectFilesystemAssetStore.get_asset P self ctx fs).1 = fs) ∧
  (∀ self fs, (VersionedPickledObjectFilesystemAssetStore.has_asset self ctx fs).1 = fs).
Proof.
  split_and!.
  - intros st. unfold InMemoryAssetStore.get_asset. by destruct (_ !! _).
  - intros self fs. rewrite run_scoped_get_asset.
    destruct (PickledObjectFilesystemAssetStore._get_path self ctx); [done|].
    apply load_pickle_fst.
  - intros self fs. rewrite custom_get_asset.
    destruct (custom_filepath self ctx); [done|]. apply load_pickle_fst.
  - intros self fs. rewrite versioned_get_asset.
    destruct (VersionedPickledObjectFilesystemAssetStore._get_path self ctx); [done|].
    apply load_pickle_fst.
  - intros self fs. rewrite versioned_has_asset.
    by destruct (VersionedPickledObjectFilesystemAssetStore._get_path self ctx).
Qed.
End reads.

(** ** Writes only add *)

(** [writes_only_at fs fs' target]: from [fs] to [fs'] nothing was removed,
    no file became a directory or the reverse, the working directory is the
    same, and every file kept its contents except possibly the one at the
    location the path [target] denotes. *)
Definition writes_only_at (fs fs' : filesystem) (target : error + string) : Prop :=
  extends fs fs' ∧
  ∀ q d, node_at fs q = Some (File d) →
    node_at fs' q = Some (File d) ∨ ∃ filepath, target = inr filepath ∧ q = site fs filepath.

Section writes.
Context {V : Type} (P : Pickler V).

Lemma store_pickle_writes_only_at filepath obj fs :
  writes_only_at fs (store_pickle P filepath obj fs).1 (inr filepath).
Proof.
  destruct (store_pickle P filepath obj fs) as [fs' r] eqn:Hst. simpl. split.
  - by eapply store_pickle_extends.
  - intros q d Hq. destruct (decide (q = site fs filepath)) as [->|Hne]; [right; eauto|left].
    by apply (store_pickle_frame P _ _ _ _ _ _ d Hst Hne).
Qed.

Lemma writes_only_at_refl fs target : writes_only_at fs fs target.
Proof. split; [apply extends_refl|auto]. Qed.

(** X3. Whether it returns or raises, [set_asset] of each pickling store
    only adds to the file system: nothing is removed, directories stay
    directories and files stay files, the working directory is unchanged,
    and the only file whose contents can change is the one the computed
    path denotes. *)
Theorem X3_set_asset_only_adds (ctx : AssetStoreContext) (obj : V) (fs : filesystem) :
  (∀ self,
     writes_only_at fs (PickledObjectFilesystemAssetStore.set_asset P self ctx obj fs).1
       (PickledObjectFilesystemAssetStore._get_path self ctx)) ∧
  (∀ self,
     writes_only_at fs
       (CustomPathPickledObjectFilesystemAssetStore.set_asset P self ctx obj fs).1
       (custom_filepath self ctx)) ∧
  (∀ self,
     writes_only_at fs
       (VersionedPickledObjectFilesystemAssetStore.set_asset P self ctx obj fs).1
       (VersionedPickledObjectFilesystemAssetStore._get_path self ctx)).
Proof.
  split_and!; intros self.
  - rewrite run_scoped_set_asset.
    destruct (PickledObjectFilesystemAssetStore._get_path self ctx);
      [apply writes_only_at_refl|].
    rewrite finish_fst. apply store_pickle_writes_only_at.
  - rewrite custom_set_asset.
    destruct (custom_filepath self ctx); [apply writes_only_at_refl|].
    rewrite finish_fst. apply store_pickle_writes_only_at.
  - rewrite versioned_set_asset.
    destruct (VersionedPickledObjectFilesystemAssetStore._get_path self ctx);
      [apply writes_only_at_refl|].
    rewrite finish_fst. apply store_pickle_writes_only_at.
Qed.
End writes.

(** ** Missing base directory or run id *)

Definition store_no_base : PickledObjectFilesystemAssetStore.t :=
  {| PickledObjectFilesystemAssetStore.base_dir := None |}.

Definition ctx_no_run : AssetStoreContext :=
  AssetStoreContext_new "a" "result" None "pipe" {| solid_name := "a" |} None None.

Section type_errors.
Context {V : Type} (P : Pickler V).

Lemma run_scoped_get_path_TypeError self ctx :
  PickledObjectFilesystemAssetStore.base_dir self = None ∨ source_run_id ctx = None →
  PickledObjectFilesystemAssetStore._get_path self ctx = inl TypeError.
Proof.
  unfold PickledObjectFilesystemAssetStore._get_path, get_run_scoped_output_identifier.
  intros [-> | ->]; [done|]. by destruct (PickledObjectFilesystemAssetStore.base_dir self).
Qed.

(** X4. The run-scoped store accepts a store built without [base_dir] and a
    context without [source_run_id] (both are optional), but every operation
    then raises [TypeError] out of [os.path.join], before touching the file
    system; the same happens in the explicit-path and the version-scoped
    store built without [base_dir], once their own metadata check has
    passed. *)
Theorem X4_missing_base_or_run_id_is_a_TypeError (ctx : AssetStoreContext) (obj : V)
    (fs : filesystem) :
  (∀ self,
     PickledObjectFilesystemAssetStore.base_dir self = None ∨ source_run_id ctx = None →
     PickledObjectFilesystemAssetStore.set_asset P self ctx obj fs = (fs, inl TypeError) ∧
     PickledObjectFilesystemAssetStore.get_asset P self ctx fs = (fs, inl TypeError)) ∧
  (∀ self path,
     CustomPathPickledObjectFilesystemAssetStore.base_dir self = None →
     asset_metadata ctx !! "path" = Some (PyStr path) →
     CustomPathPickledObjectFilesystemAssetStore.set_asset P self ctx obj fs
       = (fs, inl TypeError) ∧
     CustomPathPickledObjectFilesystemAssetStore.get_asset P self ctx fs
       = (fs, inl TypeError)) ∧
  (∀ self v,
     VersionedPickledObjectFilesystemAssetStore.base_dir self = None →
     version ctx = Some v →
     VersionedPickledObjectFilesystemAssetStore.set_asset P self ctx obj fs
       = (fs, inl TypeError) ∧
     VersionedPickledObjectFilesystemAssetStore.get_asset P self ctx fs
       = (fs, inl TypeError) ∧
     VersionedPickledObjectFilesystemAssetStore.has_asset self ctx fs
       = (fs, inl TypeError)).
Proof.
  split_and!.
  - intros self Hnone.
    by rewrite run_scoped_set_asset, run_scoped_get_asset, run_scoped_get_path_TypeError.
  - intros self path Hb Hpath.
    assert (custom_filepath self ctx = inl TypeError) as Hfp.
    { unfold custom_filepath, dict_get, CustomPathPickledObjectFilesystemAssetStore._get_path.
      by rewrite Hpath, Hb. }
    by rewrite custom_set_asset, custom_get_asset, Hfp.
  - intros self v Hb Hv.
    assert (VersionedPickledObjectFilesystemAssetStore._get_path self ctx = inl TypeError)
      as Hfp by (by rewrite (versioned_get_path_Some self ctx v Hv), Hb).
    by rewrite versioned_set_asset, versioned_get_asset, versioned_has_asset, Hfp.
Qed.
End type_errors.

Lemma X4_missing_base_or_run_id_witness :
  PickledObjectFilesystemAssetStore.set_asset toy_pickle store_tmp_x ctx_no_run
    (PyInt 1) empty_fs = (empty_fs, inl TypeError) ∧
  PickledObjectFilesystemAssetStore.get_asset toy_pickle store_no_base ctx_r1 empty_fs
  = (empty_fs, inl TypeError) ∧
  CustomPathPickledObjectFilesystemAssetStore.get_asset toy_pickle
    {| CustomPathPickledObjectFilesystemAssetStore.base_dir := None |} ctx_report empty_fs
  = (empty_fs, inl TypeError) ∧
  VersionedPickledObjectFilesystemAssetStore.has_asset
    {| VersionedPickledObjectFilesystemAssetStore.base_dir := None |}
    (ctx_v7 None "pipe") empty_fs
  = (empty_fs, inl TypeError).
Proof.
  split_and!.
  - apply (proj1 (X4_missing_base_or_run_id_is_a_TypeError toy_pickle ctx_no_run
                    (PyInt 1) empty_fs) store_tmp_x).
    right. reflexivity.
  - apply (proj1 (X4_missing_base_or_run_id_is_a_TypeError toy_pickle ctx_r1
                    (PyInt 1) empty_fs) store_no_base).
    left. reflexivity.
  - apply (proj1 (proj2 (X4_missing_base_or_run_id_is_a_TypeError toy_pickle ctx_report
                           (PyInt 1) empty_fs)) _ "reports/out.bin"); reflexivity.
  - apply (proj2 (proj2 (X4_missing_base_or_run_id_is_a_TypeError toy_pickle
                           (ctx_v7 None "pipe") (PyInt 1) empty_fs)) _ "v7"); reflexivity.
Defined.

(** ** A field that starts with a separator *)

Lemma join_step_absolute path b : startswith_sep b = true → join_step path b = b.
Proof. intros Hb. unfold join_step. by rewrite Hb. Qed.

Section absolute.
Context {V : Type} (P : Pickler V).

(** X5. [os.path.join] restarts at a component that begins with a separator:
    when the last key field does (the output name for the run-scoped store,
    the version for the version-scoped one, the metadata path for the
    explicit-path one), the computed path is that field alone, whatever the
    base directory and the other fields are, and that is where a returning
    [set_asset] leaves its file. *)
Theorem X5_absolute_field_ignores_base_dir (ctx : AssetStoreContext) :
  (∀ self base run,
     PickledObjectFilesystemAssetStore.base_dir self = Some base →
     source_run_id ctx = Some run →
     startswith_sep (output_name ctx) = true →
     PickledObjectFilesystemAssetStore._get_path self ctx = inr (output_name ctx) ∧
     ∀ obj fs fs' r,
       PickledObjectFilesystemAssetStore.set_asset P self ctx obj fs = (fs', inr r) →
       ∃ p, resolve fs' (output_name ctx) = inr p ∧ is_file fs' p = true) ∧
  (∀ self base v,
     VersionedPickledObjectFilesystemAssetStore.base_dir self = Some base →
     version ctx = Some v →
     startswith_sep v = true →
     VersionedPickledObjectFilesystemAssetStore._get_path self ctx = inr v ∧
     ∀ obj fs fs' r,
       VersionedPickledObjectFilesystemAssetStore.set_asset P self ctx obj fs
         = (fs', inr r) →
       ∃ p, resolve fs' v = inr p ∧ is_file fs' p = true) ∧
  (∀ self base path,
     CustomPathPickledObjectFilesystemAssetStore.base_dir self = Some base →
     asset_metadata ctx !! "path" = Some (PyStr path) →
     startswith_sep path = true →
     custom_filepath self ctx = inr path ∧
     ∀ obj fs fs' r,
       CustomPathPickledObjectFilesystemAssetStore.set_asset P self ctx obj fs
         = (fs', inr r) →
       ∃ p, resolve fs' path = inr p ∧ is_file fs' p = true).
Proof.
  assert (∀ filepath obj fs fs',
    store_pickle P filepath obj fs = (fs', inr ()) →
    ∃ p, resolve fs' filepath = inr p ∧ is_file fs' p = true) as Hwritten.
  { intros filepath obj fs fs' (p & d & _ & Hres & Hp)%store_pickle_written.
    exists p. split; [done|]. unfold is_file. by rewrite Hp. }
  split_and!.
  - intros self base run Hb Hr Habs.
    assert (PickledObjectFilesystemAssetStore._get_path self ctx = inr (output_name ctx))
      as Hpath by (by rewrite (run_scoped_get_path self ctx base run Hb Hr),
                     join_step_absolute).
    split; [done|]. intros obj fs fs' r. rewrite run_scoped_set_asset, Hpath.
    intros [Hst _]%finish_inr. by eapply Hwritten.
  - intros self base v Hb Hv Habs.
    assert (VersionedPickledObjectFilesystemAssetStore._get_path self ctx = inr v)
      as Hpath by (by rewrite (versioned_get_path_Some self ctx v Hv), Hb, join_three,
                     join_step_absolute).
    split; [done|]. intros obj fs fs' r. rewrite versioned_set_asset, Hpath.
    intros [Hst _]%finish_inr. by eapply Hwritten.
  - intros self base path Hb Hp Habs.
    assert (custom_filepath self ctx = inr path) as Hpath.
    { unfold custom_filepath, dict_get, CustomPathPickledObjectFilesystemAssetStore._get_path.
      rewrite Hp, Hb. simpl. by rewrite join_step_absolute. }
    split; [done|]. intros obj fs fs' r. rewrite custom_set_asset, Hpath.
    intros [Hst _]%finish_inr. by eapply Hwritten.
Qed.
End absolute.

Definition ctx_absolute_output : AssetStoreContext :=
  AssetStoreContext_new "a" "/elsewhere/out" None "pipe" {| solid_name := "a" |}
    (Some "r1") None.

Lemma X5_absolute_field_witness :
  PickledObjectFilesystemAssetStore._get_path store_tmp_x ctx_absolute_output
  = inr "/elsewhere/out" ∧
  let fs' := (PickledObjectFilesystemAssetStore.set_asset toy_pickle store_tmp_x
                ctx_absolute_output (PyInt 1) empty_fs).1 in
  ∃ p, resolve fs' "/elsewhere/out" = inr p ∧ is_file fs' p = true.
Proof.
  destruct (proj1 (X5_absolute_field_ignores_base_dir toy_pickle ctx_absolute_output)
              store_tmp_x "/tmp/x" "r1" eq_refl eq_refl eq_refl) as [Hpath Hfile].
  split; [exact Hpath|]. intros fs'.
  apply (Hfile (PyInt 1) empty_fs fs' None). vm_compute. reflexivity.
Defined.

(** ** The key of the explicit-path store *)

Lemma custom_filepath_eq self (c1 c2 : AssetStoreContext) :
  dict_get (asset_metadata c1) "path" = dict_get (asset_metadata c2) "path" →
  custom_filepath self c1 = custom_filepath self c2.
Proof. unfold custom_filepath. by intros ->. Qed.

(** X6. The explicit-path store is keyed by [asset_metadata["path"]] alone:
    two contexts with the same entry get the same file path, whatever their
    step keys, output names, run ids and versions are, and what is written
    under one is what a read under the other returns. *)
Theorem X6_custom_path_is_the_only_key {V} (P : Pickler V) (c1 c2 : AssetStoreContext) :
  dict_get (asset_metadata c1) "path" = dict_get (asset_metadata c2) "path" →
  (∀ self, custom_filepath self c1 = custom_filepath self c2) ∧
  (round_trips P →
   ∀ self v fs fs' r,
     CustomPathPickledObjectFilesystemAssetStore.set_asset P self c1 v fs = (fs', inr r) →
     CustomPathPickledObjectFilesystemAssetStore.get_asset P self c2 fs' = (fs', inr v)).
Proof.
  intros Hpath. split; [intros self; by apply custom_filepath_eq|].
  intros Hrt self v fs fs' r Hset.
  rewrite custom_get_asset, <-(custom_filepath_eq self c1 c2 Hpath), <-custom_get_asset.
  by eapply (custom_round_trip P Hrt).
Qed.

Definition ctx_report_other : AssetStoreContext :=
  AssetStoreContext_new "t.compute" "other" (Some {[ "path" := PyStr "reports/out.bin" ]})
    "other_pipe" {| solid_name := "t" |} (Some "r2") (Some "v7").

Lemma X6_custom_path_witness :
  step_key ctx_report ≠ step_key ctx_report_other ∧
  let fs' := (CustomPathPickledObjectFilesystemAssetStore.set_asset toy_pickle
                custom_store_data ctx_report (PyInt 1) home_fs).1 in
  CustomPathPickledObjectFilesystemAssetStore.get_asset toy_pickle custom_store_data
    ctx_report_other fs' = (fs', inr (PyInt 1)).
Proof.
  split; [intros [=]|]. intros fs'.
  destruct (CustomPathPickledObjectFilesystemAssetStore.set_asset toy_pickle
              custom_store_data ctx_report (PyInt 1) home_fs) as [fs1 [e|r]] eqn:Hset;
    [by vm_compute in Hset|].
  apply (proj2 (X6_custom_path_is_the_only_key toy_pickle ctx_report ctx_report_other
                  eq_refl) toy_round_trips custom_store_data (PyInt 1) home_fs fs' r).
  exact Hset.
Defined.

(** ** [has_asset] and [get_asset] agree *)

(** The errors of handling a path: those of the operating system ([OSError]
    and its subclasses) and the [ValueError] for a NUL byte, as opposed to
    the errors of the checks and of the serializer. *)
Definition is_os_error (e : error) : bool :=
  match e with
  | OSError _ | FileNotFoundError | FileExistsError | IsADirectoryError
  | NotADirectoryError => true
  | _ => false
  end.

Definition is_path_error (e : error) : bool :=
  is_os_error e || bool_decide (e = ValueError).

Lemma walk_error fs cur comps e :
  walk fs cur comps = inl e →
  e = FileNotFoundError ∨ e = NotADirectoryError ∨ e = OSError ENAMETOOLONG.
Proof.
  revert cur. induction comps as [|c rest IH]; intros cur; simpl; [done|].
  destruct (node_at fs cur) as [[]|]; [naive_solver| |naive_solver].
  destruct (too_long c); [naive_solver|apply IH].
Qed.

Lemma resolve_error fs path e :
  resolve fs path = inl e →
  e = FileNotFoundError ∨ e = NotADirectoryError ∨ e = OSError ENAMETOOLONG ∨
  e = ValueError.
Proof.
  unfold resolve. destruct (has_nul path); [naive_solver|].
  do 2 (case_bool_decide; [naive_solver|]). intros ?%walk_error. tauto.
Qed.

Section agreement.
Context {V : Type} (P : Pickler V).

(** X7. On any file system and for any context, [has_asset] of the
    version-scoped store and its [get_asset] agree: when [has_asset] returns
    [True], [get_asset] returns a value or fails to unpickle, and never
    fails for want of a file; when [has_asset] returns [False], [get_asset]
    returns nothing: it raises [FileNotFoundError], [NotADirectoryError] or
    [IsADirectoryError], or, for a path the operating system does not
    accept, [OSError] with [ENAMETOOLONG] or [ValueError]. *)
Theorem X7_has_asset_agrees_with_get_asset
    (self : VersionedPickledObjectFilesystemAssetStore.t) (ctx : AssetStoreContext)
    (fs : filesystem) :
  (VersionedPickledObjectFilesystemAssetStore.has_asset self ctx fs = (fs, inr true) →
   (∃ v, VersionedPickledObjectFilesystemAssetStore.get_asset P self ctx fs = (fs, inr v)) ∨
   VersionedPickledObjectFilesystemAssetStore.get_asset P self ctx fs
   = (fs, inl UnpicklingError)) ∧
  (VersionedPickledObjectFilesystemAssetStore.has_asset self ctx fs = (fs, inr false) →
   ∃ e, VersionedPickledObjectFilesystemAssetStore.get_asset P self ctx fs = (fs, inl e) ∧
        (e = FileNotFoundError ∨ e = NotADirectoryError ∨ e = IsADirectoryError ∨
         e = OSError ENAMETOOLONG ∨ e = ValueError)).
Proof.
  rewrite versioned_has_asset, versioned_get_asset.
  destruct (VersionedPickledObjectFilesystemAssetStore._get_path self ctx) as [|filepath];
    [done|].
  rewrite load_pickle_spec. split.
  - intros [= (p & Hres & [d Hp]%is_file_Some)%exists_not_isdir]. rewrite Hres, Hp.
    destruct (loads P d); eauto.
  - intros [= Hfalse]. destruct (resolve fs filepath) as [e|p] eqn:Hres.
    { exists e. split; [done|]. apply resolve_error in Hres. tauto. }
    destruct (node_at fs p) as [[d|]|] eqn:Hp; [|eauto 10..].
    assert (os_path_exists fs filepath && negb (os_path_isdir fs filepath) = true)
      as Htrue; [|congruence].
    apply exists_not_isdir. exists p. split; [done|]. unfold is_file. by rewrite Hp.
Qed.
End agreement.

(** A version of 300 bytes, more than a file name may have. *)
Definition ctx_long_version : AssetStoreContext :=
  AssetStoreContext_new "s" "out" None "pipe" {| solid_name := "s" |} None
    (Some (string_of_list_ascii (replicate 300 "v"%char))).

Lemma X7_has_asset_agrees_witness :
  let fs' := (VersionedPickledObjectFilesystemAssetStore.set_asset toy_pickle
                versioned_store_cache (ctx_v7 None "pipe") (PyInt 42) empty_fs).1 in
  (VersionedPickledObjectFilesystemAssetStore.has_asset versioned_store_cache
     (ctx_v7 (Some "r2") "pipe") fs' = (fs', inr true) ∧
   ((∃ v, VersionedPickledObjectFilesystemAssetStore.get_asset toy_pickle
            versioned_store_cache (ctx_v7 (Some "r2") "pipe") fs' = (fs', inr v)) ∨
    VersionedPickledObjectFilesystemAssetStore.get_asset toy_pickle
      versioned_store_cache (ctx_v7 (Some "r2") "pipe") fs' = (fs', inl UnpicklingError))) ∧
  (VersionedPickledObjectFilesystemAssetStore.has_asset versioned_store_cache
     ctx_long_version fs' = (fs', inr false) ∧
   VersionedPickledObjectFilesystemAssetStore.get_asset toy_pickle versioned_store_cache
     ctx_long_version fs' = (fs', inl (OSError ENAMETOOLONG))).
Proof.
  intros fs'.
  assert (VersionedPickledObjectFilesystemAssetStore.has_asset versioned_store_cache
            (ctx_v7 (Some "r2") "pipe") fs' = (fs', inr true)) as Hhas
    by (vm_compute; reflexivity).
  assert (VersionedPickledObjectFilesystemAssetStore.has_asset versioned_store_cache
            ctx_long_version fs' = (fs', inr false)) as Hnot
    by (vm_compute; reflexivity).
  split; (split; [done|]).
  - exact (proj1 (X7_has_asset_agrees_with_get_asset toy_pickle versioned_store_cache
                    (ctx_v7 (Some "r2") "pipe") fs') Hhas).
  - destruct (proj2 (X7_has_asset_agrees_with_get_asset toy_pickle versioned_store_cache
                       ctx_long_version fs') Hnot) as (e & Hget & _).
    rewrite Hget. f_equal. apply (f_equal snd) in Hget. vm_compute in Hget.
    symmetry. exact Hget.
Defined.

(** ** An object that cannot be pickled *)

Lemma makedirs_walk_error cur comps pos fs fs' e :
  makedirs_walk cur comps pos fs = (fs', inl e) → is_path_error e = true.
Proof.
  revert cur pos fs. induction comps as [|c rest IH]; intros cur pos fs; simpl.
  - destruct (node_at fs cur) as [[]|]; by intros [= <- <-].
  - destruct (has_nul c); [by intros [= <- <-]|].
    case_bool_decide; [by intros [= <- <-]|].
    destruct (node_at fs cur) as [[]|]; try by intros [= <- <-].
    destruct (too_long c); [by intros [= <- <-]|].
    destruct (node_at fs (enter cur c)); apply IH.
Qed.

Lemma mkdir_p_error path fs fs' e : mkdir_p path fs = (fs', inl e) → is_path_error e = true.
Proof.
  unfold mkdir_p. case_bool_decide; [by intros [= <- <-]|]. apply makedirs_walk_error.
Qed.

Lemma open_error filepath m fs fs' e :
  open_ filepath m fs = (fs', inl e) → is_path_error e = true.
Proof.
  unfold open_. destruct (resolve fs filepath) as [e'|p] eqn:Hres.
  - intros [= <- <-]. by apply resolve_error in Hres as [-> |[-> |[-> | ->]]].
  - destruct (node_at fs p) as [[]|], m; try by intros [= <- <-].
    by destruct (is_dir fs (tail p)); intros [= <- <-].
Qed.

Lemma versioned_get_path_error self ctx e :
  VersionedPickledObjectFilesystemAssetStore._get_path self ctx = inl e →
  e = CheckError "context.version" ∨ e = TypeError.
Proof.
  unfold VersionedPickledObjectFilesystemAssetStore._get_path. simpl.
  destruct (version ctx); simpl; [|by intros [= <-]; left].
  destruct (VersionedPickledObjectFilesystemAssetStore.base_dir self); simpl;
    [done|by intros [= <-]; right].
Qed.

Section unpicklable.
Context {V : Type} (P : Pickler V).

(** How [store_pickle] can raise: an error of handling the path while
    creating the directories or opening the file, or the pickling error, and
    then the file is left with what had been flushed. *)
Lemma store_pickle_error filepath obj fs fs' e :
  store_pickle P filepath obj fs = (fs', inl e) →
  is_path_error e = true ∨
  (e = PicklingError ∧ dumps P obj = None ∧
   ∃ p, resolve fs' filepath = inr p ∧ node_at fs' p = Some (File (flushed P obj))).
Proof.
  unfold store_pickle, bind.
  destruct (mkdir_p _ fs) as [fs1 [e1|[]]] eqn:Hmk.
  { intros [= <- <-]. left. by eapply mkdir_p_error. }
  destruct (open_ filepath wb fs1) as [fs2 [e2|p]] eqn:Hopen.
  { intros [= <- <-]. left. by eapply open_error. }
  apply open_wb_spec in Hopen as [[_ [? [=]]]|(p' & [= <-] & Hres & Hnd & ->)].
  unfold pickle_dump. destruct (dumps P obj) as [b|] eqn:Hd; intros [= <- <-].
  right. split_and!; [done..|]. rewrite put_put. exists p. split.
  - eapply resolve_extends; [by apply extends_put_nondir|done].
  - apply node_at_put_eq. by destruct p.
Qed.

(** X8. An object the serializer cannot encode makes [set_asset] of the
    version-scoped store raise, never return.  When what it raises is the
    pickling error, the file has already been opened for writing: it is left
    behind with whatever had been flushed, [has_asset] answers [True] for
    the context from then on, and [get_asset] tries to decode those bytes. *)
Theorem X8_unpicklable_object_leaves_a_file
    (self : VersionedPickledObjectFilesystemAssetStore.t) (ctx : AssetStoreContext)
    (obj : V) (fs : filesystem) :
  dumps P obj = None →
  let res := VersionedPickledObjectFilesystemAssetStore.set_asset P self ctx obj fs in
  (∃ e, res.2 = inl e) ∧
  (res.2 = inl PicklingError →
   VersionedPickledObjectFilesystemAssetStore.has_asset self ctx res.1 = (res.1, inr true) ∧
   VersionedPickledObjectFilesystemAssetStore.get_asset P self ctx res.1
   = (res.1, match loads P (flushed P obj) with
             | Some v => inr v
             | None => inl UnpicklingError
             end)).
Proof.
  intros Hd res. unfold res.
  rewrite versioned_set_asset, versioned_has_asset, versioned_get_asset.
  destruct (VersionedPickledObjectFilesystemAssetStore._get_path self ctx)
    as [e|filepath] eqn:Hpath.
  { simpl. split; [eauto|]. intros [= ->].
    by apply versioned_get_path_error in Hpath as [?|?]. }
  destruct (store_pickle P filepath obj fs) as [fs' [e|[]]] eqn:Hst; simpl.
  - split; [eauto|]. intros [= ->].
    apply store_pickle_error in Hst as [?|(_ & _ & p & Hres & Hp)]; [done|].
    rewrite load_pickle_spec, Hres, Hp. split; [|done]. do 2 f_equal.
    apply exists_not_isdir. exists p. split; [done|]. unfold is_file. by rewrite Hp.
  - apply store_pickle_written in Hst as (? & ? & ? & _). congruence.
Qed.
End unpicklable.

(** Python objects to store: plain values, and a lambda, which [pickle]
    refuses. *)
Inductive pyobj : Type :=
  | Plain (v : pyval)
  | Lambda.

Definition lambda_pickle : Pickler pyobj :=
  {| dumps o := match o with Plain v => toy.dumps v | Lambda => None end;
     flushed _ := [];
     loads b := Plain <$> toy.loads b |}.

Lemma X8_unpicklable_object_witness :
  let res := VersionedPickledObjectFilesystemAssetStore.set_asset lambda_pickle
               versioned_store_cache (ctx_v7 None "pipe") Lambda empty_fs in
  res.2 = inl PicklingError ∧
  VersionedPickledObjectFilesystemAssetStore.has_asset versioned_store_cache
    (ctx_v7 None "pipe") res.1 = (res.1, inr true) ∧
  VersionedPickledObjectFilesystemAssetStore.get_asset lambda_pickle versioned_store_cache
    (ctx_v7 None "pipe") res.1 = (res.1, inl UnpicklingError).
Proof.
  intros res.
  assert (res.2 = inl PicklingError) as Hraise by (vm_compute; reflexivity).
  split; [exact Hraise|].
  exact (proj2 (X8_unpicklable_object_leaves_a_file lambda_pickle versioned_store_cache
                  (ctx_v7 None "pipe") Lambda empty_fs eq_refl) Hraise).
Defined.

(** ** The in-memory store along a history *)

Section in_memory_history.
Context {V : Type}.

Lemma in_memory_run_calls_app (l1 l2 : list (AssetStoreContext * V))
    (st : InMemoryAssetStore.t V) :
  run_calls InMemoryAssetStore.set_asset (l1 ++ l2) st
  = run_calls InMemoryAssetStore.set_asset l2
      (run_calls InMemoryAssetStore.set_asset l1 st).
Proof. unfold run_calls. by rewrite foldl_app. Qed.

(** Calls under other identifiers leave the entry of an identifier alone. *)
Lemma in_memory_run_calls_other (calls : list (AssetStoreContext * V)) k
    (st : InMemoryAssetStore.t V) :
  (∀ cv, cv ∈ calls → get_run_scoped_output_identifier cv.1 ≠ k) →
  InMemoryAssetStore.values (run_calls InMemoryAssetStore.set_asset calls st) !! k
  = InMemoryAssetStore.values st !! k.
Proof.
  revert st. induction calls as [|[c v] calls IH]; intros st Hne; [done|].
  simpl. rewrite IH by (intros cv ?; apply Hne; by right).
  unfold InMemoryAssetStore.set_asset. simpl.
  apply lookup_insert_ne. apply (Hne (c, v)). by left.
Qed.

(** X9. The in-memory store over any sequence of [set_asset] calls, none of
    which can raise: [get_asset] returns the value of the last call made
    under the identifier [(source_run_id, step_key, output_name)] of the
    context; if no call was made under it, the dictionary entry is what it
    was before the calls, so that a store that starts empty raises
    [KeyError]. *)
Theorem X9_in_memory_last_write_wins (ctx : AssetStoreContext)
    (st0 : InMemoryAssetStore.t V) :
  (∀ c (v : V) (st : InMemoryAssetStore.t V),
     (InMemoryAssetStore.set_asset c v st).2 = inr None) ∧
  (∀ before c v after,
     get_run_scoped_output_identifier c = get_run_scoped_output_identifier ctx →
     (∀ cv, cv ∈ after →
        get_run_scoped_output_identifier cv.1 ≠ get_run_scoped_output_identifier ctx) →
     let st := run_calls InMemoryAssetStore.set_asset (before ++ (c, v) :: after) st0 in
     InMemoryAssetStore.get_asset ctx st = (st, inr v)) ∧
  (∀ calls,
     (∀ cv, cv ∈ calls →
        get_run_scoped_output_identifier cv.1 ≠ get_run_scoped_output_identifier ctx) →
     let st := run_calls InMemoryAssetStore.set_asset calls st0 in
     InMemoryAssetStore.values st !! get_run_scoped_output_identifier ctx
     = InMemoryAssetStore.values st0 !! get_run_scoped_output_identifier ctx ∧
     (st0 = InMemoryAssetStore.init →
      InMemoryAssetStore.get_asset ctx st = (st, inl KeyError))).
Proof.
  split_and!.
  - done.
  - intros before c v after Hc Hafter st. unfold st, InMemoryAssetStore.get_asset.
    rewrite in_memory_run_calls_app. simpl.
    rewrite in_memory_run_calls_other by done.
    unfold InMemoryAssetStore.set_asset. simpl. by rewrite Hc, lookup_insert_eq.
  - intros calls Hcalls st. subst st.
    pose proof (in_memory_run_calls_other calls _ st0 Hcalls) as Hsame.
    split; [done|]. intros ->. unfold InMemoryAssetStore.get_asset.
    by rewrite Hsame.
Qed.
End in_memory_history.

Lemma X9_in_memory_last_write_wins_witness :
  let st := run_calls InMemoryAssetStore.set_asset
              [(ctx_r1, PyInt 1); (ctx_r1_other, PyInt 2); (ctx_r1_b, PyInt 3)]
              InMemoryAssetStore.init in
  InMemoryAssetStore.get_asset ctx_r1 st = (st, inr (PyInt 2)) ∧
  InMemoryAssetStore.get_asset ctx_no_run st = (st, inl KeyError).
Proof.
  intros st. split.
  - apply (proj1 (proj2 (X9_in_memory_last_write_wins ctx_r1 InMemoryAssetStore.init))
             [(ctx_r1, PyInt 1)] ctx_r1_other (PyInt 2) [(ctx_r1_b, PyInt 3)]);
      [reflexivity|].
    intros cv ->%list_elem_of_singleton [=].
  - apply (proj2 (proj2 (X9_in_memory_last_write_wins ctx_no_run InMemoryAssetStore.init))
             [(ctx_r1, PyInt 1); (ctx_r1_other, PyInt 2); (ctx_r1_b, PyInt 3)]);
      [|reflexivity].
    intros cv Hin. repeat (apply elem_of_cons in Hin as [-> |Hin]; [intros [=]|]).
    by apply elem_of_nil in Hin.
Defined.

(** ** The adapters *)

(** What the stores read of a context to find a value. *)
Definition same_keys (c1 c2 : AssetStoreContext) : Prop :=
  step_key c1 = step_key c2 ∧ output_name c1 = output_name c2 ∧
  asset_metadata c1 = asset_metadata c2 ∧ source_run_id c1 = source_run_id c2 ∧
  version c1 = version c2.

Lemma from_load_context_same_keys (load_context : InputContext.t) :
  same_keys (from_output_context (InputContext.upstream_output load_context))
            (from_load_context load_context).
Proof. by destruct load_context as [[] ?]. Qed.

Section same_keys.
Context {V : Type} (P : Pickler V) (Hrt : round_trips P).
Context (c1 c2 : AssetStoreContext) (Hkeys : same_keys c1 c2).

Lemma same_keys_in_memory (v : V) (st st' : InMemoryAssetStore.t V) r :
  InMemoryAssetStore.set_asset c1 v st = (st', inr r) →
  InMemoryAssetStore.get_asset c2 st' = (st', inr v).
Proof.
  destruct Hkeys as (Hs & Ho & _ & Hr & _).
  unfold InMemoryAssetStore.set_asset, InMemoryAssetStore.get_asset.
  intros [= <- _]. simpl.
  by rewrite <-(identifier_eq c1 c2 Hr Hs Ho), lookup_insert_eq.
Qed.

Lemma same_keys_run_scoped self v fs fs' r :
  PickledObjectFilesystemAssetStore.set_asset P self c1 v fs = (fs', inr r) →
  PickledObjectFilesystemAssetStore.get_asset P self c2 fs' = (fs', inr v).
Proof.
  destruct Hkeys as (Hs & Ho & _ & Hr & _). intros Hset.
  rewrite run_scoped_get_asset,
    <-(run_scoped_get_path_eq self c1 c2 (identifier_eq c1 c2 Hr Hs Ho)),
    <-run_scoped_get_asset.
  by eapply (run_scoped_round_trip P Hrt).
Qed.

Lemma same_keys_custom self v fs fs' r :
  CustomPathPickledObjectFilesystemAssetStore.set_asset P self c1 v fs = (fs', inr r) →
  CustomPathPickledObjectFilesystemAssetStore.get_asset P self c2 fs' = (fs', inr v).
Proof.
  destruct Hkeys as (_ & _ & Hm & _). intros Hset.
  rewrite custom_get_asset, <-(custom_filepath_eq self c1 c2) by (by rewrite Hm).
  rewrite <-custom_get_asset. by eapply (custom_round_trip P Hrt).
Qed.

Lemma same_keys_versioned self v fs fs' r :
  VersionedPickledObjectFilesystemAssetStore.set_asset P self c1 v fs = (fs', inr r) →
  VersionedPickledObjectFilesystemAssetStore.get_asset P self c2 fs' = (fs', inr v).
Proof.
  destruct Hkeys as (Hs & Ho & _ & _ & Hv). intros Hset.
  rewrite versioned_get_asset, <-(versioned_get_path_triple self c1 c2)
    by (unfold version_triple; by rewrite Hs, Ho, Hv).
  rewrite <-versioned_get_asset. by eapply (versioned_round_trip P Hrt).
Qed.
End same_keys.

(** X1. The adapters form a round trip on every backend: when
    [handle_output] for a step output returns, [load_input] for a load
    context whose upstream output is that output returns the object that was
    stored, although the two contexts built on the way differ in their solid
    definition. *)
Theorem X1_handle_output_then_load_input {V} (P : Pickler V)
    (load_context : InputContext.t) (obj : V) :
  round_trips P →
  let output_context := InputContext.upstream_output load_context in
  (∀ (st st' : InMemoryAssetStore.t V) r,
     handle_output () output_context obj st = (st', inr r) →
     load_input () load_context st' = (st', inr obj)) ∧
  (∀ (self : PickledObjectFilesystemAssetStore.t) fs fs' r,
     handle_output (AssetStore0 := PickledObjectFilesystemAssetStore_store P)
       self output_context obj fs = (fs', inr r) →
     load_input (AssetStore0 := PickledObjectFilesystemAssetStore_store P)
       self load_context fs' = (fs', inr obj)) ∧
  (∀ (self : CustomPathPickledObjectFilesystemAssetStore.t) fs fs' r,
     handle_output (AssetStore0 := CustomPathPickledObjectFilesystemAssetStore_store P)
       self output_context obj fs = (fs', inr r) →
     load_input (AssetStore0 := CustomPathPickledObjectFilesystemAssetStore_store P)
       self load_context fs' = (fs', inr obj)) ∧
  (∀ (self : VersionedPickledObjectFilesystemAssetStore.t) fs fs' r,
     handle_output
       (AssetStore0 := (VersionedPickledObjectFilesystemAssetStore_store P).(versioned_store))
       self output_context obj fs = (fs', inr r) →
     load_input
       (AssetStore0 := (VersionedPickledObjectFilesystemAssetStore_store P).(versioned_store))
       self load_context fs' = (fs', inr obj)).
Proof.
  intros Hrt output_context.
  pose proof (from_load_context_same_keys load_context) as Hkeys.
  unfold handle_output, load_input. simpl. split_and!.
  - intros st st' r. by apply same_keys_in_memory.
  - intros self fs fs' r. by apply same_keys_run_scoped.
  - intros self fs fs' r. by apply same_keys_custom.
  - intros self fs fs' r. by apply same_keys_versioned.
Qed.

Lemma X1_handle_output_then_load_input_witness :
  InputContext.solid_def lc_consumer ≠ OutputContext.solid_def oc_producer ∧
  let fs' := (handle_output (AssetStore0 := PickledObjectFilesystemAssetStore_store toy_pickle)
                store_tmp_x oc_producer (PyInt 1) empty_fs).1 in
  load_input (AssetStore0 := PickledObjectFilesystemAssetStore_store toy_pickle)
    store_tmp_x lc_consumer fs' = (fs', inr (PyInt 1)).
Proof.
  split; [intros [=]|]. intros fs'.
  apply (proj1 (proj2 (X1_handle_output_then_load_input toy_pickle lc_consumer (PyInt 1)
                         toy_round_trips)) store_tmp_x empty_fs fs' None).
  vm_compute. reflexivity.
Defined.

(** ** Memoization across runs *)

(** X10. The version-scoped store across runs: once [set_asset] has returned
    for a context, [get_asset] for any context with the same step key,
    output name and version returns the value, whatever its run id and
    pipeline name are, and [has_asset] for it answers [True], also after any
    further [set_asset] calls on the store. *)
Theorem X10_versioned_hit_across_runs {V} (P : Pickler V)
    (self : VersionedPickledObjectFilesystemAssetStore.t) (c1 c2 : AssetStoreContext)
    (v : V) (fs fs1 : filesystem) (r : option AssetMaterialization) :
  version_triple c1 = version_triple c2 →
  VersionedPickledObjectFilesystemAssetStore.set_asset P self c1 v fs = (fs1, inr r) →
  (round_trips P →
   VersionedPickledObjectFilesystemAssetStore.get_asset P self c2 fs1 = (fs1, inr v)) ∧
  (∀ later,
     let fs2 := run_calls (VersionedPickledObjectFilesystemAssetStore.set_asset P self)
                  later fs1 in
     VersionedPickledObjectFilesystemAssetStore.has_asset self c2 fs2 = (fs2, inr true)).
Proof.
  intros Htriple Hset. split.
  - intros Hrt. rewrite versioned_get_asset, <-(versioned_get_path_triple self c1 c2 Htriple),
      <-versioned_get_asset.
    by eapply (versioned_round_trip P Hrt).
  - intros later. by eapply versioned_hit.
Qed.

Definition ctx_v8 : AssetStoreContext :=
  AssetStoreContext_new "s" "out" None "pipe" {| solid_name := "s" |} None (Some "v8").

Lemma X10_versioned_hit_across_runs_witness :
  let fs1 := (VersionedPickledObjectFilesystemAssetStore.set_asset toy_pickle
                versioned_store_cache (ctx_v7 (Some "run-1") "pipe_a") (PyInt 42)
                empty_fs).1 in
  VersionedPickledObjectFilesystemAssetStore.get_asset toy_pickle versioned_store_cache
    (ctx_v7 (Some "run-2") "pipe_b") fs1 = (fs1, inr (PyInt 42)) ∧
  let fs2 := run_calls (VersionedPickledObjectFilesystemAssetStore.set_asset toy_pickle
                          versioned_store_cache) [(ctx_v8, PyInt 7)] fs1 in
  VersionedPickledObjectFilesystemAssetStore.has_asset versioned_store_cache
    (ctx_v7 (Some "run-2") "pipe_b") fs2 = (fs2, inr true).
Proof.
  intros fs1.
  destruct (X10_versioned_hit_across_runs toy_pickle versioned_store_cache
              (ctx_v7 (Some "run-1") "pipe_a") (ctx_v7 (Some "run-2") "pipe_b")
              (PyInt 42) empty_fs fs1 None eq_refl) as [Hget Hhas].
  { vm_compute. reflexivity. }
  split; [by apply Hget, toy_round_trips|apply Hhas].
Defined.

(** ** A key that was never written *)

(** A file system on which the store whose base directory is [base] has not
    been used: there are no files, and no directory sits three levels below
    the base directory, where the store puts its files. *)
Definition unused (base : string) (fs : filesystem) : Prop :=
  (∀ q, is_file fs q = false) ∧ no_dirs_at (site fs base) fs.

Lemma unused_empty_fs base : unused base empty_fs.
Proof.
  split.
  - intros [|c q]; [done|]. unfold is_file. simpl. by rewrite lookup_empty.
  - intros q [k ->]. unfold is_dir, loc3. simpl. by rewrite lookup_empty.
Qed.

(** The path computed for a context is one the operating system accepts. *)
Definition path_accepted (path : error + string) : bool :=
  match path with
  | inr filepath => accepted filepath
  | inl _ => false
  end.

Section misses.
Context {V : Type} (P : Pickler V).



End misses.


(** ** When writing cannot fail *)

Lemma is_file_put_dir p fs q :
  node_at fs p = None → is_file (put_node p Dir fs) q = is_file fs q.
Proof.
  intros Hp. unfold is_file. destruct (decide (p = q)) as [<-|Hne].
  - rewrite Hp. destruct p; [done|]. by rewrite node_at_put_eq.
  - by rewrite node_at_put_ne.
Qed.

Lemma join_sep_empty_length c rest :
  forallb (λ r, bool_decide (r = "")) rest = true →
  String.length (join_sep (c :: rest)) = (String.length c + List.length rest)%nat.
Proof.
  revert c. induction rest as [|r rest IH]; intros c Hrest.
  - simpl. lia.
  - simpl in Hrest. apply andb_true_iff in Hrest as [->%bool_decide_eq_true Hrest].
    rewrite join_sep_cons, !string_length_app, (IH "" Hrest) by done. simpl. lia.
Qed.

Lemma mkdir_arg_length_le pos c rest :
  (mkdir_arg_length pos c rest ≤ pos + String.length (join_sep (c :: rest)))%nat.
Proof.
  unfold mkdir_arg_length. destruct (forallb _ rest) eqn:Hrest.
  - rewrite join_sep_empty_length by done. lia.
  - destruct rest as [|r rest]; [done|].
    rewrite join_sep_cons, string_length_app by done. lia.
Qed.

(** Creating directories succeeds when it starts in a directory, meets no
    file and the path is accepted; resolution then follows the same way. *)
Lemma makedirs_walk_returns cur comps pos fs :
  is_dir fs cur = true →
  Forall (λ c, has_nul c = false) comps → Forall (λ c, too_long c = false) comps →
  (comps ≠ [] → (pos + String.length (join_sep comps) < PATH_MAX)%nat) →
  (∀ l1 l2, comps = (l1 ++ l2)%list → is_file fs (lexical cur l1) = false) →
  ∃ fs', makedirs_walk cur comps pos fs = (fs', inr ()) ∧
         walk fs' cur comps = inr (lexical cur comps) ∧
         is_dir fs' (lexical cur comps) = true.
Proof.
  revert cur pos fs.
  induction comps as [|c rest IH]; intros cur pos fs Hcur Hnul Hlong Hlen Hfiles; simpl.
  - apply is_dir_Some in Hcur. rewrite Hcur. exists fs. split_and!; [done..|].
    by apply is_dir_Some.
  - apply Forall_cons in Hnul as [Hc0 Hnul]. apply Forall_cons in Hlong as [Hc1 Hlong].
    specialize (Hlen ltac:(done)). pose proof (mkdir_arg_length_le pos c rest) as Harg.
    rewrite Hc0, bool_decide_false by lia.
    pose proof Hcur as Hcur'. apply is_dir_Some in Hcur'. rewrite Hcur', Hc1.
    assert (rest ≠ [] →
            (pos + String.length c + 1 + String.length (join_sep rest) < PATH_MAX)%nat)
      as Hlen'.
    { intros Hrest. rewrite join_sep_cons, !string_length_app in Hlen by done.
      simpl in Hlen. lia. }
    assert (is_file fs (enter cur c) = false) as Hnext
      by (apply (Hfiles [c] rest); done).
    destruct (node_at fs (enter cur c)) as [[d|]|] eqn:Hnode.
    + unfold is_file in Hnext. by rewrite Hnode in Hnext.
    + destruct (IH (enter cur c) (pos + String.length c + 1)%nat fs)
        as (fs' & Hmk & Hwalk & Hdir); [by apply is_dir_Some|done..| |].
      { intros l1 l2 ->. by apply (Hfiles (c :: l1) l2). }
      exists fs'. split_and!; [done| |done].
      apply makedirs_walk_dirs_added, dirs_added_extends in Hmk.
      apply (extends_dir _ _ Hmk), is_dir_Some in Hcur. by rewrite Hcur.
    + assert (enter cur c ≠ []) as Hne by (intros Heq; by rewrite Heq in Hnode).
      destruct (IH (enter cur c) (pos + String.length c + 1)%nat
                  (put_node (enter cur c) Dir fs))
        as (fs' & Hmk & Hwalk & Hdir); [|done..| |].
      { apply is_dir_Some. by apply node_at_put_eq. }
      { intros l1 l2 ->. rewrite is_file_put_dir by done.
        by apply (Hfiles (c :: l1) l2). }
      exists fs'. split_and!; [done| |done].
      apply makedirs_walk_dirs_added, dirs_added_extends in Hmk.
      assert (is_dir (put_node (enter cur c) Dir fs) cur = true) as Hcur1.
      { apply (extends_dir fs); [|done]. by apply extends_put_fresh. }
      apply (extends_dir _ _ Hmk), is_dir_Some in Hcur1. by rewrite Hcur1.
Qed.

Lemma walk_singleton fs cur c :
  is_dir fs cur = true → too_long c = false → walk fs cur [c] = inr (enter cur c).
Proof. intros Hcur%is_dir_Some Hc. unfold walk. by rewrite Hcur, Hc. Qed.

Section returns.
Context {V : Type} (P : Pickler V) (base : string).

(** Writing the file of a plain key with an accepted path gets as far as
    pickling, on a file system where the store was the only writer: the
    file is there afterwards, and [store_pickle] has returned unless the
    object could not be pickled. *)
Lemma store3_writes K k obj fs :
  plain3 k = true → no_dotdot base = true →
  accepted (join3 base k) = true →
  files_at (site fs base) K fs → no_dirs_at (site fs base) fs →
  is_dir fs (cwd fs) = true →
  ∃ fs', store_pickle P (join3 base k) obj fs
         = (fs', match dumps P obj with
                 | Some _ => inr ()
                 | None => inl PicklingError
                 end) ∧
         resolve fs' (join3 base k) = inr (loc3 (site fs base) k) ∧
         is_file fs' (loc3 (site fs base) k) = true.
Proof.
  intros Hk Hnd Hacc Hfiles Hdirs Hcwd.
  destruct (join3_unfold base k Hk) as (Hne & Hend & Hjoin & Hdirname).
  set (dir := join_step (join_step base k.1.1) k.1.2) in *.
  pose proof Hk as (Ha & Hb & Hc)%plain3_spec.
  pose proof Hacc as Hacc'. rewrite Hjoin in Hacc'.
  pose proof (accepted_app_sep _ _ Hacc') as Haccdir.
  apply is_segment_spec in Hc as Hc'. destruct Hc' as [Hsep _].
  assert (too_long k.2 = false) as Hlong.
  { apply accepted_spec in Hacc' as (_ & _ & Hcomps).
    rewrite split_sep_app_sep, (split_sep_no_sep k.2 Hsep) in Hcomps.
    by apply Forall_app in Hcomps as [_ [? _]%Forall_cons]. }
  assert (∀ q, visits fs dir q → is_file fs q = false) as Hvis.
  { intros q Hq. destruct (is_file fs q) eqn:Hfile; [|done].
    destruct (Hfiles q Hfile) as (k' & _ & ->).
    apply visits_dir3 in Hq; [|done..]. simpl in Hq. lia. }
  pose proof Haccdir as (Hnul & Hlen & Hcomps)%accepted_spec.
  destruct (makedirs_walk_returns (start fs dir) (split_sep dir) 0 fs)
    as (fs1 & Hmk & Hwalk & Hdir).
  { unfold start. by destruct (startswith_sep dir). }
  { by apply has_nul_split_sep. }
  { done. }
  { intros _. by rewrite join_split_sep. }
  { intros l1 l2 Hsplit. apply Hvis. by exists l1, l2. }
  assert (site fs dir = k.1.2 :: k.1.1 :: site fs base) as Hsite
    by (unfold dir; by rewrite !site_join_segment).
  fold (site fs dir) in Hwalk, Hdir. rewrite Hsite in Hwalk, Hdir.
  pose proof (makedirs_walk_dirs_added _ _ _ _ _ _ Hmk) as Hadd.
  assert (∀ fs2, extends fs1 fs2 →
    resolve fs2 (join3 base k) = inr (loc3 (site fs base) k)) as Hres.
  { intros fs2 Hext. apply (resolve_extends fs1); [done|].
    rewrite resolve_accepted by (done || rewrite Hjoin; by destruct dir).
    rewrite Hjoin. unfold start. rewrite startswith_sep_app by done.
    rewrite (dirs_added_cwd _ _ Hadd). fold (start fs dir).
    rewrite split_sep_app_sep, walk_app, Hwalk.
    rewrite (split_sep_no_sep k.2 Hsep), walk_singleton by done.
    by rewrite enter_segment. }
  assert (is_dir fs1 (loc3 (site fs base) k) = false) as Hnodir.
  { apply not_true_is_false. intros Hd1.
    destruct (makedirs_walk_dirs _ _ _ _ _ _ _ Hmk Hd1) as [Hold|(l1 & l2 & Hsplit & Hq)].
    - assert (is_dir fs (loc3 (site fs base) k) = false) as Hno
        by (apply Hdirs; by exists k).
      congruence.
    - assert (visits fs dir (loc3 (site fs base) k)) as Hq' by (by exists l1, l2).
      apply visits_dir3 in Hq'; [|done..]. simpl in Hq'. lia. }
  set (d := match dumps P obj with Some b => b | None => flushed P obj end).
  exists (put_node (loc3 (site fs base) k) (File d) fs1).
  assert (extends fs1 (put_node (loc3 (site fs base) k) (File d) fs1)) as Hext
    by (by apply extends_put_nondir).
  split_and!; [|by apply Hres|by unfold is_file; rewrite node_at_put_eq].
  unfold store_pickle, bind, mkdir_p. rewrite Hdirname, bool_decide_false, Hmk by done.
  unfold open_. rewrite (Hres fs1 (extends_refl _)).
  unfold is_dir in Hnodir.
  destruct (node_at fs1 (loc3 (site fs base) k)) as [[d'|]|] eqn:Hnode; [|done|].
  - unfold pickle_dump, d. destruct (dumps P obj); by rewrite put_put.
  - change (tail (loc3 (site fs base) k)) with (k.1.2 :: k.1.1 :: site fs base).
    rewrite Hdir. unfold pickle_dump, d. destruct (dumps P obj); by rewrite put_put.
Qed.

Lemma store3_returns K k obj b fs :
  plain3 k = true → no_dotdot base = true →
  accepted (join3 base k) = true →
  files_at (site fs base) K fs → no_dirs_at (site fs base) fs →
  is_dir fs (cwd fs) = true →
  dumps P obj = Some b →
  ∃ fs', store_pickle P (join3 base k) obj fs = (fs', inr ()).
Proof.
  intros Hk Hnd Hacc Hfiles Hdirs Hcwd Hd.
  destruct (store3_writes K k obj fs) as (fs' & Hst & _); [done..|].
  rewrite Hd in Hst. eauto.
Qed.
End returns.

Section history_returns.
Context {V R : Type} (P : Pickler V) (base : string).
Context (set : AssetStoreContext → V → M filesystem R) (key : AssetStoreContext → key3).
Hypothesis set_plain : ∀ ctx v fs,
  plain3 (key ctx) = true →
  (set ctx v fs).1 = (store_pickle P (join3 base (key ctx)) v fs).1.

(** After a history of plain calls on an unused file system the conditions
    of [store3_writes] hold. *)
Lemma run_calls_store3_writes calls fs0 k obj :
  no_dotdot base = true → unused base fs0 → is_dir fs0 (cwd fs0) = true →
  plain_calls key calls → plain3 k = true → accepted (join3 base k) = true →
  let fs := run_calls set calls fs0 in
  ∃ fs', store_pickle P (join3 base k) obj fs
         = (fs', match dumps P obj with
                 | Some _ => inr ()
                 | None => inl PicklingError
                 end) ∧
         resolve fs' (join3 base k) = inr (loc3 (site fs0 base) k) ∧
         is_file fs' (loc3 (site fs0 base) k) = true.
Proof.
  intros Hnd [Hnofile Hnodir] Hcwd Hplain Hk Hacc fs.
  pose proof (run_calls_extends P base set key set_plain calls fs0 Hplain) as Hext.
  rewrite <-(run_calls_site P base set key set_plain calls fs0 Hplain). fold fs.
  apply (store3_writes P base (key ∘ fst <$> calls) k obj); try done.
  - unfold fs. rewrite (run_calls_site P base set key set_plain) by done.
    rewrite <-(app_nil_r (_ <$> _)). apply (run_calls_files_at P base set key set_plain); [done|].
    intros q Hq. by rewrite Hnofile in Hq.
  - unfold fs. rewrite (run_calls_site P base set key set_plain) by done.
    by apply (run_calls_no_dirs_at P base set key set_plain).
  - unfold fs. rewrite (extends_cwd _ _ Hext). by apply (extends_dir _ _ Hext).
Qed.

Lemma run_calls_store3_returns calls fs0 k obj b :
  no_dotdot base = true → unused base fs0 → is_dir fs0 (cwd fs0) = true →
  plain_calls key calls → plain3 k = true → accepted (join3 base k) = true →
  dumps P obj = Some b →
  ∃ fs', store_pickle P (join3 base k) obj (run_calls set calls fs0) = (fs', inr ()).
Proof.
  intros Hnd Hunused Hcwd Hplain Hk Hacc Hd.
  destruct (run_calls_store3_writes calls fs0 k obj) as (fs' & Hst & _); [done..|].
  rewrite Hd in Hst. eauto.
Qed.
End history_returns.

Section writes_return.
Context {V : Type} (P : Pickler V).

Lemma run_scoped_returns self base fs0 calls ctx obj :
  PickledObjectFilesystemAssetStore.base_dir self = Some base →
  no_dotdot base = true → unused base fs0 → is_dir fs0 (cwd fs0) = true →
  is_Some (dumps P obj) →
  (∀ cv, cv ∈ calls → run_scoped_plain cv.1 = true) →
  run_scoped_plain ctx = true →
  path_accepted (PickledObjectFilesystemAssetStore._get_path self ctx) = true →
  ∃ fs',
    PickledObjectFilesystemAssetStore.set_asset P self ctx obj
      (run_calls (PickledObjectFilesystemAssetStore.set_asset P self) calls fs0)
    = (fs', inr None).
Proof.
  intros Hb Hnd Hunused Hcwd [b Hd] Hplain Hctx Hacc. rewrite run_scoped_plain_key in Hctx.
  rewrite (run_scoped_path_plain self base ctx Hb Hctx) in Hacc.
  destruct (run_calls_store3_returns P base
              (PickledObjectFilesystemAssetStore.set_asset P self) run_scoped_key
              (λ c v fs, run_scoped_set_plain P self base c v fs Hb)
              calls fs0 (run_scoped_key ctx) obj b) as [fs' Hst]; try done.
  { intros cv Hin. rewrite <-run_scoped_plain_key. by apply Hplain. }
  exists fs'.
  by rewrite run_scoped_set_asset, (run_scoped_path_plain self base ctx Hb Hctx), Hst.
Qed.

End writes_return.




(** ** Paths the operating system refuses *)

Lemma walk_refuses fs cur comps :
  Exists (λ c, too_long c = true) comps → ∃ e, walk fs cur comps = inl e.
Proof.
  intros Hex. revert cur. induction comps as [|c rest IH]; intros cur.
  { by apply Exists_nil in Hex. }
  simpl. destruct (node_at fs cur) as [[]|]; [eauto| |eauto].
  destruct (too_long c) eqn:Hc; [eauto|].
  apply Exists_cons in Hex as [Hc'|Hrest]; [congruence|]. by apply IH.
Qed.

Lemma forallb_false_Exists {A} (f : A → bool) l :
  forallb f l = false → Exists (λ x, f x = false) l.
Proof.
  induction l as [|x l IH]; [done|]. simpl. destruct (f x) eqn:Hx.
  - intros Hl. right. by apply IH.
  - intros _. by left.
Qed.

(** A path that is not accepted does not resolve, whatever exists. *)
Lemma resolve_refuses fs path : accepted path = false → ∃ e, resolve fs path = inl e.
Proof.
  unfold accepted, resolve. destruct (has_nul path); [eauto|]. simpl.
  destruct (decide (path = "")) as [->|Hne]; [eauto|].
  rewrite (bool_decide_false (path = "")) by done.
  destruct (decide (String.length path < PATH_MAX)%nat) as [Hlen|Hlen].
  - rewrite (bool_decide_true (_ < _)%nat), (bool_decide_false (_ ≤ _)%nat) by lia.
    simpl. intros Hcomps%forallb_false_Exists.
    apply walk_refuses. eapply Exists_impl; [exact Hcomps|].
    intros c Hc. by apply negb_false_iff.
  - rewrite (bool_decide_true (PATH_MAX ≤ _)%nat) by lia. eauto.
Qed.

Section refused.
Context {V : Type} (P : Pickler V).

Lemma store_pickle_refused filepath obj fs :
  accepted filepath = false →
  ∃ e, (store_pickle P filepath obj fs).2 = inl e ∧ is_path_error e = true.
Proof.
  intros Hacc. destruct (store_pickle P filepath obj fs) as [fs' [e|[]]] eqn:Hst; simpl.
  - exists e. split; [done|].
    apply store_pickle_error in Hst as [?|(_ & _ & p & Hres & _)]; [done|].
    destruct (resolve_refuses fs' filepath Hacc) as [e' He']. congruence.
  - apply store_pickle_written in Hst as (p & d & _ & Hres & _).
    destruct (resolve_refuses fs' filepath Hacc) as [e' He']. congruence.
Qed.

Lemma load_pickle_refused filepath fs :
  accepted filepath = false →
  ∃ e, load_pickle P filepath fs = (fs, inl e) ∧ is_path_error e = true.
Proof.
  intros Hacc. rewrite load_pickle_spec.
  destruct (resolve_refuses fs filepath Hacc) as [e He]. rewrite He.
  exists e. split; [done|].
  by apply resolve_error in He as [-> |[-> |[-> | ->]]].
Qed.

Lemma has_asset_refused fs filepath :
  accepted filepath = false →
  os_path_exists fs filepath && negb (os_path_isdir fs filepath) = false.
Proof.
  intros Hacc. unfold os_path_exists.
  by destruct (resolve_refuses fs filepath Hacc) as [e ->].
Qed.

(** X18. A context whose path the operating system does not accept (a NUL
    byte, [PATH_MAX] bytes or more, a component of more than [NAME_MAX]
    bytes) is never stored and never found, on any file system: [set_asset]
    of each pickling store raises an error of path handling (an [OSError]
    or [ValueError]; it neither returns nor gets as far as pickling),
    [get_asset] raises one as well, and [has_asset] returns [False]. *)
Theorem X18_refused_paths_are_never_stored (ctx : AssetStoreContext) (filepath : string) :
  accepted filepath = false →
  let refused {A} (res : filesystem * (error + A)) :=
    ∃ e, res.2 = inl e ∧ is_path_error e = true in
  (∀ self,
     PickledObjectFilesystemAssetStore._get_path self ctx = inr filepath →
     (∀ obj fs, refused (PickledObjectFilesystemAssetStore.set_asset P self ctx obj fs)) ∧
     (∀ fs, refused (PickledObjectFilesystemAssetStore.get_asset P self ctx fs))) ∧
  (∀ self,
     custom_filepath self ctx = inr filepath →
     (∀ obj fs,
        refused (CustomPathPickledObjectFilesystemAssetStore.set_asset P self ctx obj fs)) ∧
     (∀ fs, refused (CustomPathPickledObjectFilesystemAssetStore.get_asset P self ctx fs))) ∧
  (∀ self,
     VersionedPickledObjectFilesystemAssetStore._get_path self ctx = inr filepath →
     (∀ obj fs,
        refused (VersionedPickledObjectFilesystemAssetStore.set_asset P self ctx obj fs)) ∧
     (∀ fs, refused (VersionedPickledObjectFilesystemAssetStore.get_asset P self ctx fs)) ∧
     (∀ fs, VersionedPickledObjectFilesystemAssetStore.has_asset self ctx fs
            = (fs, inr false))).
Proof.
  intros Hacc refused.
  assert (∀ obj fs (k : filesystem → option AssetMaterialization),
    refused _ (finish (store_pickle P filepath obj fs) k)) as Hset.
  { intros obj fs k. destruct (store_pickle_refused filepath obj fs Hacc) as (e & He & ?).
    exists e. split; [|done].
    destruct (store_pickle P filepath obj fs) as [fs' [e'|[]]]; simpl in *; congruence. }
  assert (∀ fs, refused _ (load_pickle P filepath fs)) as Hget.
  { intros fs. destruct (load_pickle_refused filepath fs Hacc) as (e & -> & ?).
    by exists e. }
  split_and!; intros self Hpath.
  - split; [intros obj fs; rewrite run_scoped_set_asset, Hpath; apply Hset|].
    intros fs. rewrite run_scoped_get_asset, Hpath. apply Hget.
  - split; [intros obj fs; rewrite custom_set_asset, Hpath; apply Hset|].
    intros fs. rewrite custom_get_asset, Hpath. apply Hget.
  - split_and!; [intros obj fs; rewrite versioned_set_asset, Hpath; apply Hset| |].
    + intros fs. rewrite versioned_get_asset, Hpath. apply Hget.
    + intros fs. by rewrite versioned_has_asset, Hpath, has_asset_refused.
Qed.
End refused.

(** A version with a NUL byte. *)
Definition ctx_nul_version : AssetStoreContext :=
  AssetStoreContext_new "s" "out" None "pipe" {| solid_name := "s" |} None
    (Some (String "v" (String nul ""))).

Lemma X18_refused_paths_witness :
  (let w := VersionedPickledObjectFilesystemAssetStore.set_asset toy_pickle
              versioned_store_cache ctx_long_version (PyInt 1) empty_fs in
   w.2 = inl (OSError ENAMETOOLONG) ∧ os_path_isdir w.1 "/cache/s/out" = true ∧
   VersionedPickledObjectFilesystemAssetStore.has_asset versioned_store_cache
     ctx_long_version w.1 = (w.1, inr false)) ∧
  (let w := VersionedPickledObjectFilesystemAssetStore.set_asset toy_pickle
              versioned_store_cache ctx_nul_version (PyInt 1) empty_fs in
   w.2 = inl ValueError ∧
   (VersionedPickledObjectFilesystemAssetStore.get_asset toy_pickle versioned_store_cache
      ctx_nul_version w.1).2 = inl ValueError).
Proof.
  split.
  - intros w.
    destruct (X18_refused_paths_are_never_stored toy_pickle ctx_long_version
                ("/cache/s/out/" +:+ string_of_list_ascii (replicate 300 "v"%char))
                ltac:(vm_compute; reflexivity))
      as (_ & _ & Hversioned).
    destruct (Hversioned versioned_store_cache eq_refl) as (Hset & _ & Hhas).
    destruct (Hset (PyInt 1) empty_fs) as (e & He & _). fold w in He.
    split_and!; [|vm_compute; reflexivity|apply Hhas].
    rewrite He. f_equal. vm_compute in He. by injection He.
  - intros w.
    destruct (X18_refused_paths_are_never_stored toy_pickle ctx_nul_version
                ("/cache/s/out/" +:+ String "v" (String nul ""))
                ltac:(vm_compute; reflexivity))
      as (_ & _ & Hversioned).
    destruct (Hversioned versioned_store_cache eq_refl) as (Hset & Hget & _).
    destruct (Hset (PyInt 1) empty_fs) as (e & He & _). fold w in He.
    destruct (Hget w.1) as (e' & He' & _).
    split.
    + rewrite He. f_equal. vm_compute in He. by injection He.
    + rewrite He'. f_equal. vm_compute in He'. by injection He'.
Defined.

(** ** The directory of the file *)

Lemma makedirs_walk_made cur comps pos fs fs' :
  makedirs_walk cur comps pos fs = (fs', inr ()) →
  walk fs' cur comps = inr (lexical cur comps) ∧ is_dir fs' (lexical cur comps) = true.
Proof.
  revert cur pos fs. induction comps as [|c rest IH]; intros cur pos fs; simpl.
  - destruct (node_at fs cur) as [[]|] eqn:Hcur; intros [= <-]. split; [done|].
    by apply is_dir_Some.
  - destruct (has_nul c); [by intros [=]|]. case_bool_decide; [by intros [=]|].
    destruct (node_at fs cur) as [[]|] eqn:Hcur; try by intros [=].
    destruct (too_long c) eqn:Hc; [by intros [=]|].
    assert (∀ fs1, extends fs fs1 →
      makedirs_walk (enter cur c) rest (pos + String.length c + 1) fs1 = (fs', inr ()) →
      match node_at fs' cur with
      | Some (File _) => inl NotADirectoryError
      | Some Dir => walk fs' (enter cur c) rest
      | None => inl FileNotFoundError
      end = inr (lexical (enter cur c) rest) ∧
      is_dir fs' (lexical (enter cur c) rest) = true) as Hstep.
    { intros fs1 Hext Hmk. destruct (IH _ _ _ Hmk) as [Hwalk Hdir]. split; [|done].
      apply makedirs_walk_dirs_added, dirs_added_extends in Hmk.
      assert (is_dir fs' cur = true) as Hcur'.
      { apply (extends_dir _ _ Hmk), (extends_dir _ _ Hext). by apply is_dir_Some. }
      apply is_dir_Some in Hcur'. by rewrite Hcur'. }
    destruct (node_at fs (enter cur c)) eqn:Hnext.
    + apply Hstep, extends_refl.
    + apply Hstep. by apply extends_put_fresh.
Qed.

(** What [makedirs_walk] has accepted when it returns. *)
Lemma makedirs_walk_accepts cur comps pos fs fs' :
  makedirs_walk cur comps pos fs = (fs', inr ()) →
  Forall (λ c, has_nul c = false) comps ∧
  (comps ≠ [] → (pos + String.length (join_sep comps) < PATH_MAX)%nat).
Proof.
  revert cur pos fs. induction comps as [|c rest IH]; intros cur pos fs; simpl; [done|].
  destruct (has_nul c) eqn:Hnul; [by intros [=]|]. case_bool_decide as Hlen; [by intros [=]|].
  destruct (node_at fs cur) as [[]|] eqn:Hcur; try by intros [=].
  destruct (too_long c) eqn:Hc; [by intros [=]|].
  assert (∀ fs1,
    makedirs_walk (enter cur c) rest (pos + String.length c + 1) fs1 = (fs', inr ()) →
    Forall (λ c, has_nul c = false) (c :: rest) ∧
    (c :: rest ≠ [] → (pos + String.length (join_sep (c :: rest)) < PATH_MAX)%nat))
    as Hstep.
  { intros fs1 [Hrest Hbound]%IH. split; [by constructor|]. intros _.
    destruct rest as [|c' rest].
    - unfold mkdir_arg_length in Hlen. simpl in Hlen. simpl. lia.
    - specialize (Hbound ltac:(done)).
      rewrite join_sep_cons, !string_length_app by done.
      change (String.length "/") with 1%nat. lia. }
  destruct (node_at fs (enter cur c)); apply Hstep.
Qed.

Lemma mkdir_p_accepts path fs fs' :
  mkdir_p path fs = (fs', inr ()) →
  path ≠ "" ∧ has_nul path = false ∧ (String.length path < PATH_MAX)%nat.
Proof.
  unfold mkdir_p. case_bool_decide as Hne; [by intros [=]|].
  intros [Hnul Hlen]%makedirs_walk_accepts. split_and!; [done|..].
  - rewrite <-(join_split_sep path), has_nul_join_sep. by apply existsb_Forall_false.
  - specialize (Hlen (split_sep_nonempty path)). by rewrite join_split_sep in Hlen.
Qed.

Section directory.
Context {V : Type} (P : Pickler V).

Lemma store_pickle_directory filepath obj fs fs' :
  store_pickle P filepath obj fs = (fs', inr ()) →
  os_path_isdir fs' (os_path_dirname filepath) = true.
Proof.
  unfold store_pickle, bind.
  destruct (mkdir_p _ fs) as [fs1 [e|[]]] eqn:Hmk; [by intros [=]|]. intros Hrest.
  assert (extends fs1 fs') as Hext.
  { destruct (open_ filepath wb fs1) as [fs2 [e|p]] eqn:Hopen; [by injection Hrest|].
    apply open_wb_spec in Hopen as [[_ [? [=]]]|(p' & [= <-] & _ & Hnd & ->)].
    unfold pickle_dump in Hrest. destruct (dumps P obj); [|by injection Hrest].
    injection Hrest as <-. rewrite put_put. by apply extends_put_nondir. }
  pose proof (mkdir_p_dirs_added _ _ _ _ Hmk) as Hadd.
  pose proof (mkdir_p_accepts _ _ _ Hmk) as (_ & Hnul & Hlen).
  unfold mkdir_p in Hmk. case_bool_decide as Hne; [done|].
  apply makedirs_walk_made in Hmk as [Hwalk Hdir].
  unfold os_path_isdir, resolve. rewrite Hnul, bool_decide_false by done.
  rewrite bool_decide_false by lia.
  rewrite (start_extends fs1 fs') by done.
  assert (start fs1 (os_path_dirname filepath) = start fs (os_path_dirname filepath))
    as Hstart by (by apply start_extends, dirs_added_extends).
  rewrite Hstart, (walk_extends _ _ _ _ _ Hext Hwalk).
  by apply (extends_dir _ _ Hext).
Qed.

(** X13. [set_asset] makes the directory of the file: when it returns, on
    whatever file system it started, the directory part of the computed path
    is an existing directory and the path itself is a regular file, for each
    of the three pickling stores. *)
Theorem X13_set_asset_makes_the_directory (ctx : AssetStoreContext) (obj : V)
    (fs fs' : filesystem) (r : option AssetMaterialization) :
  let made filepath :=
    os_path_isdir fs' (os_path_dirname filepath) = true ∧
    os_path_exists fs' filepath = true ∧ os_path_isdir fs' filepath = false in
  (∀ self,
     PickledObjectFilesystemAssetStore.set_asset P self ctx obj fs = (fs', inr r) →
     ∃ filepath,
       PickledObjectFilesystemAssetStore._get_path self ctx = inr filepath ∧
       made filepath) ∧
  (∀ self,
     CustomPathPickledObjectFilesystemAssetStore.set_asset P self ctx obj fs = (fs', inr r) →
     ∃ filepath, custom_filepath self ctx = inr filepath ∧ made filepath) ∧
  (∀ self,
     VersionedPickledObjectFilesystemAssetStore.set_asset P self ctx obj fs = (fs', inr r) →
     ∃ filepath,
       VersionedPickledObjectFilesystemAssetStore._get_path self ctx = inr filepath ∧
       made filepath).
Proof.
  intros made.
  assert (∀ filepath, store_pickle P filepath obj fs = (fs', inr ()) → made filepath)
    as Hmade.
  { intros filepath Hst. split; [by eapply store_pickle_directory|].
    assert (os_path_exists fs' filepath && negb (os_path_isdir fs' filepath) = true)
      as [? ?%negb_true_iff]%andb_true_iff; [|done].
    apply exists_not_isdir.
    apply store_pickle_written in Hst as (p & d & _ & Hres & Hp).
    exists p. split; [done|]. unfold is_file. by rewrite Hp. }
  split_and!; intros self.
  - rewrite run_scoped_set_asset.
    destruct (PickledObjectFilesystemAssetStore._get_path self ctx) as [|filepath];
      [done|].
    intros [Hst _]%finish_inr. eauto.
  - rewrite custom_set_asset. destruct (custom_filepath self ctx) as [|filepath]; [done|].
    intros [Hst _]%finish_inr. eauto.
  - rewrite versioned_set_asset.
    destruct (VersionedPickledObjectFilesystemAssetStore._get_path self ctx)
      as [|filepath]; [done|].
    intros [Hst _]%finish_inr. eauto.
Qed.
End directory.

Lemma X13_set_asset_makes_the_directory_witness :
  let fs' := (PickledObjectFilesystemAssetStore.set_asset toy_pickle store_tmp_x ctx_r1
                (PyInt 1) empty_fs).1 in
  os_path_isdir empty_fs "/tmp/x/r1/a" = false ∧
  os_path_isdir fs' "/tmp/x/r1/a" = true ∧
  os_path_exists fs' "/tmp/x/r1/a/result" = true ∧
  os_path_isdir fs' "/tmp/x/r1/a/result" = false.
Proof.
  intros fs'. split; [reflexivity|].
  destruct (proj1 (X13_set_asset_makes_the_directory toy_pickle ctx_r1 (PyInt 1)
                     empty_fs fs' None) store_tmp_x) as (filepath & Hpath & Hmade).
  { vm_compute. reflexivity. }
  vm_compute in Hpath. injection Hpath as <-. exact Hmade.
Defined.

(** ** A directory is not an asset *)

Section directories.
Context {V : Type} (P : Pickler V).

(** X14. A directory never counts as a stored object: when the computed path
    is an existing directory, [has_asset] of the version-scoped store
    returns [False] and [get_asset] raises [IsADirectoryError]; this is what
    a context with an empty version meets once a value was stored under
    the same step key and output name with a plain version. *)
Theorem X14_directory_is_not_an_asset
    (self : VersionedPickledObjectFilesystemAssetStore.t) (ctx : AssetStoreContext)
    (fs : filesystem) (filepath : string) :
  VersionedPickledObjectFilesystemAssetStore._get_path self ctx = inr filepath →
  os_path_isdir fs filepath = true →
  VersionedPickledObjectFilesystemAssetStore.has_asset self ctx fs = (fs, inr false) ∧
  VersionedPickledObjectFilesystemAssetStore.get_asset P self ctx fs
  = (fs, inl IsADirectoryError).
Proof.
  intros Hpath Hdir.
  rewrite versioned_has_asset, versioned_get_asset, Hpath, load_pickle_spec, Hdir.
  rewrite andb_false_r. split; [done|].
  unfold os_path_isdir, is_dir in Hdir. destruct (resolve fs filepath) as [|p]; [done|].
  by destruct (node_at fs p) as [[]|].
Qed.
End directories.

Definition ctx_empty_version : AssetStoreContext :=
  AssetStoreContext_new "s" "out" None "pipe" {| solid_name := "s" |} None (Some "").

Lemma X14_directory_is_not_an_asset_witness :
  let fs' := (VersionedPickledObjectFilesystemAssetStore.set_asset toy_pickle
                versioned_store_cache (ctx_v7 None "pipe") (PyInt 42) empty_fs).1 in
  VersionedPickledObjectFilesystemAssetStore._get_path versioned_store_cache
    ctx_empty_version = inr "/cache/s/out/" ∧
  VersionedPickledObjectFilesystemAssetStore.has_asset versioned_store_cache
    ctx_empty_version fs' = (fs', inr false) ∧
  VersionedPickledObjectFilesystemAssetStore.get_asset toy_pickle versioned_store_cache
    ctx_empty_version fs' = (fs', inl IsADirectoryError).
Proof.
  intros fs'. split; [reflexivity|].
  apply (X14_directory_is_not_an_asset toy_pickle versioned_store_cache
           ctx_empty_version fs' "/cache/s/out/"); [reflexivity|].
  vm_compute. reflexivity.
Defined.

(** ** The resources *)

(** The resource-initialisation context, reduced to what the resource
    functions read. *)
Record InitResourceContext : Type := { resource_config : gmap string pyval }.

(** Modelled from the spec: [check.opt_str_param] of [dagster.check], which
    is not part of the sources under study: [None] and strings pass, anything
    else fails fast. *)
Definition check_opt_str_param (obj : pyval) (param_name : string) : error + option string :=
  match obj with
  | PyNone => inr None
  | PyStr s => inr (Some s)
  | _ => inl (CheckError param_name)
  end.

(** [d[key]] *)
Definition dict_getitem (d : gmap string pyval) (key : string) : error + pyval :=
  match d !! key with
  | Some v => inr v
  | None => inl KeyError
  end.

(** The constructors of the three pickling stores ([write_mode] and
    [read_mode] are the constants the methods open files with). *)
Definition PickledObjectFilesystemAssetStore_init (base_dir : pyval)
    : error + PickledObjectFilesystemAssetStore.t :=
  match check_opt_str_param base_dir "base_dir" with
  | inl e => inl e
  | inr b => inr {| PickledObjectFilesystemAssetStore.base_dir := b |}
  end.

Definition CustomPathPickledObjectFilesystemAssetStore_init (base_dir : pyval)
    : error + CustomPathPickledObjectFilesystemAssetStore.t :=
  match check_opt_str_param base_dir "base_dir" with
  | inl e => inl e
  | inr b => inr {| CustomPathPickledObjectFilesystemAssetStore.base_dir := b |}
  end.

Definition VersionedPickledObjectFilesystemAssetStore_init (base_dir : pyval)
    : error + VersionedPickledObjectFilesystemAssetStore.t :=
  match check_opt_str_param base_dir "base_dir" with
  | inl e => inl e
  | inr b => inr {| VersionedPickledObjectFilesystemAssetStore.base_dir := b |}
  end.

Definition mem_asset_store {V : Type} (_ : InitResourceContext) : InMemoryAssetStore.t V :=
  InMemoryAssetStore.init.

Definition fs_asset_store (init_context : InitResourceContext)
    : error + PickledObjectFilesystemAssetStore.t :=
  match dict_getitem (resource_config init_context) "base_dir" with
  | inl e => inl e
  | inr base_dir => PickledObjectFilesystemAssetStore_init base_dir
  end.

Definition custom_path_fs_asset_store (init_context : InitResourceContext)
    : error + CustomPathPickledObjectFilesystemAssetStore.t :=
  match dict_getitem (resource_config init_context) "base_dir" with
  | inl e => inl e
  | inr base_dir => CustomPathPickledObjectFilesystemAssetStore_init base_dir
  end.

Definition versioned_filesystem_asset_store (init_context : InitResourceContext)
    : error + VersionedPickledObjectFilesystemAssetStore.t :=
  match dict_getitem (resource_config init_context) "base_dir" with
  | inl e => inl e
  | inr base_dir => VersionedPickledObjectFilesystemAssetStore_init base_dir
  end.

(** The resource config the three config schemas
    [{"base_dir": Field(StringSource, default_value=".", is_required=False)}]
    produce from what the user configured, if anything. *)
Definition schema_config (configured : option string) : gmap string pyval :=
  {[ "base_dir" := PyStr (default "." configured) ]}.

Lemma site_dot fs : site fs "." = cwd fs.
Proof. done. Qed.

Section resources.
Context {V : Type} (P : Pickler V).

(** X15. With the default configuration the three filesystem resources build
    stores whose base directory is ["."]: for key fields that are plain path
    segments the run-scoped path is [./run/step/output] and the
    version-scoped path [./step/output/version], and a [set_asset] that
    returns leaves its file at these names below the working directory of
    the process; the in-memory resource builds an empty store, in which
    nothing is found. *)
Theorem X15_default_resources_store_below_cwd (ctx : AssetStoreContext) :
  let init_context := {| resource_config := schema_config None |} in
  (∃ self, fs_asset_store init_context = inr self ∧
     ∀ run, source_run_id ctx = Some run → run_scoped_plain ctx = true →
       PickledObjectFilesystemAssetStore._get_path self ctx
       = inr ("./" +:+ run +:+ "/" +:+ step_key ctx +:+ "/" +:+ output_name ctx) ∧
       ∀ obj fs fs' r,
         PickledObjectFilesystemAssetStore.set_asset P self ctx obj fs = (fs', inr r) →
         is_file fs' (output_name ctx :: step_key ctx :: run :: cwd fs) = true) ∧
  (∃ self, versioned_filesystem_asset_store init_context = inr self ∧
     ∀ v, version ctx = Some v → plain3 (versioned_key ctx) = true →
       VersionedPickledObjectFilesystemAssetStore._get_path self ctx
       = inr ("./" +:+ step_key ctx +:+ "/" +:+ output_name ctx +:+ "/" +:+ v) ∧
       ∀ obj fs fs' r,
         VersionedPickledObjectFilesystemAssetStore.set_asset P self ctx obj fs
           = (fs', inr r) →
         is_file fs' (v :: output_name ctx :: step_key ctx :: cwd fs) = true) ∧
  (∃ self, custom_path_fs_asset_store init_context = inr self ∧
     CustomPathPickledObjectFilesystemAssetStore.base_dir self = Some ".") ∧
  InMemoryAssetStore.get_asset (value := V) ctx (mem_asset_store init_context)
  = (mem_asset_store init_context, inl KeyError).
Proof.
  intros init_context.
  assert (∀ filepath obj fs fs',
    store_pickle P filepath obj fs = (fs', inr ()) → is_file fs' (site fs filepath) = true)
    as Hwritten.
  { intros filepath obj fs fs' Hst.
    pose proof (store_pickle_extends P _ _ _ _ _ Hst) as Hext.
    apply store_pickle_written in Hst as (p & d & _ & Hres & Hp).
    apply resolve_site in Hres. rewrite (site_extends fs fs') in Hres by done.
    subst p. unfold is_file. by rewrite Hp. }
  split_and!.
  - exists {| PickledObjectFilesystemAssetStore.base_dir := Some "." |}.
    split; [reflexivity|]. intros run Hrun Hplain.
    rewrite run_scoped_plain_key in Hplain.
    pose proof Hplain as (Hr & Hs & Ho)%plain3_spec.
    unfold run_scoped_key in Hr, Hs, Ho. rewrite Hrun in Hr. simpl in Hr, Hs, Ho.
    assert (PickledObjectFilesystemAssetStore._get_path
              {| PickledObjectFilesystemAssetStore.base_dir := Some "." |} ctx
            = inr (join3 "." (run_scoped_key ctx))) as Hpath
      by (by apply run_scoped_path_plain).
    split.
    + rewrite Hpath. f_equal. unfold join3, run_scoped_key. rewrite Hrun. simpl.
      by rewrite join_three_string.
    + intros obj fs fs' r. rewrite run_scoped_set_asset, Hpath.
      intros [Hst%Hwritten _]%finish_inr.
      rewrite site_join3, site_dot in Hst by done.
      unfold loc3, run_scoped_key in Hst. by rewrite Hrun in Hst.
  - exists {| VersionedPickledObjectFilesystemAssetStore.base_dir := Some "." |}.
    split; [reflexivity|]. intros v Hv Hplain.
    pose proof Hplain as (Hs & Ho & Hver)%plain3_spec.
    unfold versioned_key in Hs, Ho, Hver. rewrite Hv in Hver. simpl in Hs, Ho, Hver.
    assert (VersionedPickledObjectFilesystemAssetStore._get_path
              {| VersionedPickledObjectFilesystemAssetStore.base_dir := Some "." |} ctx
            = inr (join3 "." (versioned_key ctx))) as Hpath
      by (by apply versioned_path_plain).
    split.
    + rewrite Hpath. f_equal. unfold join3, versioned_key. rewrite Hv. simpl.
      by rewrite join_three_string.
    + intros obj fs fs' r. rewrite versioned_set_asset, Hpath.
      intros [Hst%Hwritten _]%finish_inr.
      rewrite site_join3, site_dot in Hst by done.
      unfold loc3, versioned_key in Hst. by rewrite Hv in Hst.
  - exists {| CustomPathPickledObjectFilesystemAssetStore.base_dir := Some "." |}.
    split; reflexivity.
  - done.
Qed.
End resources.

Lemma X15_default_resources_witness :
  ∃ self, fs_asset_store {| resource_config := schema_config None |} = inr self ∧
    PickledObjectFilesystemAssetStore._get_path self ctx_r1 = inr "./r1/a/result" ∧
    let fs' := (PickledObjectFilesystemAssetStore.set_asset toy_pickle self ctx_r1
                  (PyInt 1) home_fs).1 in
    is_file fs' ["result"; "a"; "r1"; "u"; "home"] = true.
Proof.
  destruct (proj1 (X15_default_resources_store_below_cwd toy_pickle ctx_r1))
    as (self & Hself & Hstore).
  exists self. split; [exact Hself|].
  destruct (Hstore "r1" eq_refl eq_refl) as [Hpath Hfile].
  split; [exact Hpath|]. intros fs'.
  apply (Hfile (PyInt 1) home_fs fs' None).
  injection Hself as <-. vm_compute. reflexivity.
Defined.

(** ** Well-formed file systems *)

(** Every node other than the root sits in a directory, under a name the
    system allows. *)
Definition well_formed (fs : filesystem) : Prop :=
  ∀ c q, is_Some (node_at fs (c :: q)) →
    is_dir fs q = true ∧ has_nul c = false ∧ too_long c = false.

Lemma well_formed_empty_fs : well_formed empty_fs.
Proof. intros c q [n Hn]. simpl in Hn. by rewrite lookup_empty in Hn. Qed.

Lemma well_formed_put p n fs :
  well_formed fs → is_dir fs (tail p) = true → n = Dir ∨ is_dir fs p = false →
  (∀ c, node_at fs (c :: p) = None ∨ n = Dir) →
  (∀ c q, p = c :: q → has_nul c = false ∧ too_long c = false) →
  well_formed (put_node p n fs).
Proof.
  intros Hwf Hparent Hkind Hchildren Hname c q Hcq.
  destruct (decide (p = c :: q)) as [->|Hne].
  - split; [|by apply (Hname c q)]. simpl in Hparent. unfold is_dir in *.
    destruct (decide (c :: q = q)) as [Heq|Hne']; [|by rewrite node_at_put_ne].
    exfalso. apply (f_equal List.length) in Heq. simpl in Heq. lia.
  - rewrite node_at_put_ne in Hcq by done. destruct (Hwf c q Hcq) as [Hq Hnames].
    split; [|done].
    unfold is_dir in *. destruct (decide (p = q)) as [->|Hne']; [|by rewrite node_at_put_ne].
    destruct q as [|c' q]; [done|]. rewrite node_at_put_eq by done.
    destruct (Hchildren c) as [Hnone| ->]; [|done].
    rewrite Hnone in Hcq. by destruct Hcq.
Qed.

Lemma well_formed_parent fs c q :
  well_formed fs → is_dir fs (c :: q) = true → is_dir fs q = true.
Proof. intros Hwf Hd. apply (Hwf c). apply is_dir_Some in Hd. by rewrite Hd. Qed.

(** The names on the way to a node are names the system allows. *)
Lemma well_formed_names fs q :
  well_formed fs → is_Some (node_at fs q) →
  Forall (λ n, has_nul n = false ∧ too_long n = false) q.
Proof.
  intros Hwf. induction q as [|c q IH]; [by constructor|]. intros Hnode.
  destruct (Hwf c q Hnode) as [Hq Hc]. constructor; [done|].
  apply IH. apply is_dir_Some in Hq. by rewrite Hq.
Qed.

Lemma well_formed_enter fs cur c :
  well_formed fs → is_dir fs cur = true → node_at fs (enter cur c) = None →
  enter cur c = c :: cur.
Proof.
  intros Hwf Hcur Hnone. unfold enter in *.
  case_bool_decide.
  { apply is_dir_Some in Hcur. congruence. }
  case_bool_decide; [|done].
  destruct cur as [|x cur]; [done|]. simpl in Hnone.
  apply well_formed_parent, is_dir_Some in Hcur; [|done]. congruence.
Qed.

Lemma makedirs_walk_well_formed cur comps pos fs fs' r :
  well_formed fs → makedirs_walk cur comps pos fs = (fs', r) → well_formed fs'.
Proof.
  revert cur pos fs. induction comps as [|c rest IH]; intros cur pos fs Hwf; simpl.
  - destruct (node_at fs cur) as [[]|]; by intros [= <- <-].
  - destruct (has_nul c) eqn:Hnul; [by intros [= <- <-]|].
    case_bool_decide; [by intros [= <- <-]|].
    destruct (node_at fs cur) as [[]|] eqn:Hcur; try by intros [= <- <-].
    destruct (too_long c) eqn:Hlong; [by intros [= <- <-]|].
    destruct (node_at fs (enter cur c)) eqn:Hnext; [by apply IH|].
    apply IH. apply is_dir_Some in Hcur.
    pose proof (well_formed_enter fs cur c Hwf Hcur Hnext) as Henter.
    apply well_formed_put; [done| |by left|by right|].
    + by rewrite Henter.
    + rewrite Henter. by intros c0 q [= <- <-].
Qed.

(** Where resolution arrives: at an existing node, or one name below an
    existing directory. *)
Lemma walk_arrives fs cur comps p :
  well_formed fs → walk fs cur comps = inr p → comps ≠ [] →
  is_Some (node_at fs p) ∨
  ∃ c, c ∈ comps ∧ too_long c = false ∧ is_dir fs (tail p) = true ∧ head p = Some c.
Proof.
  intros Hwf. revert cur. induction comps as [|c rest IH]; intros cur; [done|].
  simpl. destruct (node_at fs cur) as [[]|] eqn:Hcur; try done.
  destruct (too_long c) eqn:Hc; [done|]. intros Hwalk _.
  destruct rest as [|c' rest].
  - injection Hwalk as <-. unfold enter. case_bool_decide; [left; by rewrite Hcur|].
    case_bool_decide.
    + left. destruct cur as [|x cur]; [done|]. simpl.
      assert (is_dir fs cur = true) as Hd
        by (apply (well_formed_parent fs x); [done|by apply is_dir_Some]).
      apply is_dir_Some in Hd. by rewrite Hd.
    + right. exists c. split_and!; [by left|done|by apply is_dir_Some|done].
  - destruct (IH (enter cur c) Hwalk) as [?|(c0 & Hin & ?)]; [done|by left|right].
    exists c0. split; [by right|done].
Qed.

Lemma resolve_inr fs path p :
  resolve fs path = inr p →
  has_nul path = false ∧ path ≠ "" ∧ (String.length path < PATH_MAX)%nat ∧
  walk fs (start fs path) (split_sep path) = inr p.
Proof.
  unfold resolve. destruct (has_nul path); [done|].
  case_bool_decide; [done|]. case_bool_decide; [done|]. intros Hwalk.
  split_and!; [done..|lia|done].
Qed.

Section well_formed.
Context {V : Type} (P : Pickler V).

Lemma well_formed_put_file p d fs :
  well_formed fs → is_dir fs p = false →
  is_file fs p = true ∨
  (is_dir fs (tail p) = true ∧ ∃ c, head p = Some c ∧ has_nul c = false ∧ too_long c = false) →
  well_formed (put_node p (File d) fs).
Proof.
  intros Hwf Hnd Hp c q Hcq.
  destruct (decide (p = c :: q)) as [->|Hne].
  - assert (is_dir fs q = true ∧ has_nul c = false ∧ too_long c = false) as [Hq Hc].
    { destruct Hp as [Hf|[Hq (c0 & [= <-] & ?)]]; [|done]. apply (Hwf c).
      apply is_file_Some in Hf as [d' Hf]. by rewrite Hf. }
    split; [|done]. unfold is_dir in *.
    destruct (decide (c :: q = q)) as [Heq|Hne']; [|by rewrite node_at_put_ne].
    exfalso. apply (f_equal List.length) in Heq. simpl in Heq. lia.
  - rewrite node_at_put_ne in Hcq by done. destruct (Hwf c q Hcq) as [Hq Hc].
    split; [|done].
    destruct (decide (p = q)) as [->|Hne']; [congruence|].
    unfold is_dir in *. by rewrite node_at_put_ne.
Qed.

(** [store_pickle] keeps the file system well-formed. *)
Lemma store_pickle_well_formed filepath obj fs fs' r :
  well_formed fs → store_pickle P filepath obj fs = (fs', r) → well_formed fs'.
Proof.
  intros Hwf. unfold store_pickle, bind.
  destruct (mkdir_p _ fs) as [fs1 [e|[]]] eqn:Hmk.
  all: assert (well_formed fs1) as Hwf1
    by (unfold mkdir_p in Hmk; case_bool_decide;
        [by injection Hmk as <-|by eapply makedirs_walk_well_formed]).
  { by intros [= <- <-]. }
  unfold open_. destruct (resolve fs1 filepath) as [e|p] eqn:Hres; [by intros [= <- <-]|].
  destruct (node_at fs1 p) as [[d|]|] eqn:Hp; [| by intros [= <- <-] |].
  - unfold pickle_dump. destruct (dumps P obj); intros [= <- <-]; rewrite put_put;
      (apply well_formed_put_file; [done|..]; unfold is_dir, is_file; by rewrite Hp; auto).
  - destruct (is_dir fs1 (tail p)) eqn:Hparent; [|by intros [= <- <-]].
    assert (∃ c, head p = Some c ∧ has_nul c = false ∧ too_long c = false) as Hname.
    { apply resolve_inr in Hres as (Hnul & _ & _ & Hwalk).
      destruct (walk_arrives _ _ _ _ Hwf1 Hwalk (split_sep_nonempty _))
        as [Hsome|(c & Hin & Hc & _ & Hhead)].
      { rewrite Hp in Hsome. by destruct Hsome. }
      exists c. split_and!; [done| |done].
      apply has_nul_split_sep in Hnul. by apply (proj1 (Forall_forall _ _) Hnul). }
    unfold pickle_dump. destruct (dumps P obj); intros [= <- <-]; rewrite put_put;
      (apply well_formed_put_file; [done|..]; unfold is_dir; by rewrite ?Hp; auto).
Qed.
End well_formed.


(** ** [normpath] and [abspath], lexically *)

Lemma split_sep_components s : Forall (λ c, has_sep c = false) (split_sep s).
Proof.
  induction s as [|x s IH]; simpl; [by repeat constructor|].
  destruct (is_sep x) eqn:Hx; [by constructor|].
  destruct (split_sep s) as [|w ws]; [by repeat constructor; simpl; rewrite Hx|].
  apply Forall_cons in IH as [Hw Hws]. constructor; [|done]. simpl. by rewrite Hx, Hw.
Qed.

Lemma enter_segments cur c :
  has_sep c = false → Forall (λ n, is_segment n = true) cur →
  Forall (λ n, is_segment n = true) (enter cur c).
Proof.
  intros Hc Hcur. unfold enter. case_bool_decide as Htriv; [done|].
  case_bool_decide as Hdd.
  - destruct cur; [done|]. by apply Forall_cons in Hcur as [_ ?].
  - constructor; [|done]. apply is_segment_spec. naive_solver.
Qed.

Lemma lexical_segments cur comps :
  Forall (λ c, has_sep c = false) comps → Forall (λ n, is_segment n = true) cur →
  Forall (λ n, is_segment n = true) (lexical cur comps).
Proof.
  revert cur. induction comps as [|c comps IH]; intros cur Hcomps Hcur; [done|].
  apply Forall_cons in Hcomps as [Hc Hcomps]. simpl. apply IH; [done|].
  by apply enter_segments.
Qed.

(** Below the root, [normpath] does what resolution does. *)
Lemma norm_step_enter nc comp :
  Forall (λ n, is_segment n = true) nc → norm_step true nc comp = enter nc comp.
Proof.
  intros Hnc. unfold norm_step, enter. case_bool_decide; [done|].
  destruct (decide (comp = "..")) as [->|Hne].
  - rewrite (bool_decide_false (".." ≠ "..")) by (by intros ?).
    rewrite (bool_decide_true (".." = "..")) by done. simpl.
    rewrite bool_decide_false; [done|].
    destruct nc as [|n nc]; [done|]. simpl. intros [= ->].
    apply Forall_cons in Hnc as [Hn _]. by apply is_segment_spec in Hn as (_ & _ & _ & ?).
  - rewrite (bool_decide_true (comp ≠ "..")) by done.
    by rewrite (bool_decide_false (comp = "..")).
Qed.

Lemma norm_fold_lexical nc comps :
  Forall (λ c, has_sep c = false) comps → Forall (λ n, is_segment n = true) nc →
  foldl (norm_step true) nc comps = lexical nc comps.
Proof.
  revert nc. induction comps as [|c comps IH]; intros nc Hcomps Hnc; [done|].
  apply Forall_cons in Hcomps as [Hc Hcomps]. simpl.
  rewrite norm_step_enter by done. apply IH; [done|]. by apply enter_segments.
Qed.

Lemma lexical_names cur names :
  Forall (λ n, is_segment n = true) names → lexical cur names = (reverse names ++ cur)%list.
Proof.
  revert cur. induction names as [|n names IH]; intros cur Hnames; [done|].
  apply Forall_cons in Hnames as [Hn Hnames]. simpl.
  rewrite enter_segment, IH, reverse_cons by done. by rewrite <-List.app_assoc.
Qed.

Lemma split_join_sep names :
  names ≠ [] → Forall (λ n, has_sep n = false) names → split_sep (join_sep names) = names.
Proof.
  induction names as [|n names IH]; [done|]. intros _ [Hn Hnames]%Forall_cons.
  destruct names as [|m names]; [by apply split_sep_no_sep|].
  change (join_sep (n :: m :: names)) with (n +:+ "/" +:+ join_sep (m :: names)).
  by rewrite split_sep_app_sep, split_sep_no_sep, IH.
Qed.

Lemma segments_no_sep names :
  Forall (λ n, is_segment n = true) names → Forall (λ n, has_sep n = false) names.
Proof. intros H. eapply Forall_impl; [exact H|]. by intros n [? _]%is_segment_spec. Qed.

(** The components of a string of [n] separators followed by joined names. *)
Lemma lexical_repeat_sep n names cur :
  Forall (λ n, is_segment n = true) names →
  lexical cur (split_sep (repeat_sep (S n) +:+ join_sep names)) = (reverse names ++ cur)%list.
Proof.
  intros Hnames. induction n as [|n IH].
  - change (repeat_sep 1 +:+ join_sep names) with (String sep (join_sep names)).
    simpl. destruct names as [|m names]; [done|].
    rewrite split_join_sep by (done || by apply segments_no_sep).
    change (enter cur "") with cur. by apply lexical_names.
  - change (repeat_sep (S (S n)) +:+ join_sep names)
      with (String sep (repeat_sep (S n) +:+ join_sep names)).
    simpl. change (enter cur "") with cur. apply IH.
Qed.

Lemma initial_slashes_absolute path :
  startswith_sep path = true → ∃ n, initial_slashes path = S n.
Proof.
  destruct path as [|c1 [|c2 [|c3 path]]]; simpl; [done|..]; intros ->; simpl;
    repeat case_match; eauto.
Qed.

Lemma repeat_sep_S n s : repeat_sep (S n) +:+ s = String sep (repeat_sep n +:+ s).
Proof. done. Qed.

Lemma normpath_absolute path :
  startswith_sep path = true →
  ∃ n, os_path_normpath path
       = repeat_sep (S n) +:+ join_sep (reverse (lexical [] (split_sep path))).
Proof.
  intros Habs. destruct (initial_slashes_absolute path Habs) as [n Hn]. exists n.
  unfold os_path_normpath. rewrite bool_decide_false by (by destruct path).
  rewrite Hn, (bool_decide_true (S n ≠ 0)) by done.
  rewrite norm_fold_lexical by (apply split_sep_components || done).
  rewrite repeat_sep_S. by rewrite bool_decide_false.
Qed.

(** [normpath] of an absolute path is absolute and denotes the same
    location. *)
Lemma normpath_site fs path :
  startswith_sep path = true →
  startswith_sep (os_path_normpath path) = true ∧
  site fs (os_path_normpath path) = site fs path.
Proof.
  intros Habs. destruct (normpath_absolute path Habs) as [n ->]. split; [done|].
  set (names := reverse (lexical [] (split_sep path))).
  assert (start fs (repeat_sep (S n) +:+ join_sep names) = []) as Hs1 by done.
  assert (start fs path = []) as Hs2 by (unfold start; by rewrite Habs).
  unfold site. rewrite Hs1, Hs2, lexical_repeat_sep.
  - unfold names. by rewrite reverse_involutive, app_nil_r.
  - apply Forall_reverse, lexical_segments; [apply split_sep_components|done].
Qed.

Lemma getcwd_site fs :
  Forall (λ n, is_segment n = true) (cwd fs) →
  lexical [] (split_sep (os_getcwd fs)) = cwd fs.
Proof.
  intros Hcwd. unfold os_getcwd.
  change ("/" +:+ join_sep (reverse (cwd fs)))
    with (repeat_sep 1 +:+ join_sep (reverse (cwd fs))).
  rewrite lexical_repeat_sep by (by apply Forall_reverse).
  by rewrite reverse_involutive, app_nil_r.
Qed.

(** [abspath] is [normpath] of an absolute path that denotes the same
    location. *)
Lemma abspath_normal fs filepath :
  Forall (λ n, is_segment n = true) (cwd fs) →
  ∃ path, startswith_sep path = true ∧
          os_path_abspath fs filepath = os_path_normpath path ∧
          site fs path = site fs filepath.
Proof.
  intros Hcwd. unfold os_path_abspath.
  destruct (startswith_sep filepath) eqn:Habs; [by exists filepath|].
  pose proof (getcwd_site fs Hcwd) as Hg.
  assert (os_getcwd fs ≠ "") as Hne by done.
  assert (startswith_sep (os_getcwd fs) = true) as Hgabs by done.
  assert (site fs filepath = lexical (cwd fs) (split_sep filepath)) as Hrel
    by (unfold site, start; by rewrite Habs).
  remember (os_getcwd fs) as g eqn:Heqg. clear Heqg.
  exists (join_step g filepath). split_and!; [|done|]; rewrite ?Hrel; unfold join_step;
    rewrite Habs, (bool_decide_false _ Hne), orb_false_l;
    destruct (endswith_sep g) eqn:Hend.
  - by rewrite startswith_sep_app.
  - by rewrite startswith_sep_app.
  - apply endswith_sep_inv in Hend as [g' ->].
    rewrite split_sep_trailing, lexical_app in Hg.
    change (lexical (lexical [] (split_sep g')) [""]) with (lexical [] (split_sep g')) in Hg.
    unfold site, start. rewrite startswith_sep_app, Hgabs by done.
    by rewrite string_app_assoc, split_sep_app_sep, lexical_app, Hg.
  - unfold site, start. rewrite startswith_sep_app, Hgabs by done.
    by rewrite split_sep_app_sep, lexical_app, Hg.
Qed.

(** Walking down names to a node of a well-formed file system. *)
Lemma walk_names fs names :
  well_formed fs → Forall (λ n, is_segment n = true) names →
  is_Some (node_at fs (reverse names)) →
  walk fs [] names = inr (reverse names).
Proof.
  intros Hwf. induction names as [|n names IH] using rev_ind; [done|].
  intros [Hnames [Hn _]%Forall_cons]%Forall_app. rewrite reverse_app. simpl.
  intros Hnode. destruct (Hwf _ _ Hnode) as (Hparent & _ & Hlong).
  rewrite walk_app, IH; [|done|apply is_dir_Some in Hparent; by rewrite Hparent].
  rewrite walk_singleton by done. by rewrite enter_segment.
Qed.

Lemma walk_repeat_sep fs n names :
  Forall (λ n, is_segment n = true) names →
  walk fs [] (split_sep (repeat_sep (S n) +:+ join_sep names)) = walk fs [] names
  ∨ (names = [] ∧ walk fs [] (split_sep (repeat_sep (S n) +:+ join_sep names)) = inr []).
Proof.
  intros Hnames. induction n as [|n IH].
  - rewrite repeat_sep_S. change (repeat_sep 0 +:+ join_sep names) with (join_sep names).
    simpl. destruct names as [|m names]; [by right|left].
    by rewrite split_join_sep by (done || by apply segments_no_sep).
  - rewrite repeat_sep_S. simpl. apply IH.
Qed.

Lemma has_nul_repeat_sep n : has_nul (repeat_sep n) = false.
Proof. induction n as [|n IH]; [done|]. simpl. by rewrite IH. Qed.

(** In a well-formed file system, [normpath] of an absolute path that
    denotes an existing node resolves to that node, unless it is too
    long. *)
Lemma resolve_normpath fs path :
  well_formed fs → startswith_sep path = true →
  is_Some (node_at fs (site fs path)) →
  (String.length (os_path_normpath path) < PATH_MAX)%nat →
  resolve fs (os_path_normpath path) = inr (site fs path).
Proof.
  intros Hwf Habs Hnode. destruct (normpath_absolute path Habs) as [n Hnorm].
  assert (site fs path = lexical [] (split_sep path)) as Hsite
    by (unfold site, start; by rewrite Habs).
  rewrite Hsite in *. set (L := lexical [] (split_sep path)) in *.
  assert (Forall (λ n, is_segment n = true) (reverse L)) as Hnames
    by (apply Forall_reverse, lexical_segments; [apply split_sep_components|done]).
  assert (has_nul (repeat_sep (S n) +:+ join_sep (reverse L)) = false) as Hnul.
  { rewrite has_nul_app, has_nul_repeat_sep, has_nul_join_sep. simpl.
    apply existsb_Forall_false, Forall_reverse.
    eapply Forall_impl; [by apply (well_formed_names fs L)|]. by intros c [? _]. }
  rewrite Hnorm. intros Hlen. unfold resolve. rewrite Hnul.
  rewrite (bool_decide_false (_ = "")) by (by rewrite repeat_sep_S).
  rewrite bool_decide_false by lia.
  assert (start fs (repeat_sep (S n) +:+ join_sep (reverse L)) = []) as -> by done.
  destruct (walk_repeat_sep fs n (reverse L) Hnames) as [-> |[Hnil ->]].
  - rewrite walk_names, reverse_involutive; [done..|]. by rewrite reverse_involutive.
  - apply (f_equal reverse) in Hnil. rewrite reverse_involutive in Hnil. by rewrite Hnil.
Qed.

Section materialization.
Context {V : Type} (P : Pickler V).

(** X16. The location in the materialization of the explicit-path store is
    right: when [set_asset] returns on a well-formed file system, the
    [fspath] entry of the event is an absolute path, and it resolves to the
    very file that was just written, wherever the working directory is,
    provided that it has fewer than [PATH_MAX] bytes (which the absolute
    path of a file written under a relative path need not have). *)
Theorem X16_materialization_locates_the_file
    (self : CustomPathPickledObjectFilesystemAssetStore.t) (ctx : AssetStoreContext)
    (obj : V) (fs fs' : filesystem) (r : option AssetMaterialization) :
  well_formed fs →
  Forall (λ n, is_segment n = true) (cwd fs) →
  CustomPathPickledObjectFilesystemAssetStore.set_asset P self ctx obj fs = (fs', inr r) →
  ∃ filepath location p,
    custom_filepath self ctx = inr filepath ∧
    r = Some {| asset_key := mkAssetKey [pipeline_name ctx; step_key ctx; output_name ctx];
                metadata_entries := [fspath location] |} ∧
    startswith_sep location = true ∧
    resolve fs' filepath = inr p ∧ is_file fs' p = true ∧
    ((String.length location < PATH_MAX)%nat → resolve fs' location = inr p).
Proof.
  intros Hwf Hcwd. rewrite custom_set_asset.
  destruct (custom_filepath self ctx) as [|filepath]; [done|].
  intros [Hst ->]%finish_inr.
  pose proof (store_pickle_well_formed P _ _ _ _ _ Hwf Hst) as Hwf'.
  pose proof (store_pickle_extends P _ _ _ _ _ Hst) as Hext.
  apply store_pickle_written in Hst as (p & d & _ & Hres & Hp).
  rewrite <-(extends_cwd _ _ Hext) in Hcwd.
  destruct (abspath_normal fs' filepath Hcwd) as (path & Habs & Hnorm & Hsite).
  exists filepath, (os_path_abspath fs' filepath), p.
  pose proof (resolve_site _ _ _ Hres) as Hp'. rewrite <-Hsite in Hp'.
  split_and!.
  - done.
  - done.
  - rewrite Hnorm. by apply (normpath_site fs').
  - done.
  - unfold is_file. by rewrite Hp.
  - rewrite Hnorm, Hp'. intros Hlen. apply resolve_normpath; [done..| |done].
    rewrite <-Hp', Hp. eauto.
Qed.
End materialization.

Lemma well_formed_home_fs : well_formed home_fs.
Proof.
  intros c q [n Hn]. simpl in Hn.
  apply lookup_insert_Some in Hn as [[[= <- <-] _]|[_ Hn]]; [done|].
  apply lookup_singleton_Some in Hn as [[= <- <-] _]. done.
Qed.

Lemma X16_materialization_locates_the_file_witness :
  let res := CustomPathPickledObjectFilesystemAssetStore.set_asset toy_pickle
               custom_store_dot ctx_report (PyInt 1) home_fs in
  ∃ p, res.2 = inr (Some {| asset_key := mkAssetKey ["pipe"; "s.compute"; "result"];
                           metadata_entries := [fspath "/home/u/reports/out.bin"] |}) ∧
       resolve res.1 "./reports/out.bin" = inr p ∧
       resolve res.1 "/home/u/reports/out.bin" = inr p ∧
       is_file res.1 p = true.
Proof.
  intros res.
  destruct res as [fs' [e|r]] eqn:Hres; [by vm_compute in Hres|].
  destruct (X16_materialization_locates_the_file toy_pickle custom_store_dot ctx_report
              (PyInt 1) home_fs fs' r well_formed_home_fs)
    as (filepath & location & p & Hpath & Hr & _ & Hres1 & Hfile & Hres2).
  { repeat constructor. }
  { exact Hres. }
  vm_compute in Hpath. injection Hpath as <-.
  assert (location = "/home/u/reports/out.bin") as ->.
  { apply (f_equal snd) in Hres. simpl in Hres. rewrite Hr in Hres.
    vm_compute in Hres. by injection Hres as ->. }
  exists p. simpl. rewrite Hr. split_and!; [done..| |done].
  apply Hres2. apply Nat.ltb_lt. vm_compute. reflexivity.
Defined.


(** A machine whose working directory lies seventeen directories deep, each
    named by 250 bytes. *)
Definition name250 : string := string_of_list_ascii (replicate 250 "d"%char).

Definition nested (name : string) (n : nat) : gmap loc node :=
  list_to_map ((λ k, (replicate (S k) name, Dir)) <$> seq 0 n).

Definition deep_fs : filesystem :=
  {| nodes := nested name250 17; cwd := replicate 17 name250 |}.

Lemma nested_lookup name n q x :
  nested name n !! q = Some x ↔ x = Dir ∧ ∃ k, (k < n)%nat ∧ q = replicate (S k) name.
Proof.
  unfold nested. rewrite <-elem_of_list_to_map.
  - rewrite list_elem_of_fmap. split.
    + intros (k & [= -> ->] & Hk%elem_of_seq). split; [done|]. exists k. split; [lia|done].
    + intros [-> (k & Hk & ->)]. exists k. split; [done|]. apply elem_of_seq. lia.
  - rewrite <-list_fmap_compose. apply NoDup_fmap_2; [|apply NoDup_seq].
    intros k1 k2 Heq. simpl in Heq. apply (f_equal List.length) in Heq.
    simpl in Heq. rewrite !length_replicate in Heq. lia.
Qed.

Lemma well_formed_nested name n w :
  has_nul name = false → too_long name = false →
  well_formed {| nodes := nested name n; cwd := w |}.
Proof.
  intros Hnul Hlong c q [x Hx]. simpl in Hx.
  apply nested_lookup in Hx as [_ (k & Hk & Hq)]. simpl in Hq. injection Hq as -> ->.
  split; [|done]. unfold is_dir. destruct k as [|k]; [done|]. simpl.
  assert (nested name n !! (name :: replicate k name) = Some Dir) as ->; [|done].
  apply nested_lookup. split; [done|]. exists k. split; [lia|done].
Qed.

Lemma abspath_cwd fs fs' filepath :
  cwd fs' = cwd fs → os_path_abspath fs' filepath = os_path_abspath fs filepath.
Proof. intros Hcwd. unfold os_path_abspath, os_getcwd. by rewrite Hcwd. Qed.

Lemma resolve_too_long fs path :
  has_nul path = false → (PATH_MAX ≤ String.length path)%nat →
  resolve fs path = inl (OSError ENAMETOOLONG).
Proof.
  intros Hnul Hlen. unfold resolve. rewrite Hnul.
  rewrite bool_decide_false; [by rewrite bool_decide_true|].
  intros ->. unfold PATH_MAX in Hlen. simpl in Hlen. lia.
Qed.

(** What the explicit-path [set_asset] returns, in terms of the file system
    it started on. *)
Lemma custom_set_returns {V} (P : Pickler V) self ctx obj fs fs' r :
  CustomPathPickledObjectFilesystemAssetStore.set_asset P self ctx obj fs = (fs', inr r) →
  ∃ filepath,
    custom_filepath self ctx = inr filepath ∧
    r = Some {| asset_key := mkAssetKey [pipeline_name ctx; step_key ctx; output_name ctx];
                metadata_entries := [fspath (os_path_abspath fs filepath)] |}.
Proof.
  rewrite custom_set_asset. destruct (custom_filepath self ctx) as [|filepath]; [done|].
  intros [Hst ->]%finish_inr. exists filepath. split; [done|].
  unfold custom_materialization.
  by rewrite (abspath_cwd fs fs') by apply (extends_cwd _ _ (store_pickle_extends _ _ _ _ _ _ Hst)).
Qed.

Lemma deep_location_long :
  (PATH_MAX ≤ String.length (os_path_abspath deep_fs "./reports/out.bin"))%nat.
Proof. apply Nat.leb_le. vm_compute. reflexivity. Qed.

Lemma deep_location_no_nul :
  has_nul (os_path_abspath deep_fs "./reports/out.bin") = false.
Proof. vm_compute. reflexivity. Qed.

Lemma deep_write_returns :
  match (CustomPathPickledObjectFilesystemAssetStore.set_asset toy_pickle custom_store_dot
           ctx_report (PyInt 1) deep_fs).2 with
  | inr _ => true
  | inl _ => false
  end = true.
Proof. vm_compute. reflexivity. Qed.

(** The bound on the length in X16 is needed: below a working directory
    whose absolute path is long, a file is written under a short relative
    path, and the absolute path in the materialization has more than
    [PATH_MAX] bytes, so that the operating system refuses it. *)
Lemma materialization_location_can_be_too_long :
  well_formed deep_fs ∧ Forall (λ n, is_segment n = true) (cwd deep_fs) ∧
  ∃ fs' location,
    CustomPathPickledObjectFilesystemAssetStore.set_asset toy_pickle custom_store_dot
      ctx_report (PyInt 1) deep_fs
    = (fs', inr (Some {| asset_key := mkAssetKey ["pipe"; "s.compute"; "result"];
                         metadata_entries := [fspath location] |})) ∧
    (PATH_MAX ≤ String.length location)%nat ∧
    resolve fs' location = inl (OSError ENAMETOOLONG).
Proof.
  split_and!.
  - apply well_formed_nested; vm_compute; reflexivity.
  - apply forallb_Forall. vm_compute. reflexivity.
  - pose proof deep_write_returns as Hret.
    destruct (CustomPathPickledObjectFilesystemAssetStore.set_asset toy_pickle
                custom_store_dot ctx_report (PyInt 1) deep_fs) as [fs' [e|r]] eqn:Hset;
      [discriminate Hret|]. clear Hret.
    destruct (custom_set_returns _ _ _ _ _ _ _ Hset) as (filepath & Hfp & ->).
    injection Hfp as <-.
    exists fs', (os_path_abspath deep_fs "./reports/out.bin"). split_and!.
    + reflexivity.
    + exact deep_location_long.
    + exact (resolve_too_long _ _ deep_location_no_nul deep_location_long).
Qed.

(** ** Writing again *)

Lemma makedirs_walk_noop cur comps pos fs q :
  walk fs cur comps = inr q → is_dir fs q = true →
  Forall (λ c, has_nul c = false) comps →
  (comps ≠ [] → (pos + String.length (join_sep comps) < PATH_MAX)%nat) →
  makedirs_walk cur comps pos fs = (fs, inr ()).
Proof.
  revert cur pos. induction comps as [|c rest IH]; intros cur pos Hwalk Hq Hnuls Hlen.
  - simpl in *. injection Hwalk as <-. apply is_dir_Some in Hq. by rewrite Hq.
  - apply Forall_cons in Hnuls as [Hnul Hrest]. specialize (Hlen ltac:(done)).
    pose proof (mkdir_arg_length_le pos c rest) as Harg.
    simpl in Hwalk |- *.
    destruct (node_at fs cur) as [[]|] eqn:Hcur; try done.
    destruct (too_long c) eqn:Hc; [done|].
    rewrite Hnul, bool_decide_false by lia.
    assert (node_at fs (enter cur c) = Some Dir) as Hnext.
    { destruct rest as [|c' rest]; simpl in Hwalk.
      - injection Hwalk as <-. by apply is_dir_Some.
      - by destruct (node_at fs (enter cur c)) as [[]|]. }
    rewrite Hnext. apply (IH _ _ Hwalk Hq Hrest). intros Hne.
    rewrite join_sep_cons, !string_length_app in Hlen by done.
    change (String.length "/") with 1%nat in Hlen. lia.
Qed.

Lemma put_node_same p d fs : node_at fs p = Some (File d) → put_node p (File d) fs = fs.
Proof.
  intros Hp. destruct fs as [m w]. unfold put_node. simpl. f_equal.
  destruct p as [|c p]; [done|]. by apply insert_id.
Qed.

Section again.
Context {V : Type} (P : Pickler V).

(** After [store_pickle] has returned, doing it again for the same path
    only replaces the contents of the file. *)
Lemma store_pickle_again filepath v1 v2 d2 fs fs1 :
  store_pickle P filepath v1 fs = (fs1, inr ()) →
  dumps P v2 = Some d2 →
  ∃ p, resolve fs1 filepath = inr p ∧ is_file fs1 p = true ∧
       store_pickle P filepath v2 fs1 = (put_node p (File d2) fs1, inr ()).
Proof.
  intros Hst Hd2. pose proof (store_pickle_directory P _ _ _ _ Hst) as Hdir.
  apply store_pickle_written in Hst as (p & d1 & _ & Hres & Hp).
  exists p. split_and!; [done|by unfold is_file; rewrite Hp|].
  unfold os_path_isdir in Hdir.
  destruct (resolve fs1 (os_path_dirname filepath)) as [|D] eqn:HresD; [done|].
  apply resolve_inr in HresD as (Hnul & Hne & Hlen & Hwalk).
  assert (makedirs_walk (start fs1 (os_path_dirname filepath))
            (split_sep (os_path_dirname filepath)) 0 fs1 = (fs1, inr ())) as Hmk.
  { apply (makedirs_walk_noop _ _ _ _ D Hwalk Hdir); [by apply has_nul_split_sep|].
    intros _. by rewrite join_split_sep. }
  unfold store_pickle, bind, mkdir_p. rewrite bool_decide_false, Hmk by done.
  unfold open_. rewrite Hres, Hp. unfold pickle_dump. by rewrite Hd2, put_put.
Qed.

(** X17. Re-execution overwrites in place: after a [set_asset] of a pickling
    store has returned for a context, a further [set_asset] for the same
    context with an object the serializer can encode always returns, makes
    no directory and no other file, and changes nothing but the contents of
    the file at the computed path; writing the same object again leaves the
    file system as it is. *)
Theorem X17_writing_again_overwrites_in_place (ctx : AssetStoreContext) (v1 v2 : V)
    (d2 : bytes) (fs fs1 : filesystem) (r1 : option AssetMaterialization) :
  dumps P v2 = Some d2 →
  let again (path : error + string) (res : filesystem * (error + option AssetMaterialization)) :=
    ∃ filepath p,
      path = inr filepath ∧ resolve fs1 filepath = inr p ∧ is_file fs1 p = true ∧
      res.1 = put_node p (File d2) fs1 ∧ (∃ r2, res.2 = inr r2) ∧
      (v2 = v1 → res.1 = fs1) in
  (∀ self,
     PickledObjectFilesystemAssetStore.set_asset P self ctx v1 fs = (fs1, inr r1) →
     again (PickledObjectFilesystemAssetStore._get_path self ctx)
           (PickledObjectFilesystemAssetStore.set_asset P self ctx v2 fs1)) ∧
  (∀ self,
     CustomPathPickledObjectFilesystemAssetStore.set_asset P self ctx v1 fs = (fs1, inr r1) →
     again (custom_filepath self ctx)
           (CustomPathPickledObjectFilesystemAssetStore.set_asset P self ctx v2 fs1)) ∧
  (∀ self,
     VersionedPickledObjectFilesystemAssetStore.set_asset P self ctx v1 fs = (fs1, inr r1) →
     again (VersionedPickledObjectFilesystemAssetStore._get_path self ctx)
           (VersionedPickledObjectFilesystemAssetStore.set_asset P self ctx v2 fs1)).
Proof.
  intros Hd2 again.
  assert (∀ filepath (k : filesystem → option AssetMaterialization),
    store_pickle P filepath v1 fs = (fs1, inr ()) →
    again (inr filepath) (finish (store_pickle P filepath v2 fs1) k)) as Hagain.
  { intros filepath k Hst.
    destruct (store_pickle_again filepath v1 v2 d2 fs fs1 Hst Hd2) as (p & Hres & Hfile & Hst2).
    exists filepath, p. rewrite Hst2. simpl. split_and!; [done..|eauto|].
    intros ->. apply put_node_same.
    apply store_pickle_written in Hst as (p' & d1 & Hd1 & Hres' & Hp').
    congruence. }
  split_and!; intros self.
  - rewrite !run_scoped_set_asset.
    destruct (PickledObjectFilesystemAssetStore._get_path self ctx) as [|filepath];
      [done|].
    intros [Hst _]%finish_inr. by apply Hagain.
  - rewrite !custom_set_asset. destruct (custom_filepath self ctx) as [|filepath]; [done|].
    intros [Hst _]%finish_inr. by apply Hagain.
  - rewrite !versioned_set_asset.
    destruct (VersionedPickledObjectFilesystemAssetStore._get_path self ctx)
      as [|filepath]; [done|].
    intros [Hst _]%finish_inr. by apply Hagain.
Qed.
End again.

Lemma X17_writing_again_witness :
  let w1 := PickledObjectFilesystemAssetStore.set_asset toy_pickle store_tmp_x ctx_r1
              (PyInt 1) empty_fs in
  let w2 := PickledObjectFilesystemAssetStore.set_asset toy_pickle store_tmp_x ctx_r1
              (PyInt 1) w1.1 in
  w2.1 = w1.1 ∧ ∃ r2, w2.2 = inr r2.
Proof.
  intros w1 w2.
  destruct (proj1 (X17_writing_again_overwrites_in_place toy_pickle ctx_r1 (PyInt 1)
                     (PyInt 1) _ empty_fs w1.1 None eq_refl) store_tmp_x)
    as (filepath & p & _ & _ & _ & _ & Hr2 & Hsame).
  { vm_compute. reflexivity. }
  split; [by apply Hsame|exact Hr2].
Defined.

(** * The claims about writes and reads *)

(** ** The path of the run-scoped store *)

(** C4. The run-scoped store computes its path as
    [join(base_dir, source_run_id, step_key, output_name)], in this order:
    for plain segments below a base directory that does not end with a
    separator this is [base_dir/source_run_id/step_key/output_name].  After
    a [set_asset] that returned, a regular file exists at that path and
    [get_asset] for the context returns the value written; and [set_asset]
    does return, for an object the serializer can encode, when the three
    fields are plain segments, the path is one the operating system
    accepts, and the store has not been used yet below a base directory
    free of [".."]. *)
Theorem C4_run_scoped_path {V} (P : Pickler V)
    (self : PickledObjectFilesystemAssetStore.t) (ctx : AssetStoreContext)
    (base run : string) :
  PickledObjectFilesystemAssetStore.base_dir self = Some base →
  source_run_id ctx = Some run →
  let path := join_step (join_step (join_step base run) (step_key ctx)) (output_name ctx) in
  (PickledObjectFilesystemAssetStore._get_path self ctx =
     os_path_join (Some base) [Some run; Some (step_key ctx); Some (output_name ctx)] ∧
   PickledObjectFilesystemAssetStore._get_path self ctx = inr path) ∧
  (base ≠ "" → endswith_sep base = false →
   is_segment run = true → is_segment (step_key ctx) = true →
   is_segment (output_name ctx) = true →
   path = base +:+ "/" +:+ run +:+ "/" +:+ step_key ctx +:+ "/" +:+ output_name ctx) ∧
  (round_trips P →
   ∀ v fs fs' r,
     PickledObjectFilesystemAssetStore.set_asset P self ctx v fs = (fs', inr r) →
     os_path_exists fs' path = true ∧ os_path_isdir fs' path = false ∧
     PickledObjectFilesystemAssetStore.get_asset P self ctx fs' = (fs', inr v)) ∧
  (round_trips P →
   run_scoped_plain ctx = true → no_dotdot base = true → accepted path = true →
   ∀ v fs,
     is_Some (dumps P v) → unused base fs → is_dir fs (cwd fs) = true →
     ∃ fs',
       PickledObjectFilesystemAssetStore.set_asset P self ctx v fs = (fs', inr None) ∧
       os_path_exists fs' path = true ∧ os_path_isdir fs' path = false ∧
       PickledObjectFilesystemAssetStore.get_asset P self ctx fs' = (fs', inr v)).
Proof.
  intros Hb Hr path. pose proof (run_scoped_get_path self ctx base run Hb Hr) as Hpath.
  assert (round_trips P →
    ∀ v fs fs' r,
      PickledObjectFilesystemAssetStore.set_asset P self ctx v fs = (fs', inr r) →
      os_path_exists fs' path = true ∧ os_path_isdir fs' path = false ∧
      PickledObjectFilesystemAssetStore.get_asset P self ctx fs' = (fs', inr v)) as Hfile.
  { intros Hrt v fs fs' r Hset.
    pose proof (run_scoped_round_trip P Hrt _ _ _ _ _ _ Hset) as Hget. simpl in Hget.
    rewrite run_scoped_set_asset, Hpath in Hset.
    apply finish_inr in Hset as [(p & d & _ & Hres & Hp)%store_pickle_written _].
    unfold os_path_exists, os_path_isdir, is_dir. fold path in Hres. rewrite Hres, Hp.
    split_and!; [|done..]. apply bool_decide_eq_true. eauto. }
  split_and!; [by rewrite Hpath, join_three|done|by apply join_three_string|done|].
  intros Hrt Hplain Hnd Hacc v fs Hd Hunused Hcwd.
  destruct (run_scoped_returns P self base fs [] ctx v) as [fs' Hset]; try done.
  { by intros cv ?%elem_of_nil. }
  { by rewrite Hpath. }
  exists fs'. split; [done|]. by eapply Hfile.
Qed.

Lemma C4_run_scoped_path_witness :
  PickledObjectFilesystemAssetStore._get_path store_tmp_x ctx_r1
  = inr "/tmp/x/r1/a/result" ∧
  ∃ fs',
    PickledObjectFilesystemAssetStore.set_asset toy_pickle store_tmp_x ctx_r1 (PyInt 1)
      empty_fs = (fs', inr None) ∧
    os_path_exists fs' "/tmp/x/r1/a/result" = true ∧
    os_path_isdir fs' "/tmp/x/r1/a/result" = false ∧
    PickledObjectFilesystemAssetStore.get_asset toy_pickle store_tmp_x ctx_r1 fs'
    = (fs', inr (PyInt 1)).
Proof.
  destruct (C4_run_scoped_path toy_pickle store_tmp_x ctx_r1 "/tmp/x" "r1"
              eq_refl eq_refl) as ([_ Hpath] & _ & _ & Hreturns).
  split.
  - rewrite Hpath. reflexivity.
  - apply (Hreturns toy_round_trips eq_refl eq_refl eq_refl (PyInt 1) empty_fs
             (mk_is_Some _ _ eq_refl) (unused_empty_fs _) eq_refl).
Defined.

(** ** What the key leaves out *)

(** C10. Two contexts with the same [source_run_id], [step_key] and
    [output_name] have the same key in the in-memory store and the same path
    in the run-scoped store, whatever their versions, pipeline names, solid
    definitions and metadata; what is written under one (over whatever was
    there) is what a read under the other returns, and on the run-scoped
    store a write under one, of an object the serializer can encode, over
    what was written under the other returns and replaces it. *)
Theorem C10_key_ignores_other_fields {V} (P : Pickler V) (c1 c2 : AssetStoreContext) :
  source_run_id c1 = source_run_id c2 →
  step_key c1 = step_key c2 →
  output_name c1 = output_name c2 →
  (get_run_scoped_output_identifier c1 = get_run_scoped_output_identifier c2 ∧
   ∀ (st : InMemoryAssetStore.t V) v,
     let st' := (InMemoryAssetStore.set_asset c1 v st).1 in
     InMemoryAssetStore.get_asset c2 st' = (st', inr v)) ∧
  ((∀ self, PickledObjectFilesystemAssetStore._get_path self c1 =
            PickledObjectFilesystemAssetStore._get_path self c2) ∧
   (round_trips P →
    ∀ self v fs fs' r,
      PickledObjectFilesystemAssetStore.set_asset P self c1 v fs = (fs', inr r) →
      PickledObjectFilesystemAssetStore.get_asset P self c2 fs' = (fs', inr v)) ∧
   (round_trips P →
    ∀ self v2 v1 fs fs2 r2,
      PickledObjectFilesystemAssetStore.set_asset P self c2 v2 fs = (fs2, inr r2) →
      is_Some (dumps P v1) →
      ∃ fs1,
        PickledObjectFilesystemAssetStore.set_asset P self c1 v1 fs2 = (fs1, inr None) ∧
        PickledObjectFilesystemAssetStore.get_asset P self c2 fs1 = (fs1, inr v1))).
Proof.
  intros Hr Hs Ho. pose proof (identifier_eq _ _ Hr Hs Ho) as Hid.
  assert (round_trips P →
    ∀ self v fs fs' r,
      PickledObjectFilesystemAssetStore.set_asset P self c1 v fs = (fs', inr r) →
      PickledObjectFilesystemAssetStore.get_asset P self c2 fs' = (fs', inr v)) as Hread.
  { intros Hrt self v fs fs' r Hset.
    rewrite run_scoped_get_asset, <-(run_scoped_get_path_eq self c1 c2 Hid),
      <-run_scoped_get_asset.
    by eapply (run_scoped_round_trip P Hrt). }
  split_and!; [done|..|done|].
  - intros st v. unfold InMemoryAssetStore.get_asset, InMemoryAssetStore.set_asset.
    simpl. by rewrite <-Hid, lookup_insert_eq.
  - intros self. by apply run_scoped_get_path_eq.
  - intros Hrt self v2 v1 fs fs2 r2 Hset2 [d1 Hd1].
    assert (∃ fs1, PickledObjectFilesystemAssetStore.set_asset P self c1 v1 fs2
                   = (fs1, inr None)) as [fs1 Hset1].
    { rewrite run_scoped_set_asset in Hset2 |- *.
      rewrite (run_scoped_get_path_eq self c1 c2 Hid).
      destruct (PickledObjectFilesystemAssetStore._get_path self c2) as [|filepath];
        [done|].
      apply finish_inr in Hset2 as [Hst2 _].
      destruct (store_pickle_again P filepath v2 v1 d1 fs fs2 Hst2 Hd1)
        as (p & _ & _ & ->). simpl. eauto. }
    exists fs1. split; [done|]. by eapply Hread.
Qed.

Lemma C10_key_ignores_other_fields_witness :
  ctx_r1 ≠ ctx_r1_other ∧
  (let st' := (InMemoryAssetStore.set_asset ctx_r1 (PyInt 1) InMemoryAssetStore.init).1 in
   InMemoryAssetStore.get_asset ctx_r1_other st' = (st', inr (PyInt 1))) ∧
  (let fs' := (PickledObjectFilesystemAssetStore.set_asset toy_pickle
                 store_tmp_x ctx_r1 (PyInt 1) empty_fs).1 in
   PickledObjectFilesystemAssetStore.get_asset toy_pickle store_tmp_x ctx_r1_other fs'
   = (fs', inr (PyInt 1)) ∧
   ∃ fs1,
     PickledObjectFilesystemAssetStore.set_asset toy_pickle store_tmp_x ctx_r1_other
       (PyInt 2) fs' = (fs1, inr None) ∧
     PickledObjectFilesystemAssetStore.get_asset toy_pickle store_tmp_x ctx_r1 fs1
     = (fs1, inr (PyInt 2))).
Proof.
  destruct (C10_key_ignores_other_fields toy_pickle ctx_r1 ctx_r1_other
              eq_refl eq_refl eq_refl) as [[_ Hmem] [_ [Hfs _]]].
  destruct (C10_key_ignores_other_fields toy_pickle ctx_r1_other ctx_r1
              eq_refl eq_refl eq_refl) as [_ [_ [_ Hover]]].
  split_and!.
  - intros [=].
  - apply Hmem.
  - intros fs'. split.
    + apply (Hfs toy_round_trips store_tmp_x (PyInt 1) empty_fs fs' None).
      vm_compute. reflexivity.
    + apply (Hover toy_round_trips store_tmp_x (PyInt 1) (PyInt 2) empty_fs fs' None);
        [|by eexists].
      vm_compute. reflexivity.
Defined.

(** ** Round trip *)





(** ** The cache laws of the version-scoped store *)



Section cache_laws.
Context {V : Type} (P : Pickler V).


End cache_laws.






(** ** A context under which nothing was written *)






